(** * nano-banana-mcp: a shallow embedding of [src/index.ts]

    The server exposes eight image tools over the Model Context Protocol.
    Everything the code in [index.ts] decides is modelled here: the zod
    schemas that validate the arguments, the eight handlers and the
    dispatcher that wraps them in a [try]/[catch].  What the code delegates
    (the remote model, the filesystem, the clock) is an environment of
    oracles, and every use of it is recorded in a trace of events. *)

From Stdlib Require Import String Ascii List ZArith QArith Qround Lia Bool.
From Stdlib Require Import DecimalString Permutation Sorted.
Import ListNotations.
Open Scope string_scope.

Set Implicit Arguments.
Set Warnings "-register-all".

(** ** JavaScript strings

    A string is the sequence of its bytes.  The code only inspects ASCII
    characters ([:], [.], [/] and the letters of the known extensions), and
    bytes above 127 are left alone by every operation below, as the
    corresponding non-ASCII characters are by the JavaScript ones. *)

Module Js.

(** [String.prototype.toLowerCase], on the ASCII letters. *)
Definition lower_ascii (c : ascii) : ascii :=
  let n := nat_of_ascii c in
  if (65 <=? n)%nat && (n <=? 90)%nat then ascii_of_nat (n + 32) else c.

Fixpoint toLowerCase (s : string) : string :=
  match s with
  | EmptyString => EmptyString
  | String c r => String (lower_ascii c) (toLowerCase r)
  end.

(** [s.replace(/[:.]/g, '-')] *)
Fixpoint replace_colon_dot (s : string) : string :=
  match s with
  | EmptyString => EmptyString
  | String c r =>
      String (if Ascii.eqb c ":" || Ascii.eqb c "." then "-"%char else c)
             (replace_colon_dot r)
  end.

(** [Array.prototype.join] on strings. *)
Fixpoint join (sep : string) (l : list string) : string :=
  match l with
  | [] => ""
  | [x] => x
  | x :: r => x ++ sep ++ join sep r
  end.

(** [String.prototype.includes]. *)
Definition includes (s sub : string) : Prop :=
  exists a b, s = a ++ sub ++ b.

(** The decimal rendering of a non-negative integer, as a template
    literal renders the loop counters. *)
Definition nat_toString (n : nat) : string :=
  NilEmpty.string_of_uint (Nat.to_uint n).

(** A string is truthy when it is not empty; [undefined] is falsy. *)
Definition truthy (o : option string) : bool :=
  match o with
  | Some s => negb (String.eqb s "")
  | None => false
  end.

(** Untyped values, as a tool call's [arguments] arrive from JSON;
    a missing key reads as [VUndefined].  A number is the rational it
    denotes: the code compares numbers with bounds and passes them on,
    and computes nothing from them. *)
Inductive value : Type :=
| VUndefined
| VNull
| VBool (b : bool)
| VNum (q : Q)
| VStr (s : string)
| VArr (l : list value)
| VObj (fields : list (string * value)).

Fixpoint lookup (k : string) (fields : list (string * value)) : value :=
  match fields with
  | [] => VUndefined
  | (k', v) :: r => if String.eqb k k' then v else lookup k r
  end.

(** [v.k] for a value that may not be an object. *)
Definition field (k : string) (v : value) : value :=
  match v with
  | VObj fields => lookup k fields
  | _ => VUndefined
  end.

(** An issue of a failed validation: its code (the message, for the
    custom code of a refinement) and the path of the value it is about. *)
Inductive issue_code : Type :=
| invalid_type
| too_small
| too_big
| invalid_enum_value
| custom (message : string).

Inductive path_key : Type :=
| Key (k : string)
| Idx (i : nat).

Record issue : Type := Issue { code : issue_code; path : list path_key }.

(** What can be thrown: an [Error] with its message (a [TypeError] is
    one), the [ZodError] of a failed [parse] with its issues, or a value
    that is not an [Error], given by what [String] makes of it. *)
Inductive thrown : Type :=
| Error (message : string)
| ZodError (issues : list issue)
| NotAnError (as_string : string).

Inductive result (A : Type) : Type :=
| Ok (a : A)
| Throw (e : thrown).
Arguments Ok {A} a.
Arguments Throw {A} e.

End Js.

(** ** Node's [path] module (POSIX flavour)

    [path.extname] and [path.join] are library code; they are written out
    after Node's implementation so that the handlers can be run on concrete
    paths. *)

Module NodePath.

Record scan : Type := Scan {
  startDot : Z;
  startPart : Z;
  end_ : Z;
  matchedSlash : bool;
  preDotState : Z
}.

(** The backward loop of [extname]: [rev_chars] are the characters still
    to visit, the head being the one at index [length (tail)]. *)
Fixpoint extname_loop (rev_chars : list ascii) (st : scan) : scan :=
  match rev_chars with
  | [] => st
  | c :: rest =>
      let i := Z.of_nat (List.length rest) in
      if Ascii.eqb c "/" then
        if negb (matchedSlash st)
        then Scan (startDot st) (i + 1) (end_ st) (matchedSlash st) (preDotState st)
        else extname_loop rest st
      else
        let st1 :=
          if (end_ st =? -1)%Z
          then Scan (startDot st) (startPart st) (i + 1) false (preDotState st)
          else st in
        let st2 :=
          if Ascii.eqb c "." then
            if (startDot st1 =? -1)%Z
            then Scan i (startPart st1) (end_ st1) (matchedSlash st1) (preDotState st1)
            else if negb (preDotState st1 =? 1)%Z
            then Scan (startDot st1) (startPart st1) (end_ st1) (matchedSlash st1) 1
            else st1
          else if negb (startDot st1 =? -1)%Z
          then Scan (startDot st1) (startPart st1) (end_ st1) (matchedSlash st1) (-1)
          else st1 in
        extname_loop rest st2
  end.

Definition extname (p : string) : string :=
  let st := extname_loop (List.rev (list_ascii_of_string p)) (Scan (-1) 0 (-1) true 0) in
  if (startDot st =? -1)%Z
     || (end_ st =? -1)%Z
     || (preDotState st =? 0)%Z
     || ((preDotState st =? 1)%Z
         && (startDot st =? end_ st - 1)%Z
         && (startDot st =? startPart st + 1)%Z)
  then ""
  else substring (Z.to_nat (startDot st))
                 (Z.to_nat (end_ st - startDot st)) p.

(** [p.split('/')] *)
Fixpoint split_slash (cur : string) (s : string) : list string :=
  match s with
  | EmptyString => [cur]
  | String c r =>
      if Ascii.eqb c "/" then cur :: split_slash "" r
      else split_slash (cur ++ String c "") r
  end.

(** [normalizeString], segment by segment; [acc] holds the segments kept
    so far, last one first. *)
Fixpoint normalize_segments (allowAboveRoot : bool)
         (segs : list string) (acc : list string) : list string :=
  match segs with
  | [] => List.rev acc
  | seg :: r =>
      if String.eqb seg "" || String.eqb seg "." then
        normalize_segments allowAboveRoot r acc
      else if String.eqb seg ".." then
        match acc with
        | last :: acc' =>
            if String.eqb last ".."
            then normalize_segments allowAboveRoot r
                   (if allowAboveRoot then ".." :: acc else acc)
            else normalize_segments allowAboveRoot r acc'
        | [] =>
            normalize_segments allowAboveRoot r
              (if allowAboveRoot then [".."] else [])
        end
      else normalize_segments allowAboveRoot r (seg :: acc)
  end.

Definition last_is_slash (s : string) : bool :=
  match List.rev (list_ascii_of_string s) with
  | c :: _ => Ascii.eqb c "/"
  | [] => false
  end.

Definition normalize (p : string) : string :=
  match p with
  | EmptyString => "."
  | String c _ =>
      let isAbsolute := Ascii.eqb c "/" in
      let trailingSeparator := last_is_slash p in
      let body :=
        Js.join "/" (normalize_segments (negb isAbsolute) (split_slash "" p) []) in
      if String.eqb body "" then
        if isAbsolute then "/" else if trailingSeparator then "./" else "."
      else
        let body' := if trailingSeparator then body ++ "/" else body in
        if isAbsolute then "/" ++ body' else body'
  end.

(** [path.join(a, b)] *)
Definition join (a b : string) : string :=
  let joined :=
    match a, b with
    | EmptyString, EmptyString => None
    | EmptyString, _ => Some b
    | _, EmptyString => Some a
    | _, _ => Some (a ++ "/" ++ b)
    end in
  match joined with
  | None => "."
  | Some j => normalize j
  end.

End NodePath.

(** ** The zod combinators the schemas are built from

    A schema reads an untyped value and returns the typed value together
    with the issues it found.  As in zod, a parse is valid (value, no
    issue), dirty (value, some issues: a failed [min], [max] or [refine])
    or aborted (no value: a wrong type).  [parse] throws a [ZodError]
    unless the outcome is valid.  zod is a dependency of the server; its
    combinators are written out as far as the schemas use them. *)

Module Zod.
Import Js.

Record parsed (A : Type) : Type := Parsed {
  parsed_value : option A;
  parsed_issues : list issue
}.

Definition schema (A : Type) : Type := list path_key -> value -> parsed A.

Definition valid {A} (a : A) : parsed A := Parsed (Some a) [].
Definition aborted {A} (p : list path_key) (c : issue_code) : parsed A :=
  Parsed None [Issue c p].

(** A check added to a schema: it runs on a value that has the right
    type and adds its issue when it fails. *)
Definition check {A} (ok : A -> bool) (c : issue_code) (s : schema A) : schema A :=
  fun p v =>
    let r := s p v in
    match parsed_value r with
    | Some a =>
        if ok a then r
        else Parsed (Some a) (parsed_issues r ++ [Issue c p])%list
    | None => r
    end.

Definition string : schema String.string :=
  fun p v => match v with VStr s => valid s | _ => aborted p invalid_type end.

Definition number : schema Q :=
  fun p v => match v with VNum q => valid q | _ => aborted p invalid_type end.

Definition boolean : schema bool :=
  fun p v => match v with VBool b => valid b | _ => aborted p invalid_type end.

Definition min (m : Q) : schema Q -> schema Q :=
  check (fun q => Qle_bool m q) too_small.

Definition max (m : Q) : schema Q -> schema Q :=
  check (fun q => Qle_bool q m) too_big.

Definition optional {A} (s : schema A) : schema (option A) :=
  fun p v =>
    match v with
    | VUndefined => valid None
    | _ => let r := s p v in Parsed (option_map Some (parsed_value r)) (parsed_issues r)
    end.

Definition default {A} (d : value) (s : schema A) : schema A :=
  fun p v => match v with VUndefined => s p d | _ => s p v end.

(** [z.enum([...])], the options given with the name of each. *)
Definition enum {A} (name : A -> String.string) (options : list A) : schema A :=
  fun p v =>
    match v with
    | VStr s =>
        match find (fun o => String.eqb (name o) s) options with
        | Some o => valid o
        | None => aborted p invalid_enum_value
        end
    | _ => aborted p invalid_type
    end.

(** The elements of an array, each at its index. *)
Fixpoint elements {A} (s : schema A) (p : list path_key) (i : nat)
         (l : list value) : parsed (list A) :=
  match l with
  | [] => valid []
  | v :: r =>
      let x := s (p ++ [Idx i])%list v in
      let xs := elements s p (S i) r in
      Parsed match parsed_value x, parsed_value xs with
             | Some a, Some l' => Some (a :: l')
             | _, _ => None
             end
             (parsed_issues x ++ parsed_issues xs)%list
  end.

(** [z.array(s).min(n)] *)
Definition array_min {A} (n : nat) (s : schema A) : schema (list A) :=
  fun p v =>
    match v with
    | VArr l =>
        let r := elements s p 0 l in
        if (List.length l <? n)%nat
        then Parsed (parsed_value r) (Issue too_small p :: parsed_issues r)
        else r
    | _ => aborted p invalid_type
    end.

(** The shape of an object: its keys are parsed in the order they are
    written and their issues collected; keys that are not in the shape
    are dropped. *)
Definition shape (A : Type) : Type :=
  list path_key -> list (String.string * value) -> parsed A.

Definition pure {A} (a : A) : shape A := fun _ _ => valid a.

Definition ap {A B} (f : shape (A -> B)) (k : String.string) (s : schema A) : shape B :=
  fun p fs =>
    let rf := f p fs in
    let ra := s (p ++ [Key k])%list (lookup k fs) in
    Parsed match parsed_value rf, parsed_value ra with
           | Some g, Some a => Some (g a)
           | _, _ => None
           end
           (parsed_issues rf ++ parsed_issues ra)%list.

Definition object {A} (sh : shape A) : schema A :=
  fun p v => match v with VObj fs => sh p fs | _ => aborted p invalid_type end.

(** [s.refine(pred, { message })]: [pred] runs unless [s] aborted. *)
Definition refine {A} (pred : A -> bool) (message : String.string) : schema A -> schema A :=
  check pred (custom message).

(** [s.parse(v)] *)
Definition parse {A} (s : schema A) (v : value) : result A :=
  let r := s [] v in
  match parsed_value r, parsed_issues r with
  | Some a, [] => Ok a
  | _, found => Throw (ZodError found)
  end.

End Zod.

Notation "f <*> k ':::' s" := (Zod.ap f k s)
  (at level 61, left associativity, k at next level, s at next level).

(** ** The argument schemas *)

Module GenerationConfig.
Record t : Type := Build {
  temperature : option Q;
  topP : option Q;
  topK : option Q;
  maxOutputTokens : option Q
}.
End GenerationConfig.

Definition GenerationConfigSchema : Zod.schema GenerationConfig.t :=
  Zod.object (Zod.pure GenerationConfig.Build
    <*> "temperature" ::: Zod.optional (Zod.max 2 (Zod.min 0 Zod.number))
    <*> "topP" ::: Zod.optional (Zod.max 1 (Zod.min 0 Zod.number))
    <*> "topK" ::: Zod.optional (Zod.max 40 (Zod.min 1 Zod.number))
    <*> "maxOutputTokens" ::: Zod.optional Zod.number).

Module GenerateImageArgs.
Record t : Type := Build {
  prompt : string;
  outputDir : option string;
  config : option GenerationConfig.t
}.
End GenerateImageArgs.

Definition GenerateImageArgsSchema : Zod.schema GenerateImageArgs.t :=
  Zod.object (Zod.pure GenerateImageArgs.Build
    <*> "prompt" ::: Zod.string
    <*> "outputDir" ::: Zod.optional Zod.string
    <*> "config" ::: Zod.optional GenerationConfigSchema).

Module EditImageArgs.
Record t : Type := Build {
  prompt : string;
  imageData : option string;
  imagePath : option string;
  outputDir : option string;
  config : option GenerationConfig.t
}.
End EditImageArgs.

Definition EditImageArgsSchema : Zod.schema EditImageArgs.t :=
  Zod.refine
    (fun data => Js.truthy (EditImageArgs.imageData data)
                 || Js.truthy (EditImageArgs.imagePath data))
    "Either imageData or imagePath must be provided"
    (Zod.object (Zod.pure EditImageArgs.Build
      <*> "prompt" ::: Zod.string
      <*> "imageData" ::: Zod.optional Zod.string
      <*> "imagePath" ::: Zod.optional Zod.string
      <*> "outputDir" ::: Zod.optional Zod.string
      <*> "config" ::: Zod.optional GenerationConfigSchema)).

Module AnalyzeImageArgs.
Record t : Type := Build {
  prompt : string;
  imageData : option string;
  imagePath : option string;
  config : option GenerationConfig.t
}.
End AnalyzeImageArgs.

Definition AnalyzeImageArgsSchema : Zod.schema AnalyzeImageArgs.t :=
  Zod.refine
    (fun data => Js.truthy (AnalyzeImageArgs.imageData data)
                 || Js.truthy (AnalyzeImageArgs.imagePath data))
    "Either imageData or imagePath must be provided"
    (Zod.object (Zod.pure AnalyzeImageArgs.Build
      <*> "prompt" ::: Zod.string
      <*> "imageData" ::: Zod.optional Zod.string
      <*> "imagePath" ::: Zod.optional Zod.string
      <*> "config" ::: Zod.optional GenerationConfigSchema)).

Module ImageInput.
Record t : Type := Build {
  imageData : option string;
  imagePath : option string;
  description : option string
}.
End ImageInput.

Module MultiImageEditArgs.
Record t : Type := Build {
  prompt : string;
  images : list ImageInput.t;
  outputDir : option string;
  config : option GenerationConfig.t
}.
End MultiImageEditArgs.

Definition MultiImageEditArgsSchema : Zod.schema MultiImageEditArgs.t :=
  Zod.refine
    (fun data =>
       forallb (fun img => Js.truthy (ImageInput.imageData img)
                           || Js.truthy (ImageInput.imagePath img))
               (MultiImageEditArgs.images data))
    "Each image must have either imageData or imagePath"
    (Zod.object (Zod.pure MultiImageEditArgs.Build
      <*> "prompt" ::: Zod.string
      <*> "images" ::: Zod.array_min 1
            (Zod.object (Zod.pure ImageInput.Build
               <*> "imageData" ::: Zod.optional Zod.string
               <*> "imagePath" ::: Zod.optional Zod.string
               <*> "description" ::: Zod.optional Zod.string))
      <*> "outputDir" ::: Zod.optional Zod.string
      <*> "config" ::: Zod.optional GenerationConfigSchema)).

Module BatchGenerateArgs.
Record t : Type := Build {
  prompts : list string;
  outputDir : option string;
  config : option GenerationConfig.t;
  parallel : option bool
}.
End BatchGenerateArgs.

Definition BatchGenerateArgsSchema : Zod.schema BatchGenerateArgs.t :=
  Zod.object (Zod.pure BatchGenerateArgs.Build
    <*> "prompts" ::: Zod.array_min 1 Zod.string
    <*> "outputDir" ::: Zod.optional Zod.string
    <*> "config" ::: Zod.optional GenerationConfigSchema
    <*> "parallel" ::: Zod.optional Zod.boolean).

Inductive CompareType : Type := differences | similarities | both.

Definition CompareType_name (c : CompareType) : string :=
  match c with
  | differences => "differences"
  | similarities => "similarities"
  | both => "both"
  end.

Module CompareImagesArgs.
Record t : Type := Build {
  image1Path : string;
  image2Path : string;
  compareType : option CompareType
}.
End CompareImagesArgs.

Definition CompareImagesArgsSchema : Zod.schema CompareImagesArgs.t :=
  Zod.object (Zod.pure CompareImagesArgs.Build
    <*> "image1Path" ::: Zod.string
    <*> "image2Path" ::: Zod.string
    <*> "compareType" ::: Zod.optional
          (Zod.enum CompareType_name [differences; similarities; both])).

Inductive VariationStrength : Type := subtle | moderate | strong.

Definition VariationStrength_name (s : VariationStrength) : string :=
  match s with
  | subtle => "subtle"
  | moderate => "moderate"
  | strong => "strong"
  end.

Module GenerateVariationsArgs.
Record t : Type := Build {
  imagePath : option string;
  imageData : option string;
  count : Q;
  variationStrength : VariationStrength;
  outputDir : option string;
  config : option GenerationConfig.t
}.
End GenerateVariationsArgs.

Definition GenerateVariationsArgsSchema : Zod.schema GenerateVariationsArgs.t :=
  Zod.refine
    (fun data => Js.truthy (GenerateVariationsArgs.imageData data)
                 || Js.truthy (GenerateVariationsArgs.imagePath data))
    "Either imageData or imagePath must be provided"
    (Zod.object (Zod.pure GenerateVariationsArgs.Build
      <*> "imagePath" ::: Zod.optional Zod.string
      <*> "imageData" ::: Zod.optional Zod.string
      <*> "count" ::: Zod.default (Js.VNum 3) (Zod.max 5 (Zod.min 1 Zod.number))
      <*> "variationStrength" ::: Zod.default (Js.VStr "moderate")
            (Zod.enum VariationStrength_name [subtle; moderate; strong])
      <*> "outputDir" ::: Zod.optional Zod.string
      <*> "config" ::: Zod.optional GenerationConfigSchema)).

Inductive Template : Type :=
| photorealistic | artistic | logo | portrait | landscape
| product | architectural | fashion | food | abstract.

Definition Template_name (t : Template) : string :=
  match t with
  | photorealistic => "photorealistic"
  | artistic => "artistic"
  | logo => "logo"
  | portrait => "portrait"
  | landscape => "landscape"
  | product => "product"
  | architectural => "architectural"
  | fashion => "fashion"
  | food => "food"
  | abstract => "abstract"
  end.

Module PromptTemplateArgs.
Record t : Type := Build {
  template : Template;
  customization : string;
  outputDir : option string;
  config : option GenerationConfig.t
}.
End PromptTemplateArgs.

Definition PromptTemplateArgsSchema : Zod.schema PromptTemplateArgs.t :=
  Zod.object (Zod.pure PromptTemplateArgs.Build
    <*> "template" ::: Zod.enum Template_name
          [photorealistic; artistic; logo; portrait; landscape;
           product; architectural; fashion; food; abstract]
    <*> "customization" ::: Zod.string
    <*> "outputDir" ::: Zod.optional Zod.string
    <*> "config" ::: Zod.optional GenerationConfigSchema).

(** ** The remote model's request and response *)

Module Gemini.

Record InlineData : Type := { data : string; mimeType : string }.

Inductive Part : Type :=
| TextPart (text : string)
| InlineDataPart (inlineData : InlineData)
| OtherPart.

(** ['inlineData' in part] *)
Definition has_inlineData (p : Part) : bool :=
  match p with InlineDataPart _ => true | _ => false end.

(** [candidates], [content] and [parts] can each be missing from what
    the service answers; [text] is what calling [response.text()] does. *)
Record Content : Type := { parts : option (list Part) }.
Record Candidate : Type := { content : option Content }.
Record Response : Type := {
  candidates : option (list Candidate);
  text : Js.result string
}.

Record GenerationConfig : Type := {
  temperature : option Q;
  topP : option Q;
  topK : option Q;
  maxOutputTokens : option Q;
  responseModalities : option (list string)
}.

(** [{ contents: [{ role: "user", parts }], generationConfig }] *)
Record Request : Type := {
  role : string;
  request_parts : list Part;
  generationConfig : option GenerationConfig
}.

End Gemini.

(** ** Effects

    Every call that leaves the process is an event of the trace, in the
    order the calls are made.  The environment answers each call; it may
    answer the same call differently at different moments, the moment
    being the number of events so far. *)

Inductive Event : Type :=
| EReadFile (path : string)
| EMkdir (dir : string)
| EWriteFile (path data : string) (written : bool)
| EGenerateContent (model : string) (request : Gemini.Request)
| EDate
| EConsoleError (message : string) (error : Js.thrown).

Record Env : Type := {
  (** [fs.readFile(path)], the content already in base64 *)
  env_readFile : nat -> string -> Js.result string;
  (** [fs.mkdir(dir, { recursive: true })] *)
  env_mkdir : nat -> string -> Js.result unit;
  (** [fs.writeFile(path, Buffer.from(data, 'base64'))] *)
  env_writeFile : nat -> string -> string -> Js.result unit;
  (** [genAI.getGenerativeModel({ model }).generateContent(request)] *)
  env_generateContent : nat -> string -> Gemini.Request -> Js.result Gemini.Response;
  (** [new Date().toISOString()] *)
  env_toISOString : nat -> string;
  (** how a number that is not an integer prints *)
  env_fraction_toString : Q -> string;
  (** [ZodError.prototype.message] *)
  env_ZodError_message : list Js.issue -> string;
  (** which of the pending promises settles next *)
  env_settles_next : nat -> nat
}.

Definition M (A : Type) : Type := Env -> list Event -> Js.result A * list Event.

Definition ret {A} (a : A) : M A := fun _ tr => (Js.Ok a, tr).

Definition throw {A} (e : Js.thrown) : M A := fun _ tr => (Js.Throw e, tr).

Definition bind {A B} (m : M A) (f : A -> M B) : M B :=
  fun env tr =>
    match m env tr with
    | (Js.Ok a, tr') => f a env tr'
    | (Js.Throw e, tr') => (Js.Throw e, tr')
    end.

Definition try_catch {A} (m : M A) (handler : Js.thrown -> M A) : M A :=
  fun env tr =>
    match m env tr with
    | (Js.Ok a, tr') => (Js.Ok a, tr')
    | (Js.Throw e, tr') => handler e env tr'
    end.

Definition lift {A} (r : Js.result A) : M A := fun _ tr => (r, tr).

Notation "x <- m ;; k" := (bind m (fun x => k))
  (at level 100, m at next level, right associativity).
Notation "m ;;; k" := (bind m (fun _ => k))
  (at level 100, right associativity).

Definition is_ok {A} (r : Js.result A) : bool :=
  match r with Js.Ok _ => true | Js.Throw _ => false end.

Definition readFile (path : string) : M string :=
  fun env tr => (env_readFile env (List.length tr) path, (tr ++ [EReadFile path])%list).

Definition mkdir (dir : string) : M unit :=
  fun env tr => (env_mkdir env (List.length tr) dir, (tr ++ [EMkdir dir])%list).

Definition writeFile (path data : string) : M unit :=
  fun env tr =>
    let r := env_writeFile env (List.length tr) path data in
    (r, (tr ++ [EWriteFile path data (is_ok r)])%list).

Definition generateContent (model : string) (request : Gemini.Request)
  : M Gemini.Response :=
  fun env tr =>
    (env_generateContent env (List.length tr) model request,
     (tr ++ [EGenerateContent model request])%list).

(** [new Date().toISOString().replace(/[:.]/g, '-')] *)
Definition timestamp_now : M string :=
  fun env tr =>
    (Js.Ok (Js.replace_colon_dot (env_toISOString env (List.length tr))),
     (tr ++ [EDate])%list).

Definition console_error (message : string) (error : Js.thrown) : M unit :=
  fun _ tr => (Js.Ok tt, (tr ++ [EConsoleError message error])%list).

(** [error instanceof Error ? error.message : String(error)] *)
Definition errorMessage (env : Env) (error : Js.thrown) : string :=
  match error with
  | Js.Error message => message
  | Js.ZodError issues => env_ZodError_message env issues
  | Js.NotAnError s => s
  end.

Definition with_env {A} (f : Env -> M A) : M A := fun env tr => f env env tr.

(** [`${n}`] for a number: integers print in decimal. *)
Definition Number_toString (env : Env) (q : Q) : string :=
  let r := Qred q in
  if (Qden r =? 1)%positive then
    if (Qnum r <? 0)%Z
    then "-" ++ Js.nat_toString (Z.to_nat (- Qnum r))
    else Js.nat_toString (Z.to_nat (Qnum r))
  else env_fraction_toString env q.

(** ** What a tool call returns *)

Record TextContent : Type := { type : string; text : string }.

(** [isError] is [None] when the key is absent. *)
Record CallToolResult : Type := {
  content : list TextContent;
  isError : option bool
}.

Definition success (text : string) : CallToolResult :=
  {| content := [{| type := "text"; text := text |}]; isError := None |}.

(** ** Pieces the handlers repeat word for word *)

Definition image_model : string := "gemini-2.5-flash-image-preview".
Definition text_model : string := "gemini-2.5-flash".

Definition user_request (parts : list Gemini.Part)
           (generationConfig : option Gemini.GenerationConfig) : Gemini.Request :=
  {| Gemini.role := "user";
     Gemini.request_parts := parts;
     Gemini.generationConfig := generationConfig |}.

(** [config ? { temperature: config.temperature, ..., responseModalities:
    ["TEXT", "IMAGE"] } : { responseModalities: ["TEXT", "IMAGE"] }] *)
Definition imageGenerationConfig (config : option GenerationConfig.t)
  : Gemini.GenerationConfig :=
  match config with
  | Some c =>
      {| Gemini.temperature := GenerationConfig.temperature c;
         Gemini.topP := GenerationConfig.topP c;
         Gemini.topK := GenerationConfig.topK c;
         Gemini.maxOutputTokens := GenerationConfig.maxOutputTokens c;
         Gemini.responseModalities := Some ["TEXT"; "IMAGE"] |}
  | None =>
      {| Gemini.temperature := None;
         Gemini.topP := None;
         Gemini.topK := None;
         Gemini.maxOutputTokens := None;
         Gemini.responseModalities := Some ["TEXT"; "IMAGE"] |}
  end.

(** The [switch (ext)] of [handleEditImage], [handleAnalyzeImage] and
    [handleMultiImageEdit]. *)
Definition mimeType_of_ext (ext : string) : string :=
  if String.eqb ext ".png" then "image/png"
  else if String.eqb ext ".jpg" then "image/jpeg"
  else if String.eqb ext ".jpeg" then "image/jpeg"
  else if String.eqb ext ".gif" then "image/gif"
  else if String.eqb ext ".webp" then "image/webp"
  else "image/png".

(** [if (imageData) ... else if (imagePath) ... else throw], as those three
    handlers have it; [neither] is what the last branch throws. *)
Definition resolveImage (imageData imagePath : option string) (neither : string)
  : M Gemini.InlineData :=
  if Js.truthy imageData then
    ret {| Gemini.data := match imageData with Some d => d | None => "" end;
           Gemini.mimeType := "image/png" |}
  else if Js.truthy imagePath then
    let path := match imagePath with Some p => p | None => "" end in
    finalImageData <- readFile path ;;
    let ext := Js.toLowerCase (NodePath.extname path) in
    ret {| Gemini.data := finalImageData;
           Gemini.mimeType := mimeType_of_ext ext |}
  else throw (Js.Error neither).

Definition TypeError_parts : Js.thrown :=
  Js.Error "Cannot read properties of undefined (reading 'parts')".

(** The checks of the response that [handleGenerateImage], [handleEditImage],
    [handleMultiImageEdit] and [handleGenerateWithTemplate] make, up to the
    first part with inline data. *)
Definition extractImage (noCandidates : string) (response : Gemini.Response)
  : Js.result Gemini.InlineData :=
  match Gemini.candidates response with
  | None | Some [] => Js.Throw (Js.Error noCandidates)
  | Some (candidate :: _) =>
      match Gemini.content candidate with
      | None => Js.Throw TypeError_parts
      | Some c =>
          match Gemini.parts c with
          | None | Some [] => Js.Throw (Js.Error "No content parts in the response")
          | Some parts =>
              match find Gemini.has_inlineData parts with
              | Some (Gemini.InlineDataPart d) => Js.Ok d
              | _ => Js.Throw (Js.Error "No image data found in the response")
              end
          end
      end
  end.

(** [mimeType === 'image/png' ? '.png' : mimeType === 'image/jpeg' ? '.jpg'
    : '.png'] *)
Definition extension_of_mimeType (mimeType : string) : string :=
  if String.eqb mimeType "image/png" then ".png"
  else if String.eqb mimeType "image/jpeg" then ".jpg"
  else ".png".

(** Timestamp, file name, [path.join], [mkdir], [writeFile]: the file name
    is given as a function of the timestamp. *)
Definition saveImage (outputDir : string) (filename : string -> string)
           (data : string) : M string :=
  timestamp <- timestamp_now ;;
  let filepath := NodePath.join outputDir (filename timestamp) in
  mkdir outputDir ;;;
  writeFile filepath data ;;;
  ret filepath.

Definition or_default (o : option string) (d : string) : string :=
  match o with Some s => s | None => d end.

Definition LF : string := String (ascii_of_nat 10) "".

(** ** The handlers *)

Definition handleGenerateImage (args : Js.value) : M CallToolResult :=
  a <- lift (Zod.parse GenerateImageArgsSchema args) ;;
  let prompt := GenerateImageArgs.prompt a in
  let outputDir := or_default (GenerateImageArgs.outputDir a) "." in
  let generationConfig := imageGenerationConfig (GenerateImageArgs.config a) in
  result <- generateContent image_model
              (user_request [Gemini.TextPart prompt] (Some generationConfig)) ;;
  imagePart <- lift (extractImage "No image was generated" result) ;;
  let extension := extension_of_mimeType (Gemini.mimeType imagePart) in
  filepath <- saveImage outputDir
                (fun timestamp => "generated-image-" ++ timestamp ++ extension)
                (Gemini.data imagePart) ;;
  ret (success ("Image generated successfully and saved to: " ++ filepath)).

Definition handleEditImage (args : Js.value) : M CallToolResult :=
  a <- lift (Zod.parse EditImageArgsSchema args) ;;
  let prompt := EditImageArgs.prompt a in
  let outputDir := or_default (EditImageArgs.outputDir a) "." in
  imagePart <- resolveImage (EditImageArgs.imageData a) (EditImageArgs.imagePath a)
                 "Either imageData or imagePath must be provided" ;;
  let generationConfig := imageGenerationConfig (EditImageArgs.config a) in
  result <- generateContent image_model
              (user_request [Gemini.TextPart prompt; Gemini.InlineDataPart imagePart]
                            (Some generationConfig)) ;;
  outputImagePart <- lift (extractImage "No edited image was generated" result) ;;
  let extension := extension_of_mimeType (Gemini.mimeType outputImagePart) in
  filepath <- saveImage outputDir
                (fun timestamp => "edited-image-" ++ timestamp ++ extension)
                (Gemini.data outputImagePart) ;;
  ret (success ("Image edited successfully and saved to: " ++ filepath)).

(** [handleAnalyzeImage] tests [result.response.text], a method, which is
    always there: its "No response text generated" is never thrown. *)
Definition handleAnalyzeImage (args : Js.value) : M CallToolResult :=
  a <- lift (Zod.parse AnalyzeImageArgsSchema args) ;;
  let prompt := AnalyzeImageArgs.prompt a in
  imagePart <- resolveImage (AnalyzeImageArgs.imageData a) (AnalyzeImageArgs.imagePath a)
                 "Either imageData or imagePath must be provided" ;;
  let generationConfig :=
    match AnalyzeImageArgs.config a with
    | Some c =>
        {| Gemini.temperature := GenerationConfig.temperature c;
           Gemini.topP := GenerationConfig.topP c;
           Gemini.topK := GenerationConfig.topK c;
           Gemini.maxOutputTokens := GenerationConfig.maxOutputTokens c;
           Gemini.responseModalities := None |}
    | None =>
        {| Gemini.temperature := None;
           Gemini.topP := None;
           Gemini.topK := None;
           Gemini.maxOutputTokens := None;
           Gemini.responseModalities := None |}
    end in
  result <- generateContent text_model
              (user_request [Gemini.TextPart prompt; Gemini.InlineDataPart imagePart]
                            (Some generationConfig)) ;;
  answer <- lift (Gemini.text result) ;;
  ret (success answer).

(** The [for] loop of [handleMultiImageEdit] over [images], from index [i]. *)
Fixpoint resolveImages (i : nat) (images : list ImageInput.t) : M (list Gemini.Part) :=
  match images with
  | [] => ret []
  | image :: rest =>
      part <- resolveImage (ImageInput.imageData image) (ImageInput.imagePath image)
                ("Image " ++ Js.nat_toString (i + 1)
                 ++ " must have either imageData or imagePath") ;;
      parts <- resolveImages (S i) rest ;;
      ret (Gemini.InlineDataPart part :: parts)
  end.

Definition handleMultiImageEdit (args : Js.value) : M CallToolResult :=
  a <- lift (Zod.parse MultiImageEditArgsSchema args) ;;
  let prompt := MultiImageEditArgs.prompt a in
  let outputDir := or_default (MultiImageEditArgs.outputDir a) "." in
  imageParts <- resolveImages 0 (MultiImageEditArgs.images a) ;;
  let generationConfig := imageGenerationConfig (MultiImageEditArgs.config a) in
  result <- generateContent image_model
              (user_request (Gemini.TextPart prompt :: imageParts)
                            (Some generationConfig)) ;;
  outputImagePart <- lift (extractImage "No multi-image result was generated" result) ;;
  let extension := extension_of_mimeType (Gemini.mimeType outputImagePart) in
  filepath <- saveImage outputDir
                (fun timestamp => "multi-image-result-" ++ timestamp ++ extension)
                (Gemini.data outputImagePart) ;;
  ret (success ("Multi-image processing completed successfully and saved to: "
                ++ filepath)).

(** *** [batch_generate] *)

Record BatchOutcome : Type := {
  outcome_success : bool;
  outcome_prompt : string;
  outcome_filepath : option string;
  outcome_error : option string
}.

Definition succeeded (prompt filepath : string) : BatchOutcome :=
  {| outcome_success := true; outcome_prompt := prompt;
     outcome_filepath := Some filepath; outcome_error := None |}.

Definition failed (prompt error : string) : BatchOutcome :=
  {| outcome_success := false; outcome_prompt := prompt;
     outcome_filepath := None; outcome_error := Some error |}.

(** [result.response.candidates?.[0]?.content.parts]: [undefined] without a
    first candidate, a [TypeError] when that candidate has no [content]. *)
Definition first_candidate_parts (response : Gemini.Response)
  : Js.result (option (list Gemini.Part)) :=
  match Gemini.candidates response with
  | None | Some [] => Js.Ok None
  | Some (candidate :: _) =>
      match Gemini.content candidate with
      | None => Js.Throw TypeError_parts
      | Some c => Js.Ok (Gemini.parts c)
      end
  end.

(** The first part with inline data, when [parts] is there and has one. *)
Definition find_image (parts : option (list Gemini.Part)) : option Gemini.InlineData :=
  match parts with
  | Some ps =>
      match find Gemini.has_inlineData ps with
      | Some (Gemini.InlineDataPart d) => Some d
      | _ => None
      end
  | None => None
  end.

Definition batch_request (config : option GenerationConfig.t) (prompt : string)
  : Gemini.Request :=
  user_request [Gemini.TextPart prompt] (Some (imageGenerationConfig config)).

Definition batch_filename (index : nat) (timestamp : string) : string :=
  "batch-" ++ Js.nat_toString (index + 1) ++ "-" ++ timestamp ++ ".png".

(** One turn of the sequential loop: the [try] pushes an outcome when
    [parts] is there (a success, or "No image generated") and nothing when
    it is not; the [catch] pushes the failure. *)
Definition batch_sequential_step (outputDir : string)
           (config : option GenerationConfig.t)
           (i : nat) (prompt : string) (results : list BatchOutcome)
  : M (list BatchOutcome) :=
  try_catch
    (result <- generateContent image_model (batch_request config prompt) ;;
     parts <- lift (first_candidate_parts result) ;;
     match parts with
     | Some ps =>
         match find_image (Some ps) with
         | Some imagePart =>
             filepath <- saveImage outputDir (batch_filename i)
                           (Gemini.data imagePart) ;;
             ret (results ++ [succeeded prompt filepath])%list
         | None => ret (results ++ [failed prompt "No image generated"])%list
         end
     | None => ret results
     end)
    (fun error =>
       with_env (fun env =>
         ret (results ++ [failed prompt (errorMessage env error)])%list)).

Fixpoint batch_sequential (outputDir : string) (config : option GenerationConfig.t)
         (i : nat) (prompts : list string) (results : list BatchOutcome)
  : M (list BatchOutcome) :=
  match prompts with
  | [] => ret results
  | prompt :: rest =>
      results' <- batch_sequential_step outputDir config i prompt results ;;
      batch_sequential outputDir config (S i) rest results'
  end.

(** In parallel mode [prompts.map] starts every task in turn: each runs up
    to its [await], which sends the request.  The answers then arrive in
    an order the environment chooses, and a task resumes from its answer. *)
Record Pending : Type := {
  pending_index : nat;
  pending_prompt : string;
  pending_result : Js.result Gemini.Response
}.

Definition attempt {A} (m : M A) : M (Js.result A) :=
  fun env tr => let (r, tr') := m env tr in (Js.Ok r, tr').

Fixpoint batch_start (config : option GenerationConfig.t)
         (index : nat) (prompts : list string) : M (list Pending) :=
  match prompts with
  | [] => ret []
  | prompt :: rest =>
      r <- attempt (generateContent image_model (batch_request config prompt)) ;;
      tasks <- batch_start config (S index) rest ;;
      ret ({| pending_index := index; pending_prompt := prompt;
              pending_result := r |} :: tasks)
  end.

(** A task from its answer on; it is run in one piece. *)
Definition batch_resume (outputDir : string) (task : Pending) : M BatchOutcome :=
  let prompt := pending_prompt task in
  try_catch
    (result <- lift (pending_result task) ;;
     parts <- lift (first_candidate_parts result) ;;
     match find_image parts with
     | Some imagePart =>
         filepath <- saveImage outputDir (batch_filename (pending_index task))
                       (Gemini.data imagePart) ;;
         ret (succeeded prompt filepath)
     | None => ret (failed prompt "No image generated")
     end)
    (fun error =>
       with_env (fun env => ret (failed prompt (errorMessage env error)))).

Fixpoint remove_nth {A} (k : nat) (l : list A) : list A :=
  match l, k with
  | [], _ => []
  | _ :: r, O => r
  | x :: r, S k' => x :: remove_nth k' r
  end.

(** [Promise.all] keeps each value at the index of its promise. *)
Fixpoint place {A} (x : nat * A) (l : list (nat * A)) : list (nat * A) :=
  match l with
  | [] => [x]
  | y :: r => if (fst x <? fst y)%nat then x :: l else y :: place x r
  end.

Definition settles_next (n : nat) : M nat :=
  fun env tr => (Js.Ok (env_settles_next env (List.length tr) mod n)%nat, tr).

Fixpoint batch_settle (outputDir : string) (n : nat) (pending : list Pending)
         (settled : list (nat * BatchOutcome)) : M (list (nat * BatchOutcome)) :=
  match n, pending with
  | S n', first :: _ =>
      k <- settles_next (List.length pending) ;;
      let task := nth k pending first in
      outcome <- batch_resume outputDir task ;;
      batch_settle outputDir n' (remove_nth k pending)
                   (place (pending_index task, outcome) settled)
  | _, _ => ret settled
  end.

Definition batch_parallel (outputDir : string) (config : option GenerationConfig.t)
           (prompts : list string) : M (list BatchOutcome) :=
  pending <- batch_start config 0 prompts ;;
  settled <- batch_settle outputDir (List.length pending) pending [] ;;
  ret (map snd settled).

Definition batch_results (a : BatchGenerateArgs.t) : M (list BatchOutcome) :=
  let outputDir := or_default (BatchGenerateArgs.outputDir a) "." in
  let config := BatchGenerateArgs.config a in
  let parallel :=
    match BatchGenerateArgs.parallel a with Some b => b | None => false end in
  if parallel
  then batch_parallel outputDir config (BatchGenerateArgs.prompts a)
  else batch_sequential outputDir config 0 (BatchGenerateArgs.prompts a) [].

Definition batch_line (r : BatchOutcome) : string :=
  if outcome_success r
  then "✓ " ++ or_default (outcome_filepath r) "undefined"
  else "✗ " ++ outcome_prompt r ++ ": " ++ or_default (outcome_error r) "undefined".

Definition batch_text (results : list BatchOutcome) : string :=
  let successful := List.length (filter outcome_success results) in
  let failed := List.length (filter (fun r => negb (outcome_success r)) results) in
  "Batch generation completed: " ++ Js.nat_toString successful ++ " successful, "
  ++ Js.nat_toString failed ++ " failed" ++ LF
  ++ Js.join LF (map batch_line results).

Definition handleBatchGenerate (args : Js.value) : M CallToolResult :=
  a <- lift (Zod.parse BatchGenerateArgsSchema args) ;;
  results <- batch_results a ;;
  ret (success (batch_text results)).

(** *** [generate_variations] *)

Definition variationPrompts (s : VariationStrength) : string :=
  match s with
  | subtle => "Create a very similar variation of this image with minimal changes, keeping the same style and composition"
  | moderate => "Create a variation of this image with moderate changes while maintaining the core concept and style"
  | strong => "Create a significantly different variation of this image, exploring new interpretations while keeping the main subject"
  end.

(** [variationStrength === "subtle" ? 0.3 : variationStrength === "moderate"
    ? 0.7 : 1.2] *)
Definition strength_temperature (s : VariationStrength) : Q :=
  match s with
  | subtle => 3 # 10
  | moderate => 7 # 10
  | strong => 12 # 10
  end.

Definition variationsGenerationConfig (config : option GenerationConfig.t)
           (variationStrength : VariationStrength) : Gemini.GenerationConfig :=
  match config with
  | Some c =>
      {| Gemini.temperature :=
           Some match GenerationConfig.temperature c with
                | Some t => t
                | None => strength_temperature variationStrength
                end;
         Gemini.topP := GenerationConfig.topP c;
         Gemini.topK := GenerationConfig.topK c;
         Gemini.maxOutputTokens := GenerationConfig.maxOutputTokens c;
         Gemini.responseModalities := Some ["TEXT"; "IMAGE"] |}
  | None =>
      {| Gemini.temperature := Some (strength_temperature variationStrength);
         Gemini.topP := None;
         Gemini.topK := None;
         Gemini.maxOutputTokens := None;
         Gemini.responseModalities := Some ["TEXT"; "IMAGE"] |}
  end.

(** The base image of [handleGenerateVariations], with its own test of the
    extension. *)
Definition variations_baseImage (imageData imagePath : option string)
  : M Gemini.InlineData :=
  if Js.truthy imageData then
    ret {| Gemini.data := match imageData with Some d => d | None => "" end;
           Gemini.mimeType := "image/png" |}
  else if Js.truthy imagePath then
    let path := match imagePath with Some p => p | None => "" end in
    finalImageData <- readFile path ;;
    let ext := Js.toLowerCase (NodePath.extname path) in
    ret {| Gemini.data := finalImageData;
           Gemini.mimeType :=
             if String.eqb ext ".jpg" || String.eqb ext ".jpeg"
             then "image/jpeg" else "image/png" |}
  else throw (Js.Error "Either imageData or imagePath must be provided").

Definition Qlt_bool (a b : Q) : bool := negb (Qle_bool b a).

(** [for (let i = ...; i < count; i++) body], the array the body pushes to
    being passed along.  [fuel] bounds the number of turns. *)
Fixpoint for_lt {S : Type} (fuel : nat) (i : nat) (count : Q)
         (body : nat -> S -> M S) (s : S) : M S :=
  match fuel with
  | O => ret s
  | Datatypes.S fuel' =>
      if Qlt_bool (inject_Z (Z.of_nat i)) count then
        s' <- body i s ;;
        for_lt fuel' (Datatypes.S i) count body s'
      else ret s
  end.

(** No more turns than this are ever needed from [i = 0]. *)
Definition turns (count : Q) : nat := Z.to_nat (Qceiling count).

Definition variation_filename (i : nat) (timestamp : string) : string :=
  "variation-" ++ Js.nat_toString (i + 1) ++ "-" ++ timestamp ++ ".png".

Definition variation_request (env : Env) (basePrompt : string) (i : nat) (count : Q)
           (imagePart : Gemini.InlineData)
           (generationConfig : Gemini.GenerationConfig) : Gemini.Request :=
  user_request
    [Gemini.TextPart (basePrompt ++ " (variation " ++ Js.nat_toString (i + 1)
                      ++ " of " ++ Number_toString env count ++ ")");
     Gemini.InlineDataPart imagePart]
    (Some generationConfig).

(** One turn of the loop: the path is pushed when a file was written;
    whatever is thrown is logged and the turn ends. *)
Definition variation_step (outputDir basePrompt : string) (count : Q)
           (imagePart : Gemini.InlineData)
           (generationConfig : Gemini.GenerationConfig)
           (i : nat) (results : list string) : M (list string) :=
  try_catch
    (result <- with_env (fun env =>
                 generateContent image_model
                   (variation_request env basePrompt i count imagePart
                                      generationConfig)) ;;
     parts <- lift (first_candidate_parts result) ;;
     match find_image parts with
     | Some outputImagePart =>
         filepath <- saveImage outputDir (variation_filename i)
                       (Gemini.data outputImagePart) ;;
         ret (results ++ [filepath])%list
     | None => ret results
     end)
    (fun error =>
       console_error ("Failed to generate variation " ++ Js.nat_toString (i + 1) ++ ":")
                     error ;;;
       ret results).

Definition variations_text (results : list string) : string :=
  "Generated " ++ Js.nat_toString (List.length results) ++ " variations:" ++ LF
  ++ Js.join LF (map (fun f => "- " ++ f) results).

Definition variations_results (a : GenerateVariationsArgs.t) : M (list string) :=
  let count := GenerateVariationsArgs.count a in
  let variationStrength := GenerateVariationsArgs.variationStrength a in
  let outputDir := or_default (GenerateVariationsArgs.outputDir a) "." in
  imagePart <- variations_baseImage (GenerateVariationsArgs.imageData a)
                                    (GenerateVariationsArgs.imagePath a) ;;
  let basePrompt := variationPrompts variationStrength in
  let generationConfig :=
    variationsGenerationConfig (GenerateVariationsArgs.config a) variationStrength in
  for_lt (turns count) 0 count
         (variation_step outputDir basePrompt count imagePart generationConfig) [].

Definition handleGenerateVariations (args : Js.value) : M CallToolResult :=
  a <- lift (Zod.parse GenerateVariationsArgsSchema args) ;;
  results <- variations_results a ;;
  ret (success (variations_text results)).

(** *** [generate_with_template] *)

Definition promptTemplates (t : Template) : string :=
  match t with
  | photorealistic => "Ultra-realistic photograph, professional photography, highly detailed, sharp focus, natural lighting, 8K resolution, shot with DSLR camera"
  | artistic => "Artistic interpretation, creative style, expressive brushstrokes, vibrant colors, artistic composition, gallery-worthy artwork"
  | logo => "Minimalist logo design, clean vector graphics, scalable, professional branding, modern design, simple geometric shapes, memorable icon"
  | portrait => "Professional portrait photography, well-lit, shallow depth of field, bokeh background, natural skin tones, expressive eyes, studio lighting"
  | landscape => "Breathtaking landscape photography, golden hour lighting, wide angle shot, dramatic sky, natural scenery, high dynamic range"
  | product => "Product photography, white background, studio lighting, clean composition, commercial quality, detailed texture, professional presentation"
  | architectural => "Architectural photography, precise lines, dramatic perspective, professional composition, detailed structure, impressive scale"
  | fashion => "Fashion photography, editorial style, high-end fashion, professional model pose, stylish composition, magazine quality"
  | food => "Food photography, appetizing presentation, professional styling, natural lighting, shallow depth of field, culinary art"
  | abstract => "Abstract art, non-representational, creative composition, bold colors or monochrome, experimental style, artistic expression"
  end.

Definition handleGenerateWithTemplate (args : Js.value) : M CallToolResult :=
  a <- lift (Zod.parse PromptTemplateArgsSchema args) ;;
  let template := PromptTemplateArgs.template a in
  let outputDir := or_default (PromptTemplateArgs.outputDir a) "." in
  let fullPrompt :=
    promptTemplates template ++ ". " ++ PromptTemplateArgs.customization a in
  let generationConfig := imageGenerationConfig (PromptTemplateArgs.config a) in
  result <- generateContent image_model
              (user_request [Gemini.TextPart fullPrompt] (Some generationConfig)) ;;
  imagePart <- lift (extractImage "No image was generated" result) ;;
  filepath <- saveImage outputDir
                (fun timestamp => Template_name template ++ "-" ++ timestamp ++ ".png")
                (Gemini.data imagePart) ;;
  ret (success ("Generated " ++ Template_name template ++ " style image: " ++ filepath
                ++ LF ++ "Prompt used: " ++ fullPrompt)).

(** *** [compare_images] *)

Definition comparePrompt (c : CompareType) : string :=
  match c with
  | differences => "Compare these two images and describe all the differences between them in detail."
  | similarities => "Compare these two images and describe all the similarities between them in detail."
  | both => "Compare these two images. First, describe their similarities, then describe their differences. Be thorough and detailed."
  end.

Definition handleCompareImages (args : Js.value) : M CallToolResult :=
  a <- lift (Zod.parse CompareImagesArgsSchema args) ;;
  let compareType :=
    match CompareImagesArgs.compareType a with Some c => c | None => both end in
  image1 <- readFile (CompareImagesArgs.image1Path a) ;;
  image2 <- readFile (CompareImagesArgs.image2Path a) ;;
  let image1Part := {| Gemini.data := image1; Gemini.mimeType := "image/png" |} in
  let image2Part := {| Gemini.data := image2; Gemini.mimeType := "image/png" |} in
  result <- generateContent text_model
              (user_request [Gemini.TextPart (comparePrompt compareType);
                             Gemini.InlineDataPart image1Part;
                             Gemini.InlineDataPart image2Part]
                            None) ;;
  answer <- lift (Gemini.text result) ;;
  ret (success ("Image Comparison (" ++ CompareType_name compareType ++ "):"
                ++ LF ++ LF ++ answer)).

(** ** The dispatcher: the [CallToolRequestSchema] handler *)

Definition tool_names : list string :=
  ["generate_image"; "edit_image"; "analyze_image"; "multi_image_edit";
   "batch_generate"; "generate_variations"; "generate_with_template";
   "compare_images"].

Definition dispatch (name : string) (args : Js.value) : M CallToolResult :=
  if String.eqb name "generate_image" then handleGenerateImage args
  else if String.eqb name "edit_image" then handleEditImage args
  else if String.eqb name "analyze_image" then handleAnalyzeImage args
  else if String.eqb name "multi_image_edit" then handleMultiImageEdit args
  else if String.eqb name "batch_generate" then handleBatchGenerate args
  else if String.eqb name "generate_variations" then handleGenerateVariations args
  else if String.eqb name "generate_with_template" then handleGenerateWithTemplate args
  else if String.eqb name "compare_images" then handleCompareImages args
  else throw (Js.Error ("Unknown tool: " ++ name)).

Definition error_result (env : Env) (error : Js.thrown) : CallToolResult :=
  {| content := [{| type := "text"; text := "Error: " ++ errorMessage env error |}];
     isError := Some true |}.

Definition CallTool (name : string) (args : Js.value) : M CallToolResult :=
  try_catch (dispatch name args)
            (fun error => with_env (fun env => ret (error_result env error))).

(** A call as the transport sees it, from an empty trace. *)
Definition run {A} (m : M A) (env : Env) : Js.result A * list Event := m env [].

(** ** The tools as [ListTools] advertises them: the [required] list of
    each [inputSchema]. *)
Definition inputSchema_required (name : string) : list string :=
  if String.eqb name "generate_image" then ["prompt"]
  else if String.eqb name "edit_image" then ["prompt"]
  else if String.eqb name "analyze_image" then ["prompt"]
  else if String.eqb name "multi_image_edit" then ["prompt"; "images"]
  else if String.eqb name "batch_generate" then ["prompts"]
  else if String.eqb name "generate_variations" then []
  else if String.eqb name "generate_with_template" then ["template"; "customization"]
  else if String.eqb name "compare_images" then ["image1Path"; "image2Path"]
  else [].

(** ** The [ListToolsRequestSchema] handler

    What the server advertises: the eight tools, each with its name, its
    description and the JSON schema of its arguments, as the handler
    returns them. *)

Module ListTools.
Import Js.

Definition string_property (description : string) : value :=
  VObj [("type", VStr "string"); ("description", VStr description)].

Definition object_property (description : string) : value :=
  VObj [("type", VStr "object"); ("description", VStr description)].

Definition strings (l : list string) : value := VArr (map VStr l).

Definition tool (name description : string)
           (properties : list (string * value)) (required : list string) : value :=
  VObj [("name", VStr name);
        ("description", VStr description);
        ("inputSchema",
         VObj [("type", VStr "object");
               ("properties", VObj properties);
               ("required", strings required)])].

Definition tools : list value :=
  [ tool "generate_image"
      "Generate an image using Gemini 2.5 Flash Image Preview (nano-banana)"
      [("prompt", string_property "The text prompt describing the image to generate");
       ("outputDir", string_property "Directory to save the generated image (optional, defaults to current directory)")]
      ["prompt"];
    tool "edit_image"
      "Edit an existing image using Gemini 2.5 Flash Image Preview"
      [("prompt", string_property "The text prompt describing how to edit the image");
       ("imageData", string_property "Base64 encoded image data to edit (optional if imagePath is provided)");
       ("imagePath", string_property "Path to the image file to edit (optional if imageData is provided)");
       ("outputDir", string_property "Directory to save the edited image (optional, defaults to current directory)")]
      ["prompt"];
    tool "analyze_image"
      "Analyze an image and answer questions about it using Gemini"
      [("prompt", string_property "Question or instruction about the image");
       ("imageData", string_property "Base64 encoded image data to analyze (optional if imagePath is provided)");
       ("imagePath", string_property "Path to the image file to analyze (optional if imageData is provided)")]
      ["prompt"];
    tool "multi_image_edit"
      "Edit or combine multiple images using Gemini 2.5 Flash Image Preview (e.g., transfer pose, style, combine elements)"
      [("prompt", string_property "The text prompt describing how to combine or edit the images");
       ("images",
        VObj [("type", VStr "array");
              ("description", VStr "Array of images to process");
              ("items",
               VObj [("type", VStr "object");
                     ("properties",
                      VObj [("imageData", string_property "Base64 encoded image data (optional if imagePath is provided)");
                            ("imagePath", string_property "Path to the image file (optional if imageData is provided)");
                            ("description", string_property "Optional description of this image's role (e.g., 'reference pose', 'target person')")])]);
              ("minItems", VNum 1)]);
       ("outputDir", string_property "Directory to save the result (optional, defaults to current directory)")]
      ["prompt"; "images"];
    tool "batch_generate"
      "Generate multiple images from an array of prompts"
      [("prompts",
        VObj [("type", VStr "array");
              ("description", VStr "Array of prompts to generate images for");
              ("items", VObj [("type", VStr "string")]);
              ("minItems", VNum 1)]);
       ("outputDir", string_property "Directory to save the generated images");
       ("config", object_property "Advanced generation configuration");
       ("parallel",
        VObj [("type", VStr "boolean");
              ("description", VStr "Process prompts in parallel (default: false)")])]
      ["prompts"];
    tool "generate_variations"
      "Generate variations of an existing image"
      [("imagePath", string_property "Path to the reference image");
       ("imageData", string_property "Base64 encoded reference image");
       ("count",
        VObj [("type", VStr "number");
              ("description", VStr "Number of variations to generate (1-5)");
              ("minimum", VNum 1);
              ("maximum", VNum 5);
              ("default", VNum 3)]);
       ("variationStrength",
        VObj [("type", VStr "string");
              ("enum", strings ["subtle"; "moderate"; "strong"]);
              ("description", VStr "How different the variations should be");
              ("default", VStr "moderate")]);
       ("outputDir", string_property "Directory to save the variations");
       ("config", object_property "Advanced generation configuration")]
      [];
    tool "generate_with_template"
      "Generate an image using a pre-defined style template"
      [("template",
        VObj [("type", VStr "string");
              ("enum", strings ["photorealistic"; "artistic"; "logo"; "portrait";
                                "landscape"; "product"; "architectural"; "fashion";
                                "food"; "abstract"]);
              ("description", VStr "Pre-defined prompt template")]);
       ("customization", string_property "Your specific requirements to customize the template");
       ("outputDir", string_property "Directory to save the generated image");
       ("config", object_property "Advanced generation configuration")]
      ["template"; "customization"];
    tool "compare_images"
      "Compare two images and analyze their differences or similarities"
      [("image1Path", string_property "Path to the first image");
       ("image2Path", string_property "Path to the second image");
       ("compareType",
        VObj [("type", VStr "string");
              ("enum", strings ["differences"; "similarities"; "both"]);
              ("description", VStr "Type of comparison");
              ("default", VStr "both")])]
      ["image1Path"; "image2Path"] ].

(** [{ tools: [...] }] *)
Definition handler : value := VObj [("tools", VArr tools)].

(** The strings of an array of strings. *)
Fixpoint strings_of (l : list value) : list string :=
  match l with
  | [] => []
  | VStr s :: r => s :: strings_of r
  | _ :: r => strings_of r
  end.

Definition name_of (t : value) : string :=
  match field "name" t with VStr s => s | _ => "" end.

Definition required_of (t : value) : list string :=
  match field "required" (field "inputSchema" t) with
  | VArr l => strings_of l
  | _ => []
  end.

(** The names of the properties a tool advertises. *)
Definition properties_of (t : value) : list string :=
  match field "properties" (field "inputSchema" t) with
  | VObj fields => map fst fields
  | _ => []
  end.

(** The properties a tool advertises with an [enum], each with its
    values. *)
Definition enums_of (t : value) : list (string * list string) :=
  match field "properties" (field "inputSchema" t) with
  | VObj fields =>
      flat_map (fun property =>
                  match field "enum" (snd property) with
                  | VArr l => [(fst property, strings_of l)]
                  | _ => []
                  end)
               fields
  | _ => []
  end.

End ListTools.

(** ** Concrete environments, to run the handlers on *)

Module Demo.

Definition image_response (mimeType data : string) : Gemini.Response :=
  {| Gemini.candidates :=
       Some [{| Gemini.content :=
                  Some {| Gemini.parts :=
                            Some [Gemini.TextPart "Here is your image.";
                                  Gemini.InlineDataPart
                                    {| Gemini.data := data;
                                       Gemini.mimeType := mimeType |}] |} |}];
     Gemini.text := Js.Ok "Here is your image." |}.

(** An answer without candidates, as a blocked prompt gets. *)
Definition no_candidates : Gemini.Response :=
  {| Gemini.candidates := None; Gemini.text := Js.Ok "" |}.

Definition prompt_of (request : Gemini.Request) : string :=
  match Gemini.request_parts request with
  | Gemini.TextPart t :: _ => t
  | _ => ""
  end.

Definition issue_message (i : Js.issue) : string :=
  match Js.code i with
  | Js.invalid_type => "Invalid input"
  | Js.too_small => "Too small"
  | Js.too_big => "Too big"
  | Js.invalid_enum_value => "Invalid enum value"
  | Js.custom message => message
  end.

(** A filesystem that has every file and accepts every write, a clock
    stopped at one instant, promises settling in the order they were
    made, and the given model.  No count with a fraction is printed in the
    examples. *)
Definition env_with
           (model : nat -> string -> Gemini.Request -> Js.result Gemini.Response)
  : Env :=
  {| env_readFile := fun _ path => Js.Ok ("base64(" ++ path ++ ")");
     env_mkdir := fun _ _ => Js.Ok tt;
     env_writeFile := fun _ _ _ => Js.Ok tt;
     env_generateContent := model;
     env_toISOString := fun _ => "2025-01-02T03:04:05.678Z";
     env_fraction_toString := fun _ => "NaN";
     env_ZodError_message := fun issues => Js.join "; " (map issue_message issues);
     env_settles_next := fun _ => O |}.

(** The model answers every prompt with a PNG. *)
Definition png_env : Env :=
  env_with (fun _ _ _ => Js.Ok (image_response "image/png" "iVBORw0KGgo=")).

(** The model answers every prompt with a JPEG. *)
Definition jpeg_env : Env :=
  env_with (fun _ _ _ => Js.Ok (image_response "image/jpeg" "/9j/4AAQ")).

(** The model answers prompt "B" with no candidates and the others with
    a PNG. *)
Definition blocked_B_env : Env :=
  env_with (fun _ _ request =>
              if String.eqb (prompt_of request) "B"
              then Js.Ok no_candidates
              else Js.Ok (image_response "image/png" "iVBORw0KGgo=")).

(** The model throws on the request for the second variation. *)
Definition second_variation_throws_env : Env :=
  env_with (fun _ _ request =>
              if String.eqb
                   (prompt_of request)
                   (variationPrompts moderate ++ " (variation 2 of 3)")
              then Js.Throw (Js.Error "503 Service Unavailable")
              else Js.Ok (image_response "image/png" "iVBORw0KGgo=")).

(** The same, the answers arriving last request first. *)
Definition blocked_B_last_first_env : Env :=
  {| env_readFile := env_readFile blocked_B_env;
     env_mkdir := env_mkdir blocked_B_env;
     env_writeFile := env_writeFile blocked_B_env;
     env_generateContent := env_generateContent blocked_B_env;
     env_toISOString := env_toISOString blocked_B_env;
     env_fraction_toString := env_fraction_toString blocked_B_env;
     env_ZodError_message := env_ZodError_message blocked_B_env;
     env_settles_next := fun _ => 2%nat |}.

End Demo.

(** * Properties *)

(** ** Vocabulary of the statements *)

Module Props.
Import Js Zod.

(** A parse is clean when it found no issue. *)
Definition clean {A} (r : parsed A) : Prop := parsed_issues r = [].

(** A schema is sound when a clean parse has a value: then [parse]
    succeeds exactly on the clean parses. *)
Definition sound {A} (s : schema A) : Prop :=
  forall p v, clean (s p v) -> parsed_value (s p v) <> None.

Definition shape_sound {A} (sh : shape A) : Prop :=
  forall p fs, clean (sh p fs) -> parsed_value (sh p fs) <> None.

Definition accepts {A} (s : schema A) (v : value) : Prop :=
  exists a, parse s v = Ok a.

Definition is_object (v : value) : Prop := exists fs, v = VObj fs.

(** A number, when present, within [lo, hi]. *)
Definition in_range (lo hi : Q) (v : value) : Prop :=
  v = VUndefined \/ exists q, v = VNum q /\ (lo <= q)%Q /\ (q <= hi)%Q.

(** A number, when present. *)
Definition any_number (v : value) : Prop :=
  v = VUndefined \/ exists q, v = VNum q.

(** A positive integer, when present. *)
Definition positive_integer (v : value) : Prop :=
  v = VUndefined
  \/ exists q, v = VNum q /\ (0 < q)%Q /\ exists z : Z, (q == inject_Z z)%Q.

(** The ranges of a generation config, [maxOutputTokens] being held to
    [tokens_ok]. *)
Definition config_ranges (tokens_ok : value -> Prop) (v : value) : Prop :=
  in_range 0 2 (field "temperature" v)
  /\ in_range 0 1 (field "topP" v)
  /\ in_range 1 40 (field "topK" v)
  /\ tokens_ok (field "maxOutputTokens" v).

(** A call, or an element of [images], that supplies neither
    [imageData] nor [imagePath]. *)
Definition supplies_neither (v : value) : Prop :=
  field "imageData" v = VUndefined /\ field "imagePath" v = VUndefined.

(** The calls of the tools that take an image which come without one. *)
Definition lacks_image (name : String.string) (args : value) : Prop :=
  (In name ["edit_image"; "analyze_image"; "generate_variations"]
   /\ supplies_neither args)
  \/ (name = "multi_image_edit"
      /\ exists l e, field "images" args = VArr l /\ In e l /\ supplies_neither e)
  \/ (name = "compare_images"
      /\ (field "image1Path" args = VUndefined
          \/ field "image2Path" args = VUndefined)).

(** The paths of the files a trace has written. *)
Fixpoint written (tr : list Event) : list String.string :=
  match tr with
  | [] => []
  | EWriteFile path _ true :: r => path :: written r
  | _ :: r => written r
  end.

(** The requests a trace has sent to the model. *)
Fixpoint requests (tr : list Event) : list (String.string * Gemini.Request) :=
  match tr with
  | [] => []
  | EGenerateContent model request :: r => (model, request) :: requests r
  | _ :: r => requests r
  end.

(** [spec env m Q E]: run from any trace, [m] only adds events to it;
    when it returns [a] the added events satisfy [Q a], and when it
    throws [e] they satisfy [E e]. *)
Definition spec {A} (env : Env) (m : M A)
           (Q : A -> list Event -> Prop) (E : thrown -> list Event -> Prop) : Prop :=
  forall tr,
    exists new,
      snd (m env tr) = (tr ++ new)%list
      /\ match fst (m env tr) with
         | Ok a => Q a new
         | Throw e => E e new
         end.

(** A tool call reports its files when it answers one text block that
    includes the path of every file it wrote. *)
Definition reports_files (result : CallToolResult) (new : list Event) : Prop :=
  exists text,
    result = success text
    /\ forall path, In path (written new) -> includes text path.

(** An outcome of the batch lists [path] when it is a success with that
    file path. *)
Definition listed (results : list BatchOutcome) (path : String.string) : Prop :=
  exists r, In r results
            /\ outcome_success r = true /\ outcome_filepath r = Some path.

(** Events that write no file and send no request. *)
Definition quiet (new : list Event) : Prop :=
  written new = [] /\ requests new = [].

(** The request for variation number [i + 1] of a call, as the loop of
    [handleGenerateVariations] builds it. *)
Definition variation_request_of (env : Env) (a : GenerateVariationsArgs.t)
           (imagePart : Gemini.InlineData) (i : nat)
  : String.string * Gemini.Request :=
  (image_model,
   variation_request env
     (variationPrompts (GenerateVariationsArgs.variationStrength a))
     i (GenerateVariationsArgs.count a) imagePart
     (variationsGenerationConfig (GenerateVariationsArgs.config a)
                                 (GenerateVariationsArgs.variationStrength a))).

(** The temperature the caller's config holds, if any: in the validated
    arguments, and in the arguments as they came. *)
Definition config_temperature (a : GenerateVariationsArgs.t) : option Q :=
  match GenerateVariationsArgs.config a with
  | Some c => GenerationConfig.temperature c
  | None => None
  end.

Definition caller_temperature (args : value) : option Q :=
  match field "temperature" (field "config" args) with
  | VNum q => Some q
  | _ => None
  end.

(** The temperature of a request sent out. *)
Definition sent_temperature (request : Gemini.Request) : option Q :=
  match Gemini.generationConfig request with
  | Some c => Gemini.temperature c
  | None => None
  end.

Definition prompts_ABC : value :=
  VObj [("prompts", VArr [VStr "A"; VStr "B"; VStr "C"])].

Definition prompts_ABC_parallel : value :=
  VObj [("prompts", VArr [VStr "A"; VStr "B"; VStr "C"]);
        ("parallel", VBool true)].

(** The outcomes of a call of [batch_generate], before they are put into
    the text. *)
Definition batch_outcomes (args : value) (env : Env) : result (list BatchOutcome) :=
  fst (run (a <- lift (parse BatchGenerateArgsSchema args) ;; batch_results a) env).

(** The type an image read from [path] is declared with, in the request
    a call sends: the [mimeType] of the first inline part. *)
Definition declared_mimeType (trace : list Event) : option String.string :=
  match requests trace with
  | (_, request) :: _ =>
      match Gemini.request_parts request with
      | _ :: Gemini.InlineDataPart d :: _ => Some (Gemini.mimeType d)
      | _ => None
      end
  | [] => None
  end.

(** The model answers some request without a first candidate, or with one
    that has no [parts]. *)
Definition answers_without_parts (env : Env) : Prop :=
  exists t model request response,
    env_generateContent env t model request = Ok response
    /\ first_candidate_parts response = Ok None.

(** [path] names a file saved after the type of the image in an answer of
    the model: [outputDir], then [stem], a timestamp and the extension
    for that type. *)
Definition named_after_mimeType (env : Env) (outputDir stem noCandidates : String.string)
           (path : String.string) : Prop :=
  exists t model request response imagePart timestamp,
    env_generateContent env t model request = Ok response
    /\ extractImage noCandidates response = Ok imagePart
    /\ path = NodePath.join outputDir
                (stem ++ timestamp
                 ++ extension_of_mimeType (Gemini.mimeType imagePart)).

(** The events of one attempt: its request first, and then events that
    are not requests. *)
Definition attempt_events (req : String.string * Gemini.Request)
           (events : list Event) : Prop :=
  exists rest,
    events = EGenerateContent (fst req) (snd req) :: rest /\ requests rest = [].

(** What the [catch] of a turn of the loop of variations logs. *)
Definition variation_failure (i : nat) (error : thrown) : Event :=
  EConsoleError ("Failed to generate variation " ++ nat_toString (i + 1) ++ ":")
                error.

(** What follows the answer of attempt [i] when it holds an image with
    [data], the clock being read at instant [t]: the timestamp, the
    directory and the file, named after [i] and the time; when the
    directory or the file fails, the failure is logged. *)
Definition variation_saved (env : Env) (outputDir : String.string) (i : nat)
           (data : String.string) (t : nat) (rest : list Event) : Prop :=
  let filepath :=
    NodePath.join outputDir
      (variation_filename i (replace_colon_dot (env_toISOString env t))) in
  match env_mkdir env (t + 1) outputDir with
  | Throw error => rest = [EDate; EMkdir outputDir; variation_failure i error]
  | Ok _ =>
      match env_writeFile env (t + 2) filepath data with
      | Ok _ => rest = [EDate; EMkdir outputDir; EWriteFile filepath data true]
      | Throw error =>
          rest = [EDate; EMkdir outputDir; EWriteFile filepath data false;
                  variation_failure i error]
      end
  end.

(** The events of attempt [i], whose request [req] is sent at instant
    [t], by what the model answers to it: the request, and then the
    logged failure when the request throws or the answer cannot be read,
    nothing when the answer holds no image, and the saving of the image
    when it holds one. *)
Definition attempt_at (env : Env) (outputDir : String.string) (i : nat)
           (req : String.string * Gemini.Request) (t : nat)
           (events : list Event) : Prop :=
  exists rest,
    events = EGenerateContent (fst req) (snd req) :: rest
    /\ match env_generateContent env t (fst req) (snd req) with
       | Throw error => rest = [variation_failure i error]
       | Ok response =>
           match first_candidate_parts response with
           | Throw error => rest = [variation_failure i error]
           | Ok parts =>
               match find_image parts with
               | None => rest = []
               | Some part =>
                   variation_saved env outputDir i (Gemini.data part) (t + 1) rest
               end
           end
       end.


End Props.

(** ** More vocabulary: what a call touches and what it sends *)

Module Observations.
Import Js Zod Props.

(** The paths a trace has read. *)
Fixpoint reads (tr : list Event) : list String.string :=
  match tr with
  | [] => []
  | EReadFile path :: r => path :: reads r
  | _ :: r => reads r
  end.

(** An event that changes the disk, or tries to. *)
Definition changes_disk (e : Event) : Prop :=
  match e with
  | EMkdir _ | EWriteFile _ _ _ => True
  | _ => False
  end.

Definition reads_disk (e : Event) : Prop :=
  match e with
  | EReadFile _ => True
  | _ => False
  end.

(** [emits P m]: run from any trace, [m] only adds events, and all of
    them satisfy [P], whether it returns or throws. *)
Definition emits (P : Event -> Prop) {A} (m : M A) : Prop :=
  forall env tr,
    exists new, snd (m env tr) = (tr ++ new)%list /\ Forall P new.

(** The schema a tool validates its arguments with accepts [args]. *)
Definition validated (name : String.string) (args : value) : Prop :=
  if String.eqb name "generate_image" then accepts GenerateImageArgsSchema args
  else if String.eqb name "edit_image" then accepts EditImageArgsSchema args
  else if String.eqb name "analyze_image" then accepts AnalyzeImageArgsSchema args
  else if String.eqb name "multi_image_edit" then accepts MultiImageEditArgsSchema args
  else if String.eqb name "batch_generate" then accepts BatchGenerateArgsSchema args
  else if String.eqb name "generate_variations"
  then accepts GenerateVariationsArgsSchema args
  else if String.eqb name "generate_with_template"
  then accepts PromptTemplateArgsSchema args
  else if String.eqb name "compare_images" then accepts CompareImagesArgsSchema args
  else False.

(** The answer to a call whose arguments failed validation, reached
    without any effect. *)
Definition rejected_untouched (env : Env) (name : String.string) (args : value)
  : Prop :=
  exists issues,
    run (CallTool name args) env = (Ok (error_result env (ZodError issues)), []).

(** The number under key [k], if there is one. *)
Definition number_at (k : String.string) (v : value) : option Q :=
  match field k v with
  | VNum q => Some q
  | _ => None
  end.

(** The four sampling fields: of a request, and of the caller's config as
    it came in the arguments. *)
Definition sampling (temperature topP topK maxOutputTokens : option Q)
  : option Q * option Q * option Q * option Q :=
  (temperature, topP, topK, maxOutputTokens).

Definition sent_sampling (request : Gemini.Request)
  : option Q * option Q * option Q * option Q :=
  match Gemini.generationConfig request with
  | Some c => sampling (Gemini.temperature c) (Gemini.topP c) (Gemini.topK c)
                       (Gemini.maxOutputTokens c)
  | None => sampling None None None None
  end.

Definition caller_sampling (args : value)
  : option Q * option Q * option Q * option Q :=
  sampling (number_at "temperature" (field "config" args))
           (number_at "topP" (field "config" args))
           (number_at "topK" (field "config" args))
           (number_at "maxOutputTokens" (field "config" args)).

Definition config_sampling (config : option GenerationConfig.t)
  : option Q * option Q * option Q * option Q :=
  match config with
  | Some c => sampling (GenerationConfig.temperature c) (GenerationConfig.topP c)
                       (GenerationConfig.topK c) (GenerationConfig.maxOutputTokens c)
  | None => sampling None None None None
  end.

(** The response modalities a request asks for. *)
Definition sent_modalities (request : Gemini.Request) : option (list String.string) :=
  match Gemini.generationConfig request with
  | Some c => Gemini.responseModalities c
  | None => None
  end.

(** The tools that answer with text and write no image. *)
Definition text_tool (name : String.string) : bool :=
  String.eqb name "analyze_image" || String.eqb name "compare_images".

(** The tools that answer with an image they save. *)
Definition image_tool (name : String.string) : bool :=
  existsb (String.eqb name)
          ["generate_image"; "edit_image"; "multi_image_edit"; "batch_generate";
           "generate_variations"; "generate_with_template"].

(** A request as a tool of that kind sends it: to the text model without
    modalities, or to the image model asking for text and image; a name
    that is no tool sends no request. *)
Definition request_for (name : String.string) (e : Event) : Prop :=
  match e with
  | EGenerateContent model request =>
      if text_tool name
      then model = text_model /\ sent_modalities request = None
      else if image_tool name
           then model = image_model
                /\ sent_modalities request = Some ["TEXT"; "IMAGE"]
           else False
  | _ => True
  end.

(** A request with the sampling fields [s], or another event. *)
Definition request_sampling (s : option Q * option Q * option Q * option Q)
           (e : Event) : Prop :=
  match e with
  | EGenerateContent _ request => sent_sampling request = s
  | _ => True
  end.

(** An outcome of the batch is a success with a file path and no error,
    or a failure with an error and no file path. *)
Definition outcome_well_formed (r : BatchOutcome) : Prop :=
  (outcome_success r = true
   /\ (exists path, outcome_filepath r = Some path) /\ outcome_error r = None)
  \/ (outcome_success r = false
      /\ outcome_filepath r = None /\ exists error, outcome_error r = Some error).

(** The path [multi_image_edit] has to read for one image: none when the
    image has inline data. *)
Definition path_to_read (image : ImageInput.t) : list String.string :=
  if truthy (ImageInput.imageData image) then []
  else if truthy (ImageInput.imagePath image)
       then [or_default (ImageInput.imagePath image) ""]
       else [].

Definition paths_to_read (images : list ImageInput.t) : list String.string :=
  flat_map path_to_read images.

(** The type an image is declared with by the three handlers that share
    the table. *)
Definition declared_type (image : ImageInput.t) : String.string :=
  if truthy (ImageInput.imageData image) then "image/png"
  else mimeType_of_ext
         (toLowerCase (NodePath.extname (or_default (ImageInput.imagePath image) ""))).

(** [part] is an image of the request that stands for [image] of the
    arguments: it has the type declared for it, and the inline data of
    [image] when there is some. *)
Definition attached (image : ImageInput.t) (part : Gemini.Part) : Prop :=
  exists d,
    part = Gemini.InlineDataPart d
    /\ Gemini.mimeType d = declared_type image
    /\ (truthy (ImageInput.imageData image) = true ->
        ImageInput.imageData image = Some (Gemini.data d)).

(** A string holds character [c]. *)
Fixpoint holds (c : ascii) (s : String.string) : Prop :=
  match s with
  | EmptyString => False
  | String c' r => c' = c \/ holds c r
  end.

(** The number of successes among the outcomes. *)
Definition successes (results : list BatchOutcome) : nat :=
  List.length (filter outcome_success results).

(** Outcomes that account for the events that led to them: they are well
    formed, and there are as many successes as files written. *)
Definition accounted (added : list BatchOutcome) (n : list Event) : Prop :=
  Forall outcome_well_formed added
  /\ successes added = List.length (written n).

(** [adds R m]: run from any trace, [m] only adds events, and what it adds
    satisfies [R], whether it returns or throws. *)
Definition adds (R : list Event -> Prop) {A} (m : M A) : Prop :=
  forall env tr, exists rest, snd (m env tr) = (tr ++ rest)%list /\ R rest.

(** [m] adds nothing but reads of files. *)
Definition only_reads {A} (m : M A) : Prop :=
  forall env tr, exists paths, snd (m env tr) = (tr ++ map EReadFile paths)%list.

(** [m] adds reads of files, and then events that satisfy [R]. *)
Definition reads_then (R : list Event -> Prop) {A} (m : M A) : Prop :=
  forall env tr,
    exists paths rest,
      snd (m env tr) = (tr ++ map EReadFile paths ++ rest)%list /\ R rest.

Definition unread (rest : list Event) : Prop :=
  Forall (fun e => ~ reads_disk e) rest.

(** The events of saving one image: none, or the timestamp and the
    directory, or these and the file. *)
Definition saved (rest : list Event) : Prop :=
  match rest with
  | []
  | [EDate; EMkdir _]
  | [EDate; EMkdir _; EWriteFile _ _ _] => True
  | _ => False
  end.

(** What follows the reads in a call that asks the model once: nothing,
    or the one request and then the events of saving one image. *)
Definition one_shot (rest : list Event) : Prop :=
  match rest with
  | [] => True
  | EGenerateContent _ _ :: rest' => saved rest'
  | _ => False
  end.

(** The events of one request and of saving its image. *)
Definition asked (model : String.string) (request : Gemini.Request)
           (rest : list Event) : Prop :=
  exists rest', rest = EGenerateContent model request :: rest' /\ saved rest'.

(** Inline data as the handlers declare it. *)
Definition inline_png (d : String.string) : Gemini.InlineData :=
  {| Gemini.data := d; Gemini.mimeType := "image/png" |}.

(** A request with the inline data [d] among its parts, or another
    event. *)
Definition carries (d : Gemini.InlineData) (e : Event) : Prop :=
  match e with
  | EGenerateContent _ request =>
      In (Gemini.InlineDataPart d) (Gemini.request_parts request)
  | _ => True
  end.

(** The request [batch_generate] sends for a prompt, as an event. *)
Definition batch_request_event (config : option GenerationConfig.t)
           (prompt : String.string) : Event :=
  EGenerateContent image_model (batch_request config prompt).

(** The trace of a batch handled prompt by prompt: for each prompt in
    turn, its request and then the events of saving its image. *)
Definition rounds (config : option GenerationConfig.t)
           (prompts : list String.string) (tr : list Event) : Prop :=
  exists groups,
    tr = concat groups
    /\ Forall2 (fun prompt group =>
                  asked image_model (batch_request config prompt) group)
               prompts groups.

(** An event of saving an image. *)
Definition saving (e : Event) : Prop :=
  match e with
  | EDate | EMkdir _ | EWriteFile _ _ _ => True
  | _ => False
  end.

(** The trace of a batch whose tasks were all started first: the
    requests of all the prompts, and then events of saving images
    only. *)
Definition requests_then_saves (config : option GenerationConfig.t)
           (prompts : list String.string) (tr : list Event) : Prop :=
  exists rest,
    tr = (map (batch_request_event config) prompts ++ rest)%list
    /\ Forall saving rest.

(** [parallel = false] by default. *)
Definition in_parallel (a : BatchGenerateArgs.t) : bool :=
  match BatchGenerateArgs.parallel a with Some b => b | None => false end.

(** The image of an answer as every handler takes it: the first part
    with inline data of the first candidate. *)
Definition first_image (response : Gemini.Response) : option Gemini.InlineData :=
  match first_candidate_parts response with
  | Ok parts => find_image parts
  | Throw _ => None
  end.

(** An answer the model gave to some request. *)
Definition answered (env : Env) (response : Gemini.Response) : Prop :=
  exists t model request, env_generateContent env t model request = Ok response.

(** [data] is the data of the image of an answer of the model. *)
Definition model_image (env : Env) (data : String.string) : Prop :=
  exists response part,
    answered env response
    /\ first_image response = Some part
    /\ data = Gemini.data part.

(** A file written with the image of an answer of the model, or another
    event. *)
Definition from_model (env : Env) (e : Event) : Prop :=
  match e with
  | EWriteFile _ data _ => model_image env data
  | _ => True
  end.

(** [m] writes nothing but images of the model, and returns values that
    satisfy [R]. *)
Definition relays (env : Env) {A} (m : M A) (R : A -> Prop) : Prop :=
  spec env m (fun a n => Forall (from_model env) n /\ R a)
             (fun _ n => Forall (from_model env) n).

(** What [analyze_image] and [compare_images] answer with the text
    [answer] of the model: the text alone, or the text under the heading
    of the comparison. *)
Definition text_answer (name answer : String.string) (result : CallToolResult)
  : Prop :=
  if String.eqb name "analyze_image" then result = success answer
  else exists c,
         result = success ("Image Comparison (" ++ CompareType_name c ++ "):"
                           ++ LF ++ LF ++ answer).

(** [result] is the answer of tool [name] with the text of an answer of
    the model. *)
Definition relays_text (env : Env) (name : String.string) (result : CallToolResult)
  : Prop :=
  exists response answer,
    answered env response
    /\ Gemini.text response = Ok answer
    /\ text_answer name answer result.

(** The directory a call saves to: [outputDir] of the arguments, and the
    current directory when there is none. *)
Definition caller_outputDir (args : value) : String.string :=
  match field "outputDir" args with
  | VStr dir => dir
  | _ => "."
  end.

(** A timestamp as the file names have it. *)
Definition plain (timestamp : String.string) : Prop :=
  ~ holds ":" timestamp /\ ~ holds "." timestamp.

(** A timestamp read from the clock of [env], with [:] and [.]
    replaced as the handlers do. *)
Definition stamped (env : Env) (timestamp : String.string) : Prop :=
  exists t, timestamp = replace_colon_dot (env_toISOString env t).

(** The stem and the extension of the file names of a tool: the three
    tools that look at the type of the image have one stem each and
    [.png] or [.jpg]; [batch_generate] and [generate_variations] number
    their files, [generate_with_template] names them after the template,
    and these three always use [.png]. *)
Definition named_for (name stem extension : String.string) : Prop :=
  if String.eqb name "generate_image"
  then stem = "generated-image-" /\ In extension [".png"; ".jpg"]
  else if String.eqb name "edit_image"
  then stem = "edited-image-" /\ In extension [".png"; ".jpg"]
  else if String.eqb name "multi_image_edit"
  then stem = "multi-image-result-" /\ In extension [".png"; ".jpg"]
  else if String.eqb name "batch_generate"
  then (exists i, stem = "batch-" ++ nat_toString (i + 1) ++ "-")
       /\ extension = ".png"
  else if String.eqb name "generate_variations"
  then (exists i, stem = "variation-" ++ nat_toString (i + 1) ++ "-")
       /\ extension = ".png"
  else if String.eqb name "generate_with_template"
  then (exists t, stem = Template_name t ++ "-") /\ extension = ".png"
  else False.

(** The directory made is the one of the caller, and a file written lies
    in it, named by the stem of the tool, a timestamp of the clock and
    the extension. *)
Definition in_outputDir (env : Env) (name : String.string) (args : value)
           (e : Event) : Prop :=
  match e with
  | EMkdir dir => dir = caller_outputDir args
  | EWriteFile path _ _ =>
      exists stem timestamp extension,
        path = NodePath.join (caller_outputDir args)
                             (stem ++ timestamp ++ extension)
        /\ named_for name stem extension
        /\ stamped env timestamp
        /\ plain timestamp
  | _ => True
  end.

(** [emits_in env P m]: run in [env] from any trace, [m] only adds
    events, and all of them satisfy [P]. *)
Definition emits_in (env : Env) (P : Event -> Prop) {A} (m : M A) : Prop :=
  forall tr,
    exists new, snd (m env tr) = (tr ++ new)%list /\ Forall P new.

(** The prompt [generate_with_template] makes of a template and the
    caller's customization. *)
Definition template_prompt (t : Template) (customization : String.string)
  : String.string :=
  promptTemplates t ++ ". " ++ customization.

(** Two lists of images that differ in their descriptions at most. *)
Definition same_images (images images' : list ImageInput.t) : Prop :=
  map (fun image => (ImageInput.imageData image, ImageInput.imagePath image)) images
  = map (fun image => (ImageInput.imageData image, ImageInput.imagePath image))
        images'.

(** Two sets of arguments of [multi_image_edit] that differ in the
    descriptions of their images at most. *)
Definition same_but_descriptions (a a' : MultiImageEditArgs.t) : Prop :=
  MultiImageEditArgs.prompt a = MultiImageEditArgs.prompt a'
  /\ MultiImageEditArgs.outputDir a = MultiImageEditArgs.outputDir a'
  /\ MultiImageEditArgs.config a = MultiImageEditArgs.config a'
  /\ same_images (MultiImageEditArgs.images a) (MultiImageEditArgs.images a').

End Observations.

(** ** The path functions on examples *)

Example extname_upper : NodePath.extname "shots/Photo.JPG" = ".JPG".
Proof. reflexivity. Qed.

Example extname_dotfile : NodePath.extname "shots/.png" = "".
Proof. reflexivity. Qed.

Example extname_trailing_slash : NodePath.extname "a.b/c.gif//" = ".gif".
Proof. reflexivity. Qed.

Example extname_dotdot : NodePath.extname "a/.." = "".
Proof. reflexivity. Qed.

Example join_default_dir : NodePath.join "." "x.png" = "x.png".
Proof. reflexivity. Qed.

Example join_nested : NodePath.join "out//img/../a/" "x.png" = "out/a/x.png".
Proof. reflexivity. Qed.

Example join_absolute : NodePath.join "/../tmp" "x.png" = "/tmp/x.png".
Proof. reflexivity. Qed.

(** ** Validation *)

Module ZodFacts.
Import Js Zod Props.

Lemma parse_cases {A} (s : schema A) (v : value) :
  accepts s v \/ exists issues, parse s v = Throw (ZodError issues).
Proof.
  unfold accepts, parse.
  destruct (parsed_value (s [] v)) as [a|]; [destruct (parsed_issues (s [] v))|];
    eauto.
Qed.

Lemma accepts_clean {A} (s : schema A) (v : value) :
  sound s -> (accepts s v <-> clean (s [] v)).
Proof.
  intros Hs. unfold accepts, parse, clean. split.
  - intros [a H]. destruct (parsed_value (s [] v)); [|discriminate].
    destruct (parsed_issues (s [] v)); [reflexivity|discriminate].
  - intros H. specialize (Hs [] v H). rewrite H.
    destruct (parsed_value (s [] v)) as [a|]; [eauto|congruence].
Qed.

Lemma parse_ok_value {A} (s : schema A) (v : value) (a : A) :
  parse s v = Ok a ->
  parsed_value (s [] v) = Some a /\ parsed_issues (s [] v) = [].
Proof.
  unfold parse. destruct (parsed_value (s [] v)); [|discriminate].
  destruct (parsed_issues (s [] v)); [|discriminate].
  intros H; inversion H; auto.
Qed.

Lemma sound_string : sound Zod.string.
Proof. intros p [] H; cbn in *; unfold clean in H; cbn in H; congruence. Qed.

Lemma sound_number : sound Zod.number.
Proof. intros p [] H; cbn in *; unfold clean in H; cbn in H; congruence. Qed.

Lemma sound_boolean : sound Zod.boolean.
Proof. intros p [] H; cbn in *; unfold clean in H; cbn in H; congruence. Qed.

Lemma sound_check {A} (ok : A -> bool) c (s : schema A) :
  sound s -> sound (check ok c s).
Proof.
  intros Hs p v. unfold check, clean. specialize (Hs p v).
  destruct (parsed_value (s p v)) as [a|] eqn:E.
  - destruct (ok a); cbn; congruence.
  - intros H. rewrite E. auto.
Qed.

Lemma sound_optional {A} (s : schema A) : sound s -> sound (optional s).
Proof.
  intros Hs p v. specialize (Hs p v). unfold optional, clean in *.
  destruct v; cbn; try congruence;
    intros H; specialize (Hs H);
    match goal with |- context [parsed_value ?r] => destruct (parsed_value r) end;
    cbn; congruence.
Qed.

Lemma sound_default {A} d (s : schema A) : sound s -> sound (default d s).
Proof. intros Hs p v. unfold default. destruct v; apply Hs. Qed.

Lemma sound_enum {A} (name : A -> String.string) options : sound (enum name options).
Proof.
  intros p v. unfold enum, clean. destruct v; cbn; try congruence.
  destruct (find _ options); cbn; congruence.
Qed.

Lemma sound_elements {A} (s : schema A) :
  sound s -> forall l p i, clean (elements s p i l) ->
                           parsed_value (elements s p i l) <> None.
Proof.
  intros Hs. induction l as [|v l IH]; intros p i; cbn; [congruence|].
  unfold clean; cbn. intros H. apply app_eq_nil in H as [H1 H2].
  specialize (Hs _ _ H1). specialize (IH _ _ H2).
  destruct (parsed_value (s _ v)); [|congruence].
  destruct (parsed_value (elements s p (S i) l)); congruence.
Qed.

Lemma sound_array_min {A} n (s : schema A) : sound s -> sound (array_min n s).
Proof.
  intros Hs p v. unfold array_min, clean. destruct v; try (cbn; congruence).
  cbv zeta. destruct (List.length l <? n)%nat.
  - cbn. intros H. discriminate H.
  - apply sound_elements; assumption.
Qed.

Lemma shape_sound_pure {A} (a : A) : shape_sound (pure a).
Proof. intros p fs _. cbn. congruence. Qed.

Lemma shape_sound_ap {A B} (f : shape (A -> B)) k (s : schema A) :
  shape_sound f -> sound s -> shape_sound (ap f k s).
Proof.
  intros Hf Hs p fs. unfold ap, clean. cbn. intros H.
  apply app_eq_nil in H as [H1 H2].
  specialize (Hf _ _ H1). specialize (Hs _ _ H2).
  destruct (parsed_value (f p fs)); [|congruence].
  destruct (parsed_value (s _ _)); congruence.
Qed.

Lemma sound_object {A} (sh : shape A) : shape_sound sh -> sound (object sh).
Proof.
  intros Hsh p v. unfold object, clean. destruct v; cbn; try congruence.
  apply Hsh.
Qed.

Lemma clean_ap {A B} (f : shape (A -> B)) k (s : schema A) p fs :
  clean (ap f k s p fs) <->
  clean (f p fs) /\ clean (s (p ++ [Key k])%list (lookup k fs)).
Proof.
  unfold ap, clean. cbn. split.
  - intros H. apply app_eq_nil in H. exact H.
  - intros [H1 H2]. rewrite H1, H2. reflexivity.
Qed.

Lemma value_ap {A B} (f : shape (A -> B)) k (s : schema A) p fs b :
  parsed_value (ap f k s p fs) = Some b ->
  exists g a, parsed_value (f p fs) = Some g
              /\ parsed_value (s (p ++ [Key k])%list (lookup k fs)) = Some a
              /\ b = g a.
Proof.
  unfold ap. cbn.
  destruct (parsed_value (f p fs)) as [g|]; [|discriminate].
  destruct (parsed_value (s _ _)) as [a|]; [|discriminate].
  intros H; inversion H. eauto.
Qed.

Lemma value_pure {A} (a b : A) p fs :
  parsed_value (pure a p fs) = Some b -> b = a.
Proof. cbn. congruence. Qed.

(** What [refine] adds: the parsed value passes the predicate. *)
Lemma parse_refine {A} (pred : A -> bool) message (s : schema A) v a :
  parse (refine pred message s) v = Ok a ->
  pred a = true /\ parse s v = Ok a.
Proof.
  unfold parse, refine, check.
  destruct (parsed_value (s [] v)) as [x|] eqn:E.
  - destruct (pred x) eqn:P.
    + rewrite E. destruct (parsed_issues (s [] v)); [|discriminate].
      intros H; inversion H; subst. auto.
    + cbn. destruct (parsed_issues (s [] v)); discriminate.
  - rewrite E. discriminate.
Qed.

(** An optional string that is not supplied parses to [undefined]. *)
Lemma optional_string_undefined p o :
  parsed_value (optional Zod.string p VUndefined) = Some o -> o = None.
Proof. cbn. congruence. Qed.

Lemma clean_optional_range lo hi p v :
  clean (optional (max hi (min lo number)) p v) <-> in_range lo hi v.
Proof.
  unfold in_range, clean.
  destruct v; cbn;
    try (split; [discriminate | intros [H|[q' [H _]]]; discriminate]).
  - split; auto.
  - unfold max, min, check, number. cbn.
    destruct (Qle_bool lo q) eqn:E1; cbn;
      destruct (Qle_bool q hi) eqn:E2; cbn.
    + split; [|reflexivity]. intros _. right. exists q.
      apply Qle_bool_iff in E1. apply Qle_bool_iff in E2. auto.
    + split; [discriminate|]. intros [H|[q' [H [_ H2]]]]; [discriminate|].
      inversion H; subst. apply Qle_bool_iff in H2. congruence.
    + split; [discriminate|]. intros [H|[q' [H [H1 _]]]]; [discriminate|].
      inversion H; subst. apply Qle_bool_iff in H1. congruence.
    + split; [discriminate|]. intros [H|[q' [H [H1 _]]]]; [discriminate|].
      inversion H; subst. apply Qle_bool_iff in H1. congruence.
Qed.

Lemma clean_optional_number p v :
  clean (optional number p v) <-> any_number v.
Proof.
  unfold any_number, clean.
  destruct v; cbn;
    try (split; [discriminate | intros [H|[q' H]]; discriminate]).
  - split; auto.
  - split; eauto.
Qed.

Lemma sound_GenerationConfigSchema : sound GenerationConfigSchema.
Proof.
  unfold GenerationConfigSchema.
  apply sound_object.
  repeat apply shape_sound_ap; try apply shape_sound_pure;
    apply sound_optional; repeat apply sound_check; apply sound_number.
Qed.

End ZodFacts.

Module Validation.
Import Js Zod Props ZodFacts.

Ltac open_shape H :=
  repeat (apply value_ap in H as (? & ? & H & ? & ?));
  apply value_pure in H; subst.

(** Only an object reaches the shape of an object schema. *)
Lemma object_value {A} (sh : shape A) p v a :
  parsed_value (object sh p v) = Some a ->
  exists fs, v = VObj fs /\ parsed_value (sh p fs) = Some a.
Proof. destruct v; cbn; try discriminate. eauto. Qed.

Lemma field_undefined_optional_string k fs p o :
  field k (VObj fs) = VUndefined ->
  parsed_value (optional Zod.string p (lookup k fs)) = Some o -> o = None.
Proof. cbn. intros ->. apply optional_string_undefined. Qed.

Lemma EditImageArgs_needs_image args :
  supplies_neither args -> ~ accepts EditImageArgsSchema args.
Proof.
  intros [Hd Hp] [a H]. unfold EditImageArgsSchema in H.
  apply parse_refine in H as [Hpred H].
  apply parse_ok_value in H as [H _].
  apply object_value in H as (fs & -> & H).
  open_shape H.
  repeat match goal with
         | E : parsed_value (optional Zod.string _ (lookup _ _)) = Some _ |- _ =>
             eapply field_undefined_optional_string in E; [subst|eassumption]
         end.
  cbn in Hpred. discriminate.
Qed.

Lemma AnalyzeImageArgs_needs_image args :
  supplies_neither args -> ~ accepts AnalyzeImageArgsSchema args.
Proof.
  intros [Hd Hp] [a H]. unfold AnalyzeImageArgsSchema in H.
  apply parse_refine in H as [Hpred H].
  apply parse_ok_value in H as [H _].
  apply object_value in H as (fs & -> & H).
  open_shape H.
  repeat match goal with
         | E : parsed_value (optional Zod.string _ (lookup _ _)) = Some _ |- _ =>
             eapply field_undefined_optional_string in E; [subst|eassumption]
         end.
  cbn in Hpred. discriminate.
Qed.

Lemma GenerateVariationsArgs_needs_image args :
  supplies_neither args -> ~ accepts GenerateVariationsArgsSchema args.
Proof.
  intros [Hd Hp] [a H]. unfold GenerateVariationsArgsSchema in H.
  apply parse_refine in H as [Hpred H].
  apply parse_ok_value in H as [H _].
  apply object_value in H as (fs & -> & H).
  open_shape H.
  repeat match goal with
         | E : parsed_value (optional Zod.string _ (lookup _ _)) = Some _ |- _ =>
             eapply field_undefined_optional_string in E; [subst|eassumption]
         end.
  cbn in Hpred. discriminate.
Qed.

(** An element without an image makes the refinement of
    [MultiImageEditArgsSchema] fail on whatever the array parses to. *)
Lemma elements_without_image (s : schema ImageInput.t) l e :
  (forall p v img, supplies_neither v -> parsed_value (s p v) = Some img ->
                   ImageInput.imageData img = None
                   /\ ImageInput.imagePath img = None) ->
  In e l -> supplies_neither e ->
  forall p i imgs,
    parsed_value (elements s p i l) = Some imgs ->
    forallb (fun img => truthy (ImageInput.imageData img)
                        || truthy (ImageInput.imagePath img)) imgs = false.
Proof.
  intros Hs. induction l as [|v l IH]; intros Hin He p i imgs; [destruct Hin|].
  cbn.
  destruct (parsed_value (s _ v)) as [img|] eqn:E; [|discriminate].
  destruct (parsed_value (elements s p (S i) l)) as [rest|] eqn:Er; [|discriminate].
  intros H; inversion H; subst; clear H. cbn.
  destruct Hin as [->|Hin].
  - destruct (Hs _ _ _ He E) as [-> ->]. reflexivity.
  - rewrite (IH Hin He _ _ _ Er). apply andb_false_r.
Qed.

Lemma MultiImageEditArgs_needs_images args l e :
  field "images" args = VArr l -> In e l -> supplies_neither e ->
  ~ accepts MultiImageEditArgsSchema args.
Proof.
  intros Hl Hin He [a H]. unfold MultiImageEditArgsSchema in H.
  apply parse_refine in H as [Hpred H].
  apply parse_ok_value in H as [H _].
  apply object_value in H as (fs & -> & H).
  open_shape H. cbn in Hl.
  match goal with
  | E : parsed_value (array_min _ _ _ (lookup "images" fs)) = Some ?imgs |- _ =>
      rewrite Hl in E; unfold array_min in E; cbv zeta in E;
      assert (Hel : exists p, parsed_value (elements
                (object (pure ImageInput.Build
                   <*> "imageData" ::: optional Zod.string
                   <*> "imagePath" ::: optional Zod.string
                   <*> "description" ::: optional Zod.string)) p 0 l) = Some imgs)
        by (destruct (List.length l <? 1)%nat; eexists; exact E)
  end.
  destruct Hel as [p Hel].
  cbn in Hpred.
  erewrite elements_without_image in Hpred; eauto; [discriminate|].
  clear. intros p v img [Hd Hp] H.
  apply object_value in H as (fs & -> & H).
  open_shape H.
  repeat match goal with
         | E : parsed_value (optional Zod.string _ (lookup _ _)) = Some _ |- _ =>
             eapply field_undefined_optional_string in E; [subst|eassumption]
         end.
  auto.
Qed.

Lemma CompareImagesArgs_needs_paths args :
  field "image1Path" args = VUndefined \/ field "image2Path" args = VUndefined ->
  ~ accepts CompareImagesArgsSchema args.
Proof.
  intros Hor [a H]. unfold CompareImagesArgsSchema in H.
  apply parse_ok_value in H as [H _].
  apply object_value in H as (fs & -> & H).
  open_shape H. cbn in Hor.
  destruct Hor as [E|E];
    match goal with
    | V : parsed_value (Zod.string _ (lookup ?k fs)) = Some _,
      U : lookup ?k fs = VUndefined |- _ => rewrite U in V; discriminate V
    end.
Qed.

(** What [GenerationConfigSchema] accepts, field by field. *)
Lemma GenerationConfigSchema_accepts v :
  accepts GenerationConfigSchema v <-> is_object v /\ config_ranges any_number v.
Proof.
  rewrite (accepts_clean _ sound_GenerationConfigSchema).
  unfold is_object, config_ranges, GenerationConfigSchema, object.
  destruct v;
    try (split; [intros H; discriminate H | intros [[fs H] _]; discriminate H]).
  rewrite !clean_ap, !clean_optional_range, clean_optional_number. cbn [field].
  split.
  - intros [[[[_ Ht] Hp] Hk] Hm]. split; [eexists; reflexivity | auto].
  - intros [_ (Ht & Hp & Hk & Hm)]. repeat split; auto.
Qed.

(** C9, as the code has it: [GenerationConfigSchema] accepts a value
    exactly when it is an object whose [temperature] is absent or a
    number in [0, 2], [topP] absent or in [0, 1], [topK] absent or in
    [1, 40], and [maxOutputTokens] absent or any number at all; every
    other value makes [parse] throw a [ZodError] that has issues. *)
Theorem C9_GenerationConfig_validation (v : value) :
  (accepts GenerationConfigSchema v
   <-> is_object v /\ config_ranges any_number v)
  /\ (accepts GenerationConfigSchema v
      \/ exists issues, issues <> []
                        /\ parse GenerationConfigSchema v = Throw (ZodError issues)).
Proof.
  split; [apply GenerationConfigSchema_accepts|].
  destruct (parse_cases GenerationConfigSchema v) as [H|[issues H]]; [auto|].
  right. exists issues. split; [|exact H].
  intros ->. unfold parse in H.
  pose proof (sound_GenerationConfigSchema [] v) as Hs. unfold clean in Hs.
  destruct (parsed_value (GenerationConfigSchema [] v)) as [a|].
  - destruct (parsed_issues (GenerationConfigSchema [] v)); discriminate.
  - destruct (parsed_issues (GenerationConfigSchema [] v));
      [apply Hs; reflexivity | inversion H].
Qed.

(** C9 as it is worded fails: a negative, fractional [maxOutputTokens]
    is accepted. *)
Lemma C9_accepts_negative_fractional_maxOutputTokens :
  accepts GenerationConfigSchema (VObj [("maxOutputTokens", VNum (-5 # 2))])
  /\ ~ config_ranges positive_integer
                     (VObj [("maxOutputTokens", VNum (-5 # 2))]).
Proof.
  split.
  - eexists. reflexivity.
  - intros (_ & _ & _ & [H|(q & H & Hpos & _)]); [discriminate|].
    cbn in H. inversion H; subst. revert Hpos. unfold Qlt. cbn. lia.
Qed.

(** C8, as the code has it: a call of [generate_variations] that
    supplies neither [imageData] nor [imagePath] fails the validation of
    its arguments, by a [ZodError], before anything is read, written or
    requested; what the schema lets through always has an image, so the
    handler's own "Either imageData or imagePath must be provided" is
    never thrown.  Only the advertised [inputSchema] requires nothing. *)
Theorem C8_variations_image_checked_by_schema (env : Env) (args : value) :
  (supplies_neither args ->
   exists issues,
     parse GenerateVariationsArgsSchema args = Throw (ZodError issues)
     /\ run (handleGenerateVariations args) env = (Throw (ZodError issues), []))
  /\ (forall a, parse GenerateVariationsArgsSchema args = Ok a ->
                truthy (GenerateVariationsArgs.imageData a)
                || truthy (GenerateVariationsArgs.imagePath a) = true)
  /\ inputSchema_required "generate_variations" = [].
Proof.
  split; [|split; [|reflexivity]].
  - intros Hn.
    destruct (parse_cases GenerateVariationsArgsSchema args) as [H|[issues H]].
    + destruct (GenerateVariationsArgs_needs_image Hn H).
    + exists issues. split; [exact H|].
      unfold run, handleGenerateVariations, bind, lift. rewrite H. reflexivity.
  - intros a H. unfold GenerateVariationsArgsSchema in H.
    apply parse_refine in H as [H _]. exact H.
Qed.

Lemma C8_variations_image_checked_by_schema_witness :
  supplies_neither (VObj [("count", VNum 2)])
  /\ exists issues,
       parse GenerateVariationsArgsSchema (VObj [("count", VNum 2)])
       = Throw (ZodError issues)
       /\ run (handleGenerateVariations (VObj [("count", VNum 2)])) Demo.png_env
          = (Throw (ZodError issues), []).
Proof.
  assert (H : supplies_neither (VObj [("count", VNum 2)]))
    by (split; reflexivity).
  split; [exact H|].
  exact (proj1 (C8_variations_image_checked_by_schema
                  Demo.png_env (VObj [("count", VNum 2)])) H).
Defined.

(** C8 as it is worded fails: the empty call does not pass the
    validation of its arguments; the schema's refinement rejects it. *)
Lemma C8_empty_call_fails_validation :
  supplies_neither (VObj [])
  /\ ~ accepts GenerateVariationsArgsSchema (VObj [])
  /\ parse GenerateVariationsArgsSchema (VObj [])
     = Throw (ZodError
                [Issue (custom "Either imageData or imagePath must be provided") []]).
Proof.
  split; [split; reflexivity|]. split; [|reflexivity].
  intros [a H]. discriminate H.
Qed.

End Validation.

(** ** A program logic for the handlers *)

Module Logic.
Import Js Props.

Section Rules.
Context {A B : Type} (env : Env).
Variable Q : B -> list Event -> Prop.
Variable E : thrown -> list Event -> Prop.

Lemma spec_ret (b : B) : Q b [] -> spec env (ret b) Q E.
Proof. intros H tr. exists []. cbn. rewrite app_nil_r. auto. Qed.

Lemma spec_throw (e : thrown) : E e [] -> spec env (throw e) Q E.
Proof. intros H tr. exists []. cbn. rewrite app_nil_r. auto. Qed.

Lemma spec_lift (r : result B) :
  match r with Ok b => Q b [] | Throw e => E e [] end ->
  spec env (lift r) Q E.
Proof. intros H tr. exists []. cbn. rewrite app_nil_r. auto. Qed.

Lemma spec_with_env (f : Env -> M B) :
  spec env (f env) Q E -> spec env (with_env f) Q E.
Proof. intros H tr. exact (H tr). Qed.

(** Sequencing after a computation with a known specification. *)
Lemma spec_bind (m : M A) (k : A -> M B)
      (Q1 : A -> list Event -> Prop) (E1 : thrown -> list Event -> Prop) :
  spec env m Q1 E1 ->
  (forall e n1, E1 e n1 -> E e n1) ->
  (forall a n1, Q1 a n1 ->
                spec env (k a) (fun b n2 => Q b (n1 ++ n2)%list)
                               (fun e n2 => E e (n1 ++ n2)%list)) ->
  spec env (bind m k) Q E.
Proof.
  intros Hm HE Hk tr. unfold bind.
  destruct (Hm tr) as (n1 & Htr & Hpost).
  destruct (m env tr) as [[a|e] tr1]; cbn in *; subst tr1.
  - destruct (Hk a n1 Hpost (tr ++ n1)%list) as (n2 & Htr2 & Hpost2).
    exists (n1 ++ n2)%list. rewrite app_assoc. split; [exact Htr2|].
    destruct (fst (k a env (tr ++ n1)%list)); exact Hpost2.
  - exists n1. auto.
Qed.

(** [try { m } catch (e) { handler e }] *)
Lemma spec_try_catch (m : M B) (handler : thrown -> M B)
      (E1 : thrown -> list Event -> Prop) :
  spec env m Q E1 ->
  (forall e n1, E1 e n1 ->
                spec env (handler e) (fun b n2 => Q b (n1 ++ n2)%list)
                                     (fun e' n2 => E e' (n1 ++ n2)%list)) ->
  spec env (try_catch m handler) Q E.
Proof.
  intros Hm Hh tr. unfold try_catch.
  destruct (Hm tr) as (n1 & Htr & Hpost).
  destruct (m env tr) as [[b|e] tr1]; cbn in *; subst tr1.
  - exists n1. auto.
  - destruct (Hh e n1 Hpost (tr ++ n1)%list) as (n2 & Htr2 & Hpost2).
    exists (n1 ++ n2)%list. rewrite app_assoc. split; [exact Htr2|].
    destruct (fst (handler e env (tr ++ n1)%list)); exact Hpost2.
Qed.

(** Sequencing after a value that is already there. *)
Lemma spec_bind_lift (r : result A) (k : A -> M B) :
  match r with
  | Ok a => spec env (k a) Q E
  | Throw e => E e []
  end ->
  spec env (bind (lift r) k) Q E.
Proof.
  intros H tr. unfold bind, lift. destruct r as [a|e]; [exact (H tr)|].
  exists []. cbn. rewrite app_nil_r. auto.
Qed.

(** A weaker postcondition. *)
Lemma spec_weaken (m : M B)
      (Q1 : B -> list Event -> Prop) (E1 : thrown -> list Event -> Prop) :
  spec env m Q1 E1 ->
  (forall b n, Q1 b n -> Q b n) ->
  (forall e n, E1 e n -> E e n) ->
  spec env m Q E.
Proof.
  intros Hm HQ HE tr. destruct (Hm tr) as (n & Htr & Hpost).
  exists n. split; [exact Htr|].
  destruct (fst (m env tr)); auto.
Qed.

End Rules.

(** The calls that leave the process: each adds its one event. *)
Section Calls.
Context (env : Env).

Lemma spec_readFile path :
  spec env (readFile path)
       (fun _ n => n = [EReadFile path]) (fun _ n => n = [EReadFile path]).
Proof.
  intros tr. exists [EReadFile path]. unfold readFile. cbn.
  split; [reflexivity|]. destruct (env_readFile env _ path); reflexivity.
Qed.

Lemma spec_mkdir dir :
  spec env (mkdir dir)
       (fun _ n => n = [EMkdir dir]) (fun _ n => n = [EMkdir dir]).
Proof.
  intros tr. exists [EMkdir dir]. unfold mkdir. cbn.
  split; [reflexivity|]. destruct (env_mkdir env _ dir); reflexivity.
Qed.

Lemma spec_writeFile path data :
  spec env (writeFile path data)
       (fun _ n => n = [EWriteFile path data true])
       (fun _ n => n = [EWriteFile path data false]).
Proof.
  intros tr. unfold writeFile. cbn.
  destruct (env_writeFile env _ path data); cbn; eexists; split; reflexivity.
Qed.

Lemma spec_generateContent model request :
  spec env (generateContent model request)
       (fun _ n => n = [EGenerateContent model request])
       (fun _ n => n = [EGenerateContent model request]).
Proof.
  intros tr. exists [EGenerateContent model request]. unfold generateContent. cbn.
  split; [reflexivity|].
  destruct (env_generateContent env _ model request); reflexivity.
Qed.

(** The same, remembering that the answer is one the model gave. *)
Lemma spec_generateContent_answer model request :
  spec env (generateContent model request)
       (fun response n =>
          n = [EGenerateContent model request]
          /\ exists t, env_generateContent env t model request = Ok response)
       (fun _ n => n = [EGenerateContent model request]).
Proof.
  intros tr. exists [EGenerateContent model request]. unfold generateContent. cbn.
  split; [reflexivity|].
  destruct (env_generateContent env _ model request) eqn:E; eauto.
Qed.

Lemma spec_timestamp_now :
  spec env timestamp_now (fun _ n => n = [EDate]) (fun _ _ => False).
Proof. intros tr. exists [EDate]. cbn. auto. Qed.

Lemma spec_console_error message error :
  spec env (console_error message error)
       (fun _ n => n = [EConsoleError message error]) (fun _ _ => False).
Proof. intros tr. exists [EConsoleError message error]. cbn. auto. Qed.

Lemma spec_settles_next n :
  (0 < n)%nat ->
  spec env (settles_next n) (fun k new => (k < n)%nat /\ new = [])
       (fun _ _ => False).
Proof.
  intros Hn tr. exists []. cbn. rewrite app_nil_r.
  split; [reflexivity|]. split; [|reflexivity].
  apply Nat.mod_upper_bound. lia.
Qed.

(** [saveImage] writes at most the file whose path it returns. *)
Lemma spec_saveImage outputDir filename data :
  spec env (saveImage outputDir filename data)
       (fun filepath n => written n = [filepath]
                          /\ requests n = []
                          /\ exists timestamp,
                               filepath = NodePath.join outputDir (filename timestamp))
       (fun _ n => written n = [] /\ requests n = []).
Proof.
  unfold saveImage.
  eapply spec_bind; [apply spec_timestamp_now | intros ? ? []|].
  intros timestamp n1 ->.
  eapply spec_bind; [apply spec_mkdir | intros e n ->; cbn; auto|].
  intros _ n2 ->.
  eapply spec_bind; [apply spec_writeFile | intros e n ->; cbn; auto|].
  intros _ n3 ->.
  apply spec_ret. cbn. eauto.
Qed.

End Calls.

Lemma written_app a b : written (a ++ b) = (written a ++ written b)%list.
Proof.
  induction a as [|e a IH]; [reflexivity|].
  destruct e as [| | ? ? [|] | | |]; cbn; congruence.
Qed.

Lemma requests_app a b : requests (a ++ b) = (requests a ++ requests b)%list.
Proof.
  induction a as [|e a IH]; [reflexivity|].
  destruct e; cbn; congruence.
Qed.

(** From a specification to a run from the empty trace. *)
Lemma spec_run {A} env (m : M A) Q E :
  spec env m Q E ->
  match run m env with
  | (Ok a, tr) => Q a tr
  | (Throw e, tr) => E e tr
  end.
Proof.
  intros H. unfold run. destruct (H []) as (n & Htr & Hpost).
  destruct (m env []) as [[a|e] tr]; cbn in *; subst; exact Hpost.
Qed.

End Logic.

(** ** Strings *)

Module StringFacts.
Import Js Props.

Lemma append_nil_r (s : string) : s ++ "" = s.
Proof. induction s; cbn; congruence. Qed.

Lemma append_assoc (a b c : string) : (a ++ b) ++ c = a ++ b ++ c.
Proof. induction a; cbn; congruence. Qed.

Lemma includes_refl s : includes s s.
Proof. exists "", "". cbn. rewrite append_nil_r. reflexivity. Qed.

Lemma includes_left a s x : includes s x -> includes (a ++ s) x.
Proof.
  intros (u & v & ->). exists (a ++ u), v. rewrite append_assoc. reflexivity.
Qed.

Lemma includes_right b s x : includes s x -> includes (s ++ b) x.
Proof.
  intros (u & v & ->). exists u, (v ++ b). rewrite !append_assoc. reflexivity.
Qed.

Lemma includes_join sep l x : In x l -> includes (join sep l) x.
Proof.
  induction l as [|y l IH]; [intros []|].
  intros [->|Hin].
  - destruct l; [apply includes_refl|].
    change (includes (x ++ sep ++ join sep (s :: l)) x).
    apply includes_right, includes_refl.
  - destruct l as [|z l]; [destruct Hin|].
    change (includes (y ++ sep ++ join sep (z :: l)) x).
    apply includes_left, includes_left, IH, Hin.
Qed.

Lemma includes_join_map {A} (f : A -> string) sep l a x :
  In a l -> includes (f a) x -> includes (join sep (map f l)) x.
Proof.
  intros Hin (u & v & Hf).
  destruct (includes_join sep (map f l) (f a) (in_map f l a Hin)) as (u' & v' & ->).
  exists (u' ++ u), (v ++ v'). rewrite Hf, !append_assoc. reflexivity.
Qed.

End StringFacts.

(** ** What each handler adds to the trace *)

Module Handlers.
Import Js Props Logic StringFacts.

Lemma spec_lift_quiet {A} env (r : result A) :
  spec env (lift r) (fun _ n => n = []) (fun _ n => n = []).
Proof. apply spec_lift. destruct r; reflexivity. Qed.

Lemma spec_resolveImage env imageData imagePath neither :
  spec env (resolveImage imageData imagePath neither)
       (fun _ n => quiet n) (fun _ n => quiet n).
Proof.
  unfold resolveImage.
  destruct (truthy imageData); [apply spec_ret; split; reflexivity|].
  destruct (truthy imagePath); [|apply spec_throw; split; reflexivity].
  eapply spec_bind; [apply spec_readFile | intros e n ->; split; reflexivity|].
  intros data n ->. apply spec_ret. split; reflexivity.
Qed.

Lemma quiet_app a b : quiet a -> quiet b -> quiet (a ++ b).
Proof.
  unfold quiet. rewrite written_app, requests_app.
  intros [-> ->] [-> ->]. auto.
Qed.

Lemma spec_resolveImages env images :
  forall i, spec env (resolveImages i images)
                 (fun _ n => quiet n) (fun _ n => quiet n).
Proof.
  induction images as [|image rest IH]; intros i; cbn [resolveImages].
  - apply spec_ret. split; reflexivity.
  - eapply spec_bind; [apply spec_resolveImage | auto |].
    intros part n1 H1.
    eapply spec_bind; [apply IH | intros e n2 H2; apply quiet_app; assumption |].
    intros parts n2 H2. apply spec_ret.
    rewrite app_nil_r. apply quiet_app; assumption.
Qed.

(** A single image is saved last, and the answer names its path. *)
Lemma reports_saved text filepath (new : list Event) :
  written new = [filepath] -> includes text filepath ->
  reports_files (success text) new.
Proof.
  intros Hn Hin. exists text. split; [reflexivity|].
  rewrite Hn. intros path [<-|[]]. exact Hin.
Qed.

Ltac trivial_throw := try (intros; exact I).

Ltac written_of :=
  repeat rewrite written_app; cbn [written app];
  repeat match goal with H : written _ = _ |- _ => rewrite H end;
  reflexivity.

Lemma handleGenerateImage_reports env args :
  spec env (handleGenerateImage args) reports_files (fun _ _ => True).
Proof.
  unfold handleGenerateImage.
  eapply spec_bind; [apply spec_lift_quiet | trivial_throw |]. intros a ? ->.
  eapply spec_bind; [apply spec_generateContent | trivial_throw |]. intros r ? ->.
  eapply spec_bind; [apply spec_lift_quiet | trivial_throw |]. intros img ? ->.
  eapply spec_bind; [apply spec_saveImage | trivial_throw |].
  intros filepath n (Hw & _ & _).
  apply spec_ret.
  apply (reports_saved (filepath := filepath)); [written_of|].
  apply includes_left, includes_refl.
Qed.

Lemma handleEditImage_reports env args :
  spec env (handleEditImage args) reports_files (fun _ _ => True).
Proof.
  unfold handleEditImage.
  eapply spec_bind; [apply spec_lift_quiet | trivial_throw |]. intros a ? ->.
  eapply spec_bind; [apply spec_resolveImage | trivial_throw |]. intros part n0 [H0 _].
  eapply spec_bind; [apply spec_generateContent | trivial_throw |]. intros r ? ->.
  eapply spec_bind; [apply spec_lift_quiet | trivial_throw |]. intros img ? ->.
  eapply spec_bind; [apply spec_saveImage | trivial_throw |].
  intros filepath n (Hw & _ & _).
  apply spec_ret.
  apply (reports_saved (filepath := filepath)); [written_of|].
  apply includes_left, includes_refl.
Qed.

Lemma reports_nothing text (new : list Event) :
  written new = [] -> reports_files (success text) new.
Proof.
  intros Hn. exists text. split; [reflexivity|]. rewrite Hn. intros path [].
Qed.

Lemma handleAnalyzeImage_reports env args :
  spec env (handleAnalyzeImage args) reports_files (fun _ _ => True).
Proof.
  unfold handleAnalyzeImage.
  eapply spec_bind; [apply spec_lift_quiet | trivial_throw |]. intros a ? ->.
  eapply spec_bind; [apply spec_resolveImage | trivial_throw |]. intros part n0 [H0 _].
  eapply spec_bind; [apply spec_generateContent | trivial_throw |]. intros r ? ->.
  eapply spec_bind; [apply spec_lift_quiet | trivial_throw |]. intros answer ? ->.
  apply spec_ret. apply reports_nothing. written_of.
Qed.

Lemma handleMultiImageEdit_reports env args :
  spec env (handleMultiImageEdit args) reports_files (fun _ _ => True).
Proof.
  unfold handleMultiImageEdit.
  eapply spec_bind; [apply spec_lift_quiet | trivial_throw |]. intros a ? ->.
  eapply spec_bind; [apply spec_resolveImages | trivial_throw |]. intros parts n0 [H0 _].
  eapply spec_bind; [apply spec_generateContent | trivial_throw |]. intros r ? ->.
  eapply spec_bind; [apply spec_lift_quiet | trivial_throw |]. intros img ? ->.
  eapply spec_bind; [apply spec_saveImage | trivial_throw |].
  intros filepath n (Hw & _ & _).
  apply spec_ret.
  apply (reports_saved (filepath := filepath)); [written_of|].
  apply includes_left, includes_refl.
Qed.

Lemma handleGenerateWithTemplate_reports env args :
  spec env (handleGenerateWithTemplate args) reports_files (fun _ _ => True).
Proof.
  unfold handleGenerateWithTemplate.
  eapply spec_bind; [apply spec_lift_quiet | trivial_throw |]. intros a ? ->.
  eapply spec_bind; [apply spec_generateContent | trivial_throw |]. intros r ? ->.
  eapply spec_bind; [apply spec_lift_quiet | trivial_throw |]. intros img ? ->.
  eapply spec_bind; [apply spec_saveImage | trivial_throw |].
  intros filepath n (Hw & _ & _).
  apply spec_ret.
  apply (reports_saved (filepath := filepath)); [written_of|].
  do 3 apply includes_left. apply includes_right, includes_refl.
Qed.

Lemma handleCompareImages_reports env args :
  spec env (handleCompareImages args) reports_files (fun _ _ => True).
Proof.
  unfold handleCompareImages.
  eapply spec_bind; [apply spec_lift_quiet | trivial_throw |]. intros a ? ->.
  eapply spec_bind; [apply spec_readFile | trivial_throw |]. intros image1 ? ->.
  eapply spec_bind; [apply spec_readFile | trivial_throw |]. intros image2 ? ->.
  eapply spec_bind; [apply spec_generateContent | trivial_throw |]. intros r ? ->.
  eapply spec_bind; [apply spec_lift_quiet | trivial_throw |]. intros answer ? ->.
  apply spec_ret. apply reports_nothing. written_of.
Qed.

(** *** The batch *)

Lemma listed_incl results results' path :
  incl results results' -> listed results path -> listed results' path.
Proof. intros Hi (r & Hin & H). exists r. split; auto. Qed.

Lemma listed_succeeded results prompt filepath :
  listed (results ++ [succeeded prompt filepath]) filepath.
Proof.
  exists (succeeded prompt filepath). split; [|split; reflexivity].
  apply in_or_app. right. left. reflexivity.
Qed.

(** A turn of the sequential loop never throws, keeps the outcomes it
    was given, and lists the file it wrote, if any. *)
Lemma spec_batch_sequential_step env outputDir config i prompt results :
  spec env (batch_sequential_step outputDir config i prompt results)
       (fun results' n =>
          incl results results'
          /\ forall path, In path (written n) -> listed results' path)
       (fun _ _ => False).
Proof.
  unfold batch_sequential_step.
  eapply spec_try_catch with (E1 := fun _ n => written n = []).
  - eapply spec_bind; [apply spec_generateContent | intros e n ->; reflexivity |].
    intros r ? ->.
    eapply spec_bind; [apply spec_lift_quiet | intros e n ->; reflexivity |].
    intros parts ? ->.
    destruct parts as [ps|].
    + destruct (find_image (Some ps)) as [imagePart|].
      * eapply spec_bind; [apply spec_saveImage | intros e n [Hw _]; written_of |].
        intros filepath n (Hw & _ & _). apply spec_ret.
        split; [apply incl_appl, incl_refl|].
        intros path. replace (written _) with [filepath] by (symmetry; written_of).
        intros [<-|[]]. apply listed_succeeded.
      * apply spec_ret. split; [apply incl_appl, incl_refl|].
        intros path [].
    + apply spec_ret. split; [apply incl_refl|]. intros path [].
  - intros e n1 Hn1. apply spec_with_env. apply spec_ret.
    split; [apply incl_appl, incl_refl|].
    rewrite app_nil_r, Hn1. intros path [].
Qed.

Lemma spec_batch_sequential env outputDir config prompts :
  forall i results,
    spec env (batch_sequential outputDir config i prompts results)
         (fun results' n =>
            incl results results'
            /\ forall path, In path (written n) -> listed results' path)
         (fun _ _ => False).
Proof.
  induction prompts as [|prompt rest IH]; intros i results; cbn [batch_sequential].
  - apply spec_ret. split; [apply incl_refl|]. intros path [].
  - eapply spec_bind; [apply spec_batch_sequential_step | auto |].
    intros results1 n1 [Hi1 Hl1].
    eapply spec_weaken; [apply IH | | auto].
    intros results2 n2 [Hi2 Hl2]. split; [eapply incl_tran; eassumption|].
    intros path. rewrite written_app. intros Hin.
    apply in_app_or in Hin as [Hin|Hin]; [|auto].
    eapply listed_incl; [exact Hi2 | auto].
Qed.

Lemma spec_attempt {A} env (m : M A) Q1 E1 :
  spec env m Q1 E1 ->
  spec env (attempt m)
       (fun r n => match r with Ok a => Q1 a n | Throw e => E1 e n end)
       (fun _ _ => False).
Proof.
  intros Hm tr. unfold attempt. destruct (Hm tr) as (n & Htr & Hpost).
  destruct (m env tr) as [r tr']. cbn in *. eauto.
Qed.

Lemma spec_conj {A} env (m : M A) Q1 E1 Q2 E2 :
  spec env m Q1 E1 -> spec env m Q2 E2 ->
  spec env m (fun a n => Q1 a n /\ Q2 a n) (fun e n => E1 e n /\ E2 e n).
Proof.
  intros H1 H2 tr.
  destruct (H1 tr) as (n1 & Htr1 & Hp1). destruct (H2 tr) as (n2 & Htr2 & Hp2).
  assert (n2 = n1) by (eapply app_inv_head; rewrite <- Htr1, <- Htr2; reflexivity).
  subst n2. exists n1. split; [exact Htr1|].
  destruct (fst (m env tr)); auto.
Qed.

(** Starting the tasks sends the requests and writes nothing; task
    number [k] is the one for prompt number [k]. *)
Lemma spec_batch_start env config prompts :
  forall index,
    spec env (batch_start config index prompts)
         (fun pending n =>
            written n = []
            /\ map pending_index pending = seq index (List.length prompts)
            /\ map pending_prompt pending = prompts)
         (fun _ _ => False).
Proof.
  induction prompts as [|prompt rest IH]; intros index; cbn [batch_start].
  - apply spec_ret. auto.
  - eapply spec_bind;
      [apply spec_attempt, spec_generateContent | intros ? ? [] |].
    intros r n1 Hn1.
    assert (Hw1 : written n1 = []) by (destruct r; subst n1; reflexivity).
    eapply spec_bind; [apply IH | intros ? ? [] |].
    intros tasks n2 (Hw2 & Hi & Hp).
    apply spec_ret. cbn [map List.length seq pending_index pending_prompt].
    rewrite Hi, Hp. split; [written_of | auto].
Qed.

(** A task resumed never throws; its outcome is for its prompt, and is
    a success with the path of the file when one was written. *)
Lemma spec_batch_resume env outputDir task :
  spec env (batch_resume outputDir task)
       (fun outcome n =>
          outcome_prompt outcome = pending_prompt task
          /\ forall path, In path (written n) ->
                          outcome_success outcome = true
                          /\ outcome_filepath outcome = Some path)
       (fun _ _ => False).
Proof.
  unfold batch_resume.
  eapply spec_try_catch with (E1 := fun _ n => written n = []).
  - eapply spec_bind; [apply spec_lift_quiet | intros e n ->; reflexivity |].
    intros r ? ->.
    eapply spec_bind; [apply spec_lift_quiet | intros e n ->; reflexivity |].
    intros parts ? ->.
    destruct (find_image parts) as [imagePart|].
    + eapply spec_bind; [apply spec_saveImage | intros e n [Hw _]; written_of |].
      intros filepath n (Hw & _ & _). apply spec_ret.
      split; [reflexivity|].
      intros path. replace (written _) with [filepath] by (symmetry; written_of).
      intros [<-|[]]. auto.
    + apply spec_ret. split; [reflexivity|]. intros path [].
  - intros e n1 Hn1. apply spec_with_env. apply spec_ret.
    split; [reflexivity|]. rewrite app_nil_r, Hn1. intros path [].
Qed.

Lemma in_place {A} (x y : nat * A) l : In y (place x l) <-> y = x \/ In y l.
Proof.
  induction l as [|z l IH]; cbn [place].
  - cbn. intuition congruence.
  - destruct (fst x <? fst z)%nat.
    + cbn. intuition congruence.
    + change (In y (z :: place x l)) with (z = y \/ In y (place x l)).
      rewrite IH. cbn. intuition congruence.
Qed.

Lemma spec_batch_settle_reports env outputDir :
  forall n pending settled,
    spec env (batch_settle outputDir n pending settled)
         (fun settled' new =>
            incl settled settled'
            /\ forall path, In path (written new) ->
                            listed (map snd settled') path)
         (fun _ _ => False).
Proof.
  induction n as [|n IH]; intros pending settled; cbn [batch_settle].
  - apply spec_ret. split; [apply incl_refl|]. intros path [].
  - destruct pending as [|first rest].
    + apply spec_ret. split; [apply incl_refl|]. intros path [].
    + eapply spec_bind;
        [apply spec_settles_next; cbn; lia | intros ? ? [] |].
      intros k ? [_ ->].
      eapply spec_bind; [apply spec_batch_resume | intros ? ? [] |].
      intros outcome n1 [_ Hl1].
      eapply spec_weaken; [apply IH | | auto].
      intros settled' n2 [Hi Hl2]. split.
      * intros x Hx. apply Hi. apply in_place. auto.
      * intros path. cbn [app]. rewrite written_app. intros Hin.
        apply in_app_or in Hin as [Hin|Hin]; [|auto].
        destruct (Hl1 path Hin) as [Hs Hf].
        exists outcome. split; [|auto].
        apply (in_map snd settled'
                      (pending_index (nth k (first :: rest) first), outcome)).
        apply Hi, in_place. auto.
Qed.

Lemma spec_batch_results_reports env a :
  spec env (batch_results a)
       (fun results n => forall path, In path (written n) -> listed results path)
       (fun _ _ => False).
Proof.
  unfold batch_results.
  destruct (match BatchGenerateArgs.parallel a with Some b => b | None => false end).
  - unfold batch_parallel.
    eapply spec_bind; [apply spec_batch_start | intros ? ? [] |].
    intros pending n1 (Hw1 & _).
    eapply spec_bind; [apply spec_batch_settle_reports | intros ? ? [] |].
    intros settled n2 [_ Hl]. apply spec_ret.
    intros path. rewrite app_nil_r, written_app, Hw1. exact (Hl path).
  - eapply spec_weaken; [apply spec_batch_sequential | | auto].
    intros results n [_ Hl]. exact Hl.
Qed.

Lemma batch_text_includes results path :
  listed results path -> includes (batch_text results) path.
Proof.
  intros (r & Hin & Hs & Hf). unfold batch_text.
  do 6 apply includes_left.
  apply (includes_join_map batch_line LF results r Hin).
  unfold batch_line. rewrite Hs, Hf. apply includes_left, includes_refl.
Qed.

Lemma handleBatchGenerate_reports env args :
  spec env (handleBatchGenerate args) reports_files (fun _ _ => True).
Proof.
  unfold handleBatchGenerate.
  eapply spec_bind; [apply spec_lift_quiet | trivial_throw |]. intros a ? ->.
  eapply spec_bind; [apply spec_batch_results_reports | trivial_throw |].
  intros results n Hl. apply spec_ret.
  exists (batch_text results). split; [reflexivity|].
  cbn [app]. rewrite app_nil_r. intros path Hin.
  apply batch_text_includes, Hl, Hin.
Qed.

(** *** The variations *)

Lemma Qlt_bool_turns (i : nat) (count : Q) :
  Qlt_bool (inject_Z (Z.of_nat i)) count = true <-> (i < turns count)%nat.
Proof.
  unfold Qlt_bool, turns. rewrite negb_true_iff.
  split.
  - intros H.
    assert (Hlt : (inject_Z (Z.of_nat i) < count)%Q).
    { apply Qnot_le_lt. intros Hle. apply Qle_bool_iff in Hle. congruence. }
    pose proof (Qle_ceiling count) as Hc.
    pose proof (Qlt_le_trans _ _ _ Hlt Hc) as Hz.
    rewrite <- Zlt_Qlt in Hz. lia.
  - intros H.
    destruct (Qle_bool count (inject_Z (Z.of_nat i))) eqn:E; [|reflexivity].
    apply Qle_bool_iff in E.
    pose proof (Qceiling_lt count) as Hc.
    pose proof (Qlt_le_trans _ _ _ Hc E) as Hz.
    rewrite <- Zlt_Qlt in Hz. lia.
Qed.

(** The fuel given to the loop is never what stops it: more of it
    changes nothing. *)
Lemma for_lt_fuel {S} (count : Q) (body : nat -> S -> M S) :
  forall fuel extra i s env tr,
    (turns count <= i + fuel)%nat ->
    for_lt (fuel + extra) i count body s env tr
    = for_lt fuel i count body s env tr.
Proof.
  induction fuel as [|fuel IH]; intros extra i s env tr Hle.
  - cbn [Nat.add]. destruct extra as [|extra]; [reflexivity|]. cbn [for_lt].
    destruct (Qlt_bool (inject_Z (Z.of_nat i)) count) eqn:E; [|reflexivity].
    apply Qlt_bool_turns in E. lia.
  - cbn [Nat.add for_lt].
    destruct (Qlt_bool (inject_Z (Z.of_nat i)) count); [|reflexivity].
    unfold bind. destruct (body i s env tr) as [[s'|e] tr']; [|reflexivity].
    apply IH. lia.
Qed.

(** A turn of the loop never throws; it sends one request, and pushes
    the path of the file it wrote, if any. *)
Lemma spec_variation_step env outputDir a imagePart i results :
  spec env (variation_step outputDir
              (variationPrompts (GenerateVariationsArgs.variationStrength a))
              (GenerateVariationsArgs.count a) imagePart
              (variationsGenerationConfig
                 (GenerateVariationsArgs.config a)
                 (GenerateVariationsArgs.variationStrength a))
              i results)
       (fun results' n =>
          results' = (results ++ written n)%list
          /\ requests n = [variation_request_of env a imagePart i])
       (fun _ _ => False).
Proof.
  unfold variation_step.
  eapply spec_try_catch
    with (E1 := fun _ n => written n = []
                           /\ requests n = [variation_request_of env a imagePart i]).
  - eapply spec_bind;
      [apply spec_with_env, spec_generateContent
      | intros e n ->; split; reflexivity |].
    intros r ? ->.
    eapply spec_bind; [apply spec_lift_quiet | intros e n ->; split; reflexivity |].
    intros parts ? ->.
    destruct (find_image parts) as [outputImagePart|].
    + eapply spec_bind; [apply spec_saveImage | |].
      * intros e n [Hw Hr]. split; [written_of|].
        cbn [app requests]. rewrite Hr. reflexivity.
      * intros filepath n (Hw & Hr & _). apply spec_ret.
        cbn [app]. rewrite app_nil_r. cbn [written requests].
        rewrite Hw, Hr. auto.
    + apply spec_ret. split; [symmetry; apply app_nil_r | reflexivity].
  - intros e n1 [Hw Hr].
    eapply spec_bind; [apply spec_console_error | intros ? ? [] |].
    intros _ ? ->. apply spec_ret.
    rewrite app_nil_r, written_app, requests_app, Hw, Hr. cbn.
    rewrite app_nil_r. auto.
Qed.

Lemma spec_variations_loop env outputDir a imagePart :
  forall fuel i results,
    (i + fuel = turns (GenerateVariationsArgs.count a))%nat ->
    spec env (for_lt fuel i (GenerateVariationsArgs.count a)
                (variation_step outputDir
                   (variationPrompts (GenerateVariationsArgs.variationStrength a))
                   (GenerateVariationsArgs.count a) imagePart
                   (variationsGenerationConfig
                      (GenerateVariationsArgs.config a)
                      (GenerateVariationsArgs.variationStrength a)))
                results)
         (fun results' n =>
            results' = (results ++ written n)%list
            /\ requests n = map (variation_request_of env a imagePart) (seq i fuel))
         (fun _ _ => False).
Proof.
  induction fuel as [|fuel IH]; intros i results Hk; cbn [for_lt].
  - apply spec_ret. split; [symmetry; apply app_nil_r | reflexivity].
  - assert (E : Qlt_bool (inject_Z (Z.of_nat i)) (GenerateVariationsArgs.count a) = true)
      by (apply Qlt_bool_turns; lia).
    rewrite E.
    eapply spec_bind; [apply spec_variation_step | auto |].
    intros results1 n1 [-> Hr1].
    eapply spec_weaken; [apply IH; lia | | auto].
    intros results2 n2 [-> Hr2].
    rewrite written_app, requests_app, Hr1, Hr2, app_assoc. auto.
Qed.

(** The events of a turn are those of one attempt. *)
Lemma spec_variation_step_events env outputDir a imagePart i results :
  spec env (variation_step outputDir
              (variationPrompts (GenerateVariationsArgs.variationStrength a))
              (GenerateVariationsArgs.count a) imagePart
              (variationsGenerationConfig
                 (GenerateVariationsArgs.config a)
                 (GenerateVariationsArgs.variationStrength a))
              i results)
       (fun _ n => attempt_events (variation_request_of env a imagePart i) n)
       (fun _ _ => False).
Proof.
  unfold variation_step.
  eapply spec_try_catch
    with (E1 := fun _ n => attempt_events (variation_request_of env a imagePart i) n).
  - eapply spec_bind; [apply spec_with_env, spec_generateContent | |].
    { intros e n ->. exists []. split; reflexivity. }
    intros r ? ->.
    eapply spec_bind; [apply spec_lift_quiet | |].
    { intros e n ->. exists []. split; reflexivity. }
    intros parts ? ->.
    destruct (find_image parts) as [outputImagePart|].
    + eapply spec_bind; [apply spec_saveImage | |].
      * intros e n [_ Hr]. exists n. split; [reflexivity | exact Hr].
      * intros filepath n (_ & Hr & _). apply spec_ret.
        exists (n ++ [])%list. split; [reflexivity|].
        rewrite app_nil_r. exact Hr.
    + apply spec_ret. exists []. split; reflexivity.
  - intros e n1 (rest & -> & Hr).
    eapply spec_bind; [apply spec_console_error | intros ? ? [] |].
    intros _ ? ->. apply spec_ret.
    eexists. split; [reflexivity|].
    rewrite requests_app, Hr. reflexivity.
Qed.

(** The events of the loop are those of its attempts, one after the
    other. *)
Lemma spec_variations_loop_events env outputDir a imagePart :
  forall fuel i results,
    (i + fuel = turns (GenerateVariationsArgs.count a))%nat ->
    spec env (for_lt fuel i (GenerateVariationsArgs.count a)
                (variation_step outputDir
                   (variationPrompts (GenerateVariationsArgs.variationStrength a))
                   (GenerateVariationsArgs.count a) imagePart
                   (variationsGenerationConfig
                      (GenerateVariationsArgs.config a)
                      (GenerateVariationsArgs.variationStrength a)))
                results)
         (fun _ n =>
            exists attempts,
              n = concat attempts
              /\ Forall2 attempt_events
                         (map (variation_request_of env a imagePart) (seq i fuel))
                         attempts)
         (fun _ _ => False).
Proof.
  induction fuel as [|fuel IH]; intros i results Hk; cbn [for_lt].
  - apply spec_ret. exists []. split; [reflexivity | constructor].
  - assert (E : Qlt_bool (inject_Z (Z.of_nat i)) (GenerateVariationsArgs.count a) = true)
      by (apply Qlt_bool_turns; lia).
    rewrite E.
    eapply spec_bind; [apply spec_variation_step_events | auto |].
    intros results1 n1 H1.
    eapply spec_weaken; [apply IH; lia | | auto].
    intros results2 n2 (attempts & -> & H2).
    exists (n1 :: attempts). split; [reflexivity|].
    constructor; assumption.
Qed.

Lemma spec_variations_baseImage env imageData imagePath :
  spec env (variations_baseImage imageData imagePath)
       (fun _ n => quiet n) (fun _ n => quiet n).
Proof.
  unfold variations_baseImage.
  destruct (truthy imageData); [apply spec_ret; split; reflexivity|].
  destruct (truthy imagePath); [|apply spec_throw; split; reflexivity].
  eapply spec_bind; [apply spec_readFile | intros e n ->; split; reflexivity|].
  intros data n ->. apply spec_ret. split; reflexivity.
Qed.

(** The whole of the variations: when the base image is there, one
    request per turn, in order, and the paths of the files written. *)
Lemma spec_variations_results env a :
  spec env (variations_results a)
       (fun results n =>
          results = written n
          /\ exists imagePart,
               requests n
               = map (variation_request_of env a imagePart)
                     (seq 0 (turns (GenerateVariationsArgs.count a))))
       (fun _ n => quiet n).
Proof.
  unfold variations_results.
  eapply spec_bind; [apply spec_variations_baseImage | auto |].
  intros imagePart n0 [Hw0 Hr0].
  eapply spec_weaken;
    [apply (spec_variations_loop env _ a imagePart); reflexivity | | intros ? ? []].
  intros results n [-> Hr].
  rewrite written_app, requests_app, Hw0, Hr0. split; [reflexivity|].
  exists imagePart. exact Hr.
Qed.

Lemma variations_text_includes results path :
  In path results -> includes (variations_text results) path.
Proof.
  intros Hin. unfold variations_text. do 4 apply includes_left.
  apply (includes_join_map (fun f => "- " ++ f) LF results path Hin).
  apply includes_left, includes_refl.
Qed.

Lemma handleGenerateVariations_reports env args :
  spec env (handleGenerateVariations args) reports_files (fun _ _ => True).
Proof.
  unfold handleGenerateVariations.
  eapply spec_bind; [apply spec_lift_quiet | trivial_throw |]. intros a ? ->.
  eapply spec_bind; [apply spec_variations_results | trivial_throw |].
  intros results n [-> _]. apply spec_ret.
  exists (variations_text (written n)). split; [reflexivity|].
  cbn [app]. rewrite app_nil_r. apply variations_text_includes.
Qed.

End Handlers.

(** ** The dispatcher *)

Module Dispatcher.
Import Js Zod Props ZodFacts Validation Logic Handlers.

Lemma dispatch_reports env name args :
  spec env (dispatch name args) reports_files (fun _ _ => True).
Proof.
  unfold dispatch.
  destruct (String.eqb name "generate_image"); [apply handleGenerateImage_reports|].
  destruct (String.eqb name "edit_image"); [apply handleEditImage_reports|].
  destruct (String.eqb name "analyze_image"); [apply handleAnalyzeImage_reports|].
  destruct (String.eqb name "multi_image_edit"); [apply handleMultiImageEdit_reports|].
  destruct (String.eqb name "batch_generate"); [apply handleBatchGenerate_reports|].
  destruct (String.eqb name "generate_variations");
    [apply handleGenerateVariations_reports|].
  destruct (String.eqb name "generate_with_template");
    [apply handleGenerateWithTemplate_reports|].
  destruct (String.eqb name "compare_images"); [apply handleCompareImages_reports|].
  apply spec_throw. exact I.
Qed.

(** C4: whatever the tool name, the arguments and the environment, the
    dispatcher returns a result and never throws.  When the handler
    threw, the result has [isError: true] and the single text block
    "Error: " followed by the error's message; when the handler
    returned, the result is the handler's: one text block, no [isError],
    and the text includes the path of every file the call wrote. *)
Theorem C4_dispatcher_never_throws (env : Env) (name : String.string) (args : value) :
  exists result trace,
    run (CallTool name args) env = (Ok result, trace)
    /\ ((exists error,
           fst (run (dispatch name args) env) = Throw error
           /\ result
              = {| content := [{| type := "text";
                                  text := "Error: " ++ errorMessage env error |}];
                   isError := Some true |})
        \/ (fst (run (dispatch name args) env) = Ok result
            /\ exists text,
                 result = {| content := [{| type := "text"; text := text |}];
                             isError := None |}
                 /\ forall path, In path (written trace) -> includes text path)).
Proof.
  pose proof (spec_run (dispatch_reports env name args)) as H.
  unfold run, CallTool, try_catch in *.
  destruct (dispatch name args env []) as [[result|error] trace].
  - exists result, trace. split; [reflexivity|]. right. split; [reflexivity|].
    destruct H as (text & -> & Hin). exists text. auto.
  - eexists _, trace. split; [reflexivity|]. left. exists error. auto.
Qed.

(** C10: a call whose name is none of the eight tools is answered with
    [isError: true] and the single text block "Error: Unknown tool: "
    followed by the name, and nothing is read, written or requested. *)
Theorem C10_unknown_tool (env : Env) (name : String.string) (args : value) :
  ~ In name tool_names ->
  run (CallTool name args) env
  = (Ok {| content := [{| type := "text";
                          text := "Error: Unknown tool: " ++ name |}];
           isError := Some true |},
     []).
Proof.
  intros Hn. unfold run, CallTool, try_catch, dispatch.
  repeat match goal with
         | |- context [String.eqb name ?s] =>
             destruct (String.eqb_spec name s) as [->|_];
             [exfalso; apply Hn; cbn; tauto|]
         end.
  reflexivity.
Qed.

Lemma C10_unknown_tool_witness :
  ~ In "upscale_image" tool_names
  /\ run (CallTool "upscale_image" (VObj [("prompt", VStr "a cat")])) Demo.png_env
     = (Ok {| content := [{| type := "text";
                             text := "Error: Unknown tool: upscale_image" |}];
              isError := Some true |},
        []).
Proof.
  assert (H : ~ In "upscale_image" tool_names).
  { cbn. intros H. repeat destruct H as [H|H]; try discriminate H. exact H. }
  split; [exact H|].
  exact (C10_unknown_tool Demo.png_env (VObj [("prompt", VStr "a cat")]) H).
Defined.

(** A handler whose arguments fail validation throws the [ZodError]
    from an untouched trace, and the dispatcher turns it into a result. *)
Ltac rejected schema args needs :=
  let H := fresh "H" in
  let issues := fresh "issues" in
  destruct (parse_cases schema args) as [H|[issues H]];
  [ exfalso; exact (needs H)
  | exists issues;
    unfold run, CallTool, try_catch, dispatch; cbn [String.eqb Ascii.eqb Bool.eqb];
    match goal with |- context [?h _ _ []] => unfold h end;
    unfold bind, lift; rewrite H; reflexivity ].

(** C5: a call of [edit_image], [analyze_image] or [generate_variations]
    that supplies neither [imageData] nor [imagePath], a call of
    [multi_image_edit] one of whose [images] supplies neither, and a call
    of [compare_images] without one of its two paths, all fail the
    validation of their arguments: the answer is the error result of a
    [ZodError], and the trace is empty, so that no file was read or
    written, no directory made and no request sent. *)
Theorem C5_no_image_no_effect (env : Env) (name : String.string) (args : value) :
  lacks_image name args ->
  exists issues,
    run (CallTool name args) env
    = (Ok (error_result env (ZodError issues)), []).
Proof.
  intros [[Hname Hn]|[[-> (l & e & Hl & Hin & He)]|[-> Hp]]].
  - destruct Hname as [<-|[<-|[<-|[]]]].
    + rejected EditImageArgsSchema args (EditImageArgs_needs_image Hn).
    + rejected AnalyzeImageArgsSchema args (AnalyzeImageArgs_needs_image Hn).
    + rejected GenerateVariationsArgsSchema args (GenerateVariationsArgs_needs_image Hn).
  - rejected MultiImageEditArgsSchema args (MultiImageEditArgs_needs_images Hl Hin He).
  - rejected CompareImagesArgsSchema args (CompareImagesArgs_needs_paths Hp).
Qed.

Lemma C5_no_image_no_effect_witness :
  lacks_image "multi_image_edit"
              (VObj [("prompt", VStr "merge");
                     ("images", VArr [VObj [("imagePath", VStr "a.png")];
                                      VObj [("description", VStr "pose")]])])
  /\ exists issues,
       run (CallTool "multi_image_edit"
              (VObj [("prompt", VStr "merge");
                     ("images", VArr [VObj [("imagePath", VStr "a.png")];
                                      VObj [("description", VStr "pose")]])]))
           Demo.png_env
       = (Ok (error_result Demo.png_env (ZodError issues)), []).
Proof.
  assert (H : lacks_image "multi_image_edit"
                (VObj [("prompt", VStr "merge");
                       ("images", VArr [VObj [("imagePath", VStr "a.png")];
                                        VObj [("description", VStr "pose")]])])).
  { right. left. split; [reflexivity|].
    exists [VObj [("imagePath", VStr "a.png")]; VObj [("description", VStr "pose")]],
           (VObj [("description", VStr "pose")]).
    split; [reflexivity|]. split; [cbn; auto | split; reflexivity]. }
  split; [exact H|].
  exact (C5_no_image_no_effect Demo.png_env H).
Defined.

End Dispatcher.

(** ** [generate_variations] *)

Module Variations.
Import Js Zod Props ZodFacts Validation Logic Handlers.


(** Validation hands the caller's temperature over as it came. *)
Lemma config_temperature_of_args args a :
  parse GenerateVariationsArgsSchema args = Ok a ->
  config_temperature a = caller_temperature args.
Proof.
  intros H. unfold GenerateVariationsArgsSchema in H.
  apply parse_refine in H as [_ H].
  apply parse_ok_value in H as [H _].
  apply object_value in H as (fs & -> & H).
  open_shape H.
  unfold config_temperature, caller_temperature. cbn [GenerateVariationsArgs.config field].
  match goal with
  | E : parsed_value (optional GenerationConfigSchema _ _) = Some _ |- _ =>
      rename E into Hc
  end.
  unfold optional in Hc.
  destruct (lookup "config" fs) as [| | | | | |cfs] eqn:Ec;
    cbn [parsed_value] in Hc;
    try (cbn in Hc; discriminate Hc);
    try (cbn in Hc; inversion Hc; subst; reflexivity).
  match type of Hc with
  | option_map Some (parsed_value ?r) = _ => destruct (parsed_value r) as [c|] eqn:Ev
  end; [|discriminate Hc].
  cbn in Hc. inversion Hc; subst; clear Hc.
  unfold GenerationConfigSchema in Ev.
  apply object_value in Ev as (fs' & Efs & Ev). inversion Efs; subst fs'; clear Efs.
  open_shape Ev. cbn [GenerationConfig.temperature field].
  match goal with
  | E : parsed_value (optional (max 2 (min 0 number)) _ (lookup "temperature" cfs))
        = Some ?t |- _ => rename E into Ht
  end.
  unfold optional, max, min, check, number in Ht.
  destruct (lookup "temperature" cfs); cbn in Ht;
    try discriminate Ht; try (inversion Ht; subst; reflexivity).
  destruct (Qle_bool 0 q); cbn in Ht; destruct (Qle_bool q 2); cbn in Ht;
    inversion Ht; reflexivity.
Qed.




(** An attempt whose request is answered with an image, when the
    directory can be made and the file written, writes that image under
    the name of its variation; so its path is among those the text
    lists. *)
Lemma attempt_answered_is_saved env outputDir i req t events response parts part :
  attempt_at env outputDir i req t events ->
  env_generateContent env t (fst req) (snd req) = Ok response ->
  first_candidate_parts response = Ok parts ->
  find_image parts = Some part ->
  env_mkdir env (t + 1 + 1) outputDir = Ok tt ->
  env_writeFile env (t + 1 + 2)
    (NodePath.join outputDir
       (variation_filename i (replace_colon_dot (env_toISOString env (t + 1)))))
    (Gemini.data part)
  = Ok tt ->
  events
  = [EGenerateContent (fst req) (snd req); EDate; EMkdir outputDir;
     EWriteFile
       (NodePath.join outputDir
          (variation_filename i (replace_colon_dot (env_toISOString env (t + 1)))))
       (Gemini.data part) true].
Proof.
  intros (rest & -> & H) Hg Hp Hf Hm Hw.
  rewrite Hg, Hp, Hf in H. unfold variation_saved in H.
  rewrite Hm, Hw in H. subst rest. reflexivity.
Qed.

(** An attempt whose request throws logs the failure and does nothing
    else. *)
Lemma attempt_thrown_is_logged env outputDir i req t events error :
  attempt_at env outputDir i req t events ->
  env_generateContent env t (fst req) (snd req) = Throw error ->
  events = [EGenerateContent (fst req) (snd req); variation_failure i error].
Proof. intros (rest & -> & H) Hg. rewrite Hg in H. subst rest. reflexivity. Qed.




(** The second of three attempts throws: the first and the third
    variation are saved and listed, and the failure is logged. *)
Example variations_second_attempt_throws :
  fst (run (CallTool "generate_variations" (VObj [("imagePath", VStr "a.gif")]))
           Demo.second_variation_throws_env)
  = Ok (success ("Generated 2 variations:" ++ LF
                 ++ "- variation-1-2025-01-02T03-04-05-678Z.png" ++ LF
                 ++ "- variation-3-2025-01-02T03-04-05-678Z.png"))
  /\ In (EConsoleError "Failed to generate variation 2:"
                       (Error "503 Service Unavailable"))
        (snd (run (CallTool "generate_variations"
                     (VObj [("imagePath", VStr "a.gif")]))
                  Demo.second_variation_throws_env)).
Proof. split; [reflexivity|]. vm_compute. tauto. Qed.

(** C7: every request that a call of [generate_variations] sends has a
    temperature: the one of the caller's config when that gives one, and
    otherwise (no config, or a config without temperature) 0.3, 0.7 or
    1.2 for the strength subtle, moderate or strong. *)
Theorem C7_variations_temperature (env : Env) (args : value)
        (a : GenerateVariationsArgs.t)
        (model : String.string) (request : Gemini.Request) :
  parse GenerateVariationsArgsSchema args = Ok a ->
  In (model, request) (requests (snd (run (handleGenerateVariations args) env))) ->
  sent_temperature request
  = Some match caller_temperature args with
         | Some t => t
         | None =>
             match GenerateVariationsArgs.variationStrength a with
             | subtle => 3 # 10
             | moderate => 7 # 10
             | strong => 12 # 10
             end
         end.
Proof.
  intros Hparse Hin.
  rewrite <- (config_temperature_of_args _ Hparse).
  revert Hin. unfold run, handleGenerateVariations, bind, lift. rewrite Hparse.
  destruct (spec_variations_results env a []) as (new & Htr & Hpost).
  destruct (variations_results a env []) as [[results|e] tr']; cbn in *; subst tr'.
  - destruct Hpost as [_ (imagePart & ->)].
    intros Hin. apply in_map_iff in Hin as (i & Hreq & _).
    inversion Hreq; subst. unfold config_temperature.
    destruct a as [? ? ? s ? [c|]]; cbn; [|destruct s; reflexivity].
    destruct (GenerationConfig.temperature c); [reflexivity|].
    destruct s; reflexivity.
  - destruct Hpost as [_ ->]. intros [].
Qed.

Lemma C7_variations_temperature_witness :
  let args := VObj [("imageData", VStr "iVBORw0KGgo=");
                    ("count", VNum 1);
                    ("variationStrength", VStr "subtle");
                    ("config", VObj [("topK", VNum 20)])] in
  let a := GenerateVariationsArgs.Build
             None (Some "iVBORw0KGgo=") 1 subtle None
             (Some (GenerationConfig.Build None None (Some 20) None)) in
  let request :=
    variation_request Demo.png_env (variationPrompts subtle) 0 1
      {| Gemini.data := "iVBORw0KGgo="; Gemini.mimeType := "image/png" |}
      (variationsGenerationConfig
         (Some (GenerationConfig.Build None None (Some 20) None)) subtle) in
  parse GenerateVariationsArgsSchema args = Ok a
  /\ In (image_model, request)
        (requests (snd (run (handleGenerateVariations args) Demo.png_env)))
  /\ sent_temperature request = Some (3 # 10).
Proof.
  intros args a request.
  assert (H1 : parse GenerateVariationsArgsSchema args = Ok a) by reflexivity.
  assert (H2 : In (image_model, request)
                  (requests (snd (run (handleGenerateVariations args)
                                      Demo.png_env))))
    by (left; reflexivity).
  split; [exact H1|]. split; [exact H2|].
  exact (C7_variations_temperature Demo.png_env args image_model request H1 H2).
Defined.

End Variations.


(** ** [batch_generate] *)

Module Batch.
Import Js Zod Props Logic Handlers.

Lemma seq_sorted : forall len start, StronglySorted le (seq start len).
Proof.
  induction len as [|len IH]; intros start; cbn; constructor; [apply IH|].
  apply Forall_forall. intros x Hx. apply in_seq in Hx. lia.
Qed.

(** Two sorted lists with the same elements are the same list. *)
Lemma sorted_permutation_eq : forall l1 l2 : list nat,
  StronglySorted le l1 -> StronglySorted le l2 -> Permutation l1 l2 -> l1 = l2.
Proof.
  induction l1 as [|x l1 IH]; intros l2 H1 H2 Hp.
  - apply Permutation_nil in Hp. congruence.
  - destruct l2 as [|y l2].
    + apply Permutation_sym, Permutation_nil in Hp. discriminate.
    + apply StronglySorted_inv in H1 as [H1 Hx].
      apply StronglySorted_inv in H2 as [H2 Hy].
      rewrite Forall_forall in Hx, Hy.
      assert (Hxy : (y <= x)%nat).
      { assert (Hin : In x (y :: l2))
          by (eapply Permutation_in; [exact Hp | left; reflexivity]).
        destruct Hin as [->|Hin]; [lia | auto]. }
      assert (Hyx : (x <= y)%nat).
      { assert (Hin : In y (x :: l1))
          by (eapply Permutation_in;
              [apply Permutation_sym; exact Hp | left; reflexivity]).
        destruct Hin as [->|Hin]; [lia | auto]. }
      assert (x = y) by lia. subst y.
      f_equal. apply IH; auto. eapply Permutation_cons_inv; exact Hp.
Qed.

Lemma place_permutation {A} (x : nat * A) l :
  Permutation (map fst (place x l)) (fst x :: map fst l).
Proof.
  induction l as [|y l IH]; cbn [place]; [reflexivity|].
  destruct (fst x <? fst y)%nat; [reflexivity|].
  cbn [map]. rewrite IH. apply perm_swap.
Qed.

Lemma place_sorted {A} (x : nat * A) l :
  StronglySorted le (map fst l) -> StronglySorted le (map fst (place x l)).
Proof.
  induction l as [|y l IH]; cbn [place map]; intros Hs.
  - constructor; constructor.
  - destruct (fst x <? fst y)%nat eqn:E.
    + cbn [map]. constructor; [exact Hs|].
      apply Nat.ltb_lt in E.
      apply StronglySorted_inv in Hs as [_ Hy]. rewrite Forall_forall in Hy.
      apply Forall_forall. intros z [<-|Hz]; [lia|].
      specialize (Hy z Hz). lia.
    + cbn [map]. apply Nat.ltb_ge in E.
      apply StronglySorted_inv in Hs as [Hs Hy].
      constructor; [apply IH, Hs|].
      eapply Permutation_Forall; [apply Permutation_sym, place_permutation|].
      constructor; [exact E | exact Hy].
Qed.

Lemma remove_nth_permutation {A} (d : A) : forall l k,
  (k < List.length l)%nat -> Permutation l (nth k l d :: remove_nth k l).
Proof.
  induction l as [|x l IH]; intros k Hk; [cbn in Hk; lia|].
  destruct k as [|k]; cbn [nth remove_nth]; [reflexivity|].
  cbn in Hk. rewrite (IH k) at 1 by lia. apply perm_swap.
Qed.

(** Prompts in place: what sits at number [start + j] is for prompt [j]. *)
Lemma prompts_aligned : forall (settled : list (nat * BatchOutcome)) start prompts,
  map fst settled = seq start (List.length prompts) ->
  (forall i o, In (i, o) settled ->
               nth_error prompts (i - start) = Some (outcome_prompt o)) ->
  map (fun x => outcome_prompt (snd x)) settled = prompts.
Proof.
  induction settled as [|[i o] settled IH]; intros start prompts Hseq Hp;
    destruct prompts as [|prompt prompts]; try discriminate Hseq; [reflexivity|].
  cbn in Hseq. inversion Hseq as [[Hi Hrest]]. subst i. cbn [map snd].
  assert (Ho : nth_error (prompt :: prompts) (start - start) = Some (outcome_prompt o))
    by (apply Hp; left; reflexivity).
  rewrite Nat.sub_diag in Ho. cbn in Ho. inversion Ho as [Hprompt].
  f_equal. apply (IH (S start)); [exact Hrest|].
  intros i o' Hin.
  assert (Hi : In i (seq (S start) (List.length prompts))).
  { rewrite <- Hrest. apply (in_map fst settled (i, o')). exact Hin. }
  apply in_seq in Hi.
  specialize (Hp i o' (or_intror Hin)).
  replace (i - start)%nat with (S (i - S start)) in Hp by lia.
  exact Hp.
Qed.

Lemma started_aligned (pending : list Pending) prompts :
  map pending_index pending = seq 0 (List.length prompts) ->
  map pending_prompt pending = prompts ->
  forall task, In task pending ->
               nth_error prompts (pending_index task) = Some (pending_prompt task).
Proof.
  intros Hi Hp task Hin.
  apply In_nth_error in Hin as [j Hj].
  assert (Hji : nth_error (map pending_index pending) j = Some (pending_index task))
    by (apply map_nth_error; exact Hj).
  assert (Hjp : nth_error (map pending_prompt pending) j = Some (pending_prompt task))
    by (apply map_nth_error; exact Hj).
  rewrite Hi in Hji. rewrite Hp in Hjp.
  assert (Hlt : (j < List.length prompts)%nat)
    by (apply nth_error_Some; congruence).
  assert (Hnth : nth j (seq 0 (List.length prompts)) 0%nat = pending_index task)
    by (apply nth_error_nth; exact Hji).
  rewrite seq_nth in Hnth by exact Hlt. cbn in Hnth. subst j. exact Hjp.
Qed.

(** Settling the pending tasks, in whatever order, leaves one outcome for
    each, sorted by the index of its task. *)
Lemma spec_batch_settle_order env outputDir prompts :
  forall n pending settled,
    List.length pending = n ->
    StronglySorted le (map fst settled) ->
    (forall task, In task pending ->
                  nth_error prompts (pending_index task)
                  = Some (pending_prompt task)) ->
    (forall i o, In (i, o) settled ->
                 nth_error prompts i = Some (outcome_prompt o)) ->
    spec env (batch_settle outputDir n pending settled)
         (fun settled' _ =>
            StronglySorted le (map fst settled')
            /\ Permutation (map fst settled')
                           (map pending_index pending ++ map fst settled)
            /\ forall i o, In (i, o) settled' ->
                           nth_error prompts i = Some (outcome_prompt o))
         (fun _ _ => False).
Proof.
  induction n as [|n IH]; intros pending settled Hlen Hs Hpend Hset;
    cbn [batch_settle].
  - destruct pending; [|discriminate Hlen]. apply spec_ret. auto.
  - destruct pending as [|first rest]; [discriminate Hlen|].
    eapply spec_bind; [apply spec_settles_next; cbn; lia | intros ? ? [] |].
    intros k ? [Hk ->].
    eapply spec_bind; [apply spec_batch_resume | intros ? ? [] |].
    intros outcome n1 [Hprompt _].
    set (pending := first :: rest) in *.
    set (task := nth k pending first) in *.
    pose proof (remove_nth_permutation first pending Hk) as Hperm.
    fold task in Hperm.
    assert (Htask : In task pending) by (apply nth_In; exact Hk).
    eapply spec_weaken; [apply IH | | auto].
    + apply Permutation_length in Hperm. cbn [List.length] in Hperm.
      rewrite Hlen in Hperm. lia.
    + apply place_sorted, Hs.
    + intros task' Hin. apply Hpend.
      eapply Permutation_in; [apply Permutation_sym, Hperm | right; exact Hin].
    + intros i o Hin. apply in_place in Hin as [Heq|Hin]; [|auto].
      inversion Heq; subst. rewrite Hprompt. apply Hpend, Htask.
    + intros settled' n2 (Hs' & Hp' & Hset'). split; [exact Hs'|].
      split; [|exact Hset'].
      rewrite Hp'. rewrite (place_permutation _ settled). cbn [fst].
      rewrite (Permutation_map pending_index Hperm). cbn [map app].
      apply Permutation_sym, Permutation_middle.
Qed.

(** In parallel mode there is exactly one outcome per prompt, and outcome
    number [i] is the one of prompt number [i], whatever the order in
    which the answers arrive. *)
Lemma batch_parallel_outcomes env outputDir config prompts :
  spec env (batch_parallel outputDir config prompts)
       (fun results _ => map outcome_prompt results = prompts)
       (fun _ _ => False).
Proof.
  unfold batch_parallel.
  eapply spec_bind; [apply spec_batch_start | intros ? ? [] |].
  intros pending n1 (_ & Hi & Hp).
  eapply spec_bind;
    [apply (@spec_batch_settle_order env outputDir prompts
              (List.length pending) pending [] eq_refl)
    | intros ? ? [] |].
  - constructor.
  - apply started_aligned; assumption.
  - intros i o [].
  - intros settled n2 (Hs & Hperm & Hset). apply spec_ret.
    rewrite app_nil_r, Hi in Hperm.
    pose proof (sorted_permutation_eq Hs (seq_sorted _ 0) Hperm) as Hseq.
    rewrite map_map. apply (prompts_aligned settled 0 prompts Hseq).
    intros i o Hin. rewrite Nat.sub_0_r. apply Hset, Hin.
Qed.

(** In sequential mode an outcome is pushed for a prompt unless the
    answer to it comes without parts. *)
Lemma spec_batch_sequential_step_answered env outputDir config i prompt results :
  ~ answers_without_parts env ->
  spec env (batch_sequential_step outputDir config i prompt results)
       (fun results' _ =>
          map outcome_prompt results'
          = (map outcome_prompt results ++ [prompt])%list)
       (fun _ _ => False).
Proof.
  intros Hn. unfold batch_sequential_step.
  eapply spec_try_catch with (E1 := fun _ _ => True).
  - eapply spec_bind; [apply spec_generateContent_answer | auto |].
    intros r ? [-> [t Ht]].
    apply spec_bind_lift.
    destruct (first_candidate_parts r) as [[ps|]|e] eqn:Ep; [| |exact I].
    + destruct (find_image (Some ps)) as [imagePart|].
      * eapply spec_bind; [apply spec_saveImage | auto |].
        intros filepath n _. apply spec_ret. rewrite map_app. reflexivity.
      * apply spec_ret. rewrite map_app. reflexivity.
    + exfalso. apply Hn. exists t, image_model, (batch_request config prompt), r.
      auto.
  - intros e n1 _. apply spec_with_env. apply spec_ret.
    rewrite map_app. reflexivity.
Qed.

Lemma batch_sequential_outcomes env outputDir config prompts :
  ~ answers_without_parts env ->
  forall i results,
    spec env (batch_sequential outputDir config i prompts results)
         (fun results' _ =>
            map outcome_prompt results'
            = (map outcome_prompt results ++ prompts)%list)
         (fun _ _ => False).
Proof.
  intros Hn.
  induction prompts as [|prompt rest IH]; intros i results; cbn [batch_sequential].
  - apply spec_ret. rewrite app_nil_r. reflexivity.
  - eapply spec_bind;
      [apply spec_batch_sequential_step_answered; exact Hn | auto |].
    intros results1 n1 H1.
    eapply spec_weaken; [apply IH | | auto].
    intros results2 n2 H2. cbn beta in H2.
    rewrite H2, H1, <- app_assoc. reflexivity.
Qed.

(** The answers arrive last request first: the file of "C" is written
    before the one of "A", and the outcomes still come in the order of the
    prompts. *)
Example parallel_outcomes_last_first :
  batch_outcomes prompts_ABC_parallel Demo.blocked_B_last_first_env
  = Ok [succeeded "A" "batch-1-2025-01-02T03-04-05-678Z.png";
        failed "B" "No image generated";
        succeeded "C" "batch-3-2025-01-02T03-04-05-678Z.png"]
  /\ written (snd (run (CallTool "batch_generate" prompts_ABC_parallel)
                       Demo.blocked_B_last_first_env))
     = ["batch-3-2025-01-02T03-04-05-678Z.png";
        "batch-1-2025-01-02T03-04-05-678Z.png"].
Proof. split; reflexivity. Qed.

End Batch.


(** ** Where the handlers differ *)

Module Divergences.
Import Js Zod Props Logic Handlers.

(** C1, where the code departs from it: the model answers prompt "B"
    without candidates.  In sequential mode the loop pushes nothing for
    "B" and two outcomes come back for three prompts; in parallel mode,
    in the same environment, there are three, "B" being a failure. *)
Theorem C1_sequential_batch_loses_outcome :
  batch_outcomes prompts_ABC Demo.blocked_B_env
  = Ok [succeeded "A" "batch-1-2025-01-02T03-04-05-678Z.png";
        succeeded "C" "batch-3-2025-01-02T03-04-05-678Z.png"]
  /\ batch_outcomes prompts_ABC_parallel Demo.blocked_B_env
     = Ok [succeeded "A" "batch-1-2025-01-02T03-04-05-678Z.png";
           failed "B" "No image generated";
           succeeded "C" "batch-3-2025-01-02T03-04-05-678Z.png"]
  /\ fst (run (CallTool "batch_generate" prompts_ABC) Demo.blocked_B_env)
     = Ok (success ("Batch generation completed: 2 successful, 0 failed" ++ LF
                    ++ "✓ batch-1-2025-01-02T03-04-05-678Z.png" ++ LF
                    ++ "✓ batch-3-2025-01-02T03-04-05-678Z.png")).
Proof. repeat split; reflexivity. Qed.

(** The rule of [handleGenerateImage], [handleEditImage] and
    [handleMultiImageEdit]: [.jpg] for [image/jpeg], [.png] otherwise. *)
Lemma extension_of_mimeType_rule (mimeType : String.string) :
  (mimeType = "image/jpeg" -> extension_of_mimeType mimeType = ".jpg")
  /\ (mimeType <> "image/jpeg" -> extension_of_mimeType mimeType = ".png").
Proof.
  unfold extension_of_mimeType. split.
  - intros ->. reflexivity.
  - intros Hn. destruct (String.eqb mimeType "image/png"); [reflexivity|].
    destruct (String.eqb_spec mimeType "image/jpeg"); [contradiction|reflexivity].
Qed.

(** The file names of the other three handlers end in [.png] whatever
    the answer holds. *)
Lemma batch_filename_png index timestamp :
  exists stem, batch_filename index timestamp = stem ++ ".png".
Proof.
  unfold batch_filename. eexists.
  rewrite <- !StringFacts.append_assoc. reflexivity.
Qed.

Lemma variation_filename_png i timestamp :
  exists stem, variation_filename i timestamp = stem ++ ".png".
Proof.
  unfold variation_filename. eexists.
  rewrite <- !StringFacts.append_assoc. reflexivity.
Qed.

(** The three handlers that look at the type of the answer name their
    file after it. *)
Lemma handleGenerateImage_extension env args :
  spec env (handleGenerateImage args)
       (fun _ n =>
          forall path, In path (written n) ->
            exists a, parse GenerateImageArgsSchema args = Ok a
                      /\ named_after_mimeType env
                           (or_default (GenerateImageArgs.outputDir a) ".")
                           "generated-image-" "No image was generated" path)
       (fun _ n => written n = []).
Proof.
  unfold handleGenerateImage.
  apply spec_bind_lift.
  destruct (parse GenerateImageArgsSchema args) as [a|e] eqn:Hp; [|reflexivity].
  eapply spec_bind;
    [apply spec_generateContent_answer | intros ? ? ->; reflexivity |].
  intros response ? [-> [t Ht]].
  apply spec_bind_lift.
  destruct (extractImage "No image was generated" response) as [imagePart|e] eqn:Hx;
    [|reflexivity].
  eapply spec_bind; [apply spec_saveImage | |].
  - intros e n [Hw _]. cbn [app written]. exact Hw.
  - intros filepath n (Hw & _ & timestamp & Hf). apply spec_ret.
    rewrite app_nil_r. cbn [app written]. rewrite Hw.
    intros path [<-|[]]. exists a. split; [reflexivity|].
    do 3 eexists. exists response, imagePart, timestamp. eauto.
Qed.

Lemma handleEditImage_extension env args :
  spec env (handleEditImage args)
       (fun _ n =>
          forall path, In path (written n) ->
            exists a, parse EditImageArgsSchema args = Ok a
                      /\ named_after_mimeType env
                           (or_default (EditImageArgs.outputDir a) ".")
                           "edited-image-" "No edited image was generated" path)
       (fun _ n => written n = []).
Proof.
  unfold handleEditImage.
  apply spec_bind_lift.
  destruct (parse EditImageArgsSchema args) as [a|e] eqn:Hp; [|reflexivity].
  eapply spec_bind; [apply spec_resolveImage | intros ? ? [Hw _]; exact Hw |].
  intros part n0 [Hw0 _].
  eapply spec_bind; [apply spec_generateContent_answer | |].
  { intros ? ? ->. rewrite written_app, Hw0. reflexivity. }
  intros response ? [-> [t Ht]].
  apply spec_bind_lift.
  destruct (extractImage "No edited image was generated" response)
    as [imagePart|e] eqn:Hx.
  - eapply spec_bind; [apply spec_saveImage | |].
    + intros e n [Hw _]. rewrite !written_app, Hw0, Hw. reflexivity.
    + intros filepath n (Hw & _ & timestamp & Hf). apply spec_ret.
      rewrite app_nil_r, !written_app, Hw0, Hw. cbn [app written].
      intros path [<-|[]]. exists a. split; [reflexivity|].
      do 3 eexists. exists response, imagePart, timestamp. eauto.
  - rewrite app_nil_r, written_app, Hw0. reflexivity.
Qed.

Lemma handleMultiImageEdit_extension env args :
  spec env (handleMultiImageEdit args)
       (fun _ n =>
          forall path, In path (written n) ->
            exists a, parse MultiImageEditArgsSchema args = Ok a
                      /\ named_after_mimeType env
                           (or_default (MultiImageEditArgs.outputDir a) ".")
                           "multi-image-result-"
                           "No multi-image result was generated" path)
       (fun _ n => written n = []).
Proof.
  unfold handleMultiImageEdit.
  apply spec_bind_lift.
  destruct (parse MultiImageEditArgsSchema args) as [a|e] eqn:Hp; [|reflexivity].
  eapply spec_bind; [apply spec_resolveImages | intros ? ? [Hw _]; exact Hw |].
  intros parts n0 [Hw0 _].
  eapply spec_bind; [apply spec_generateContent_answer | |].
  { intros ? ? ->. rewrite written_app, Hw0. reflexivity. }
  intros response ? [-> [t Ht]].
  apply spec_bind_lift.
  destruct (extractImage "No multi-image result was generated" response)
    as [imagePart|e] eqn:Hx.
  - eapply spec_bind; [apply spec_saveImage | |].
    + intros e n [Hw _]. rewrite !written_app, Hw0, Hw. reflexivity.
    + intros filepath n (Hw & _ & timestamp & Hf). apply spec_ret.
      rewrite app_nil_r, !written_app, Hw0, Hw. cbn [app written].
      intros path [<-|[]]. exists a. split; [reflexivity|].
      do 3 eexists. exists response, imagePart, timestamp. eauto.
  - rewrite app_nil_r, written_app, Hw0. reflexivity.
Qed.

(** C2, where the code departs from it: the model answers with a part
    of type [image/jpeg].  [generate_image] saves it as [.jpg];
    [batch_generate], [generate_variations] and [generate_with_template]
    save the same bytes under a name that ends in [.png]. *)
Theorem C2_jpeg_saved_as_png :
  written (snd (run (CallTool "generate_image" (VObj [("prompt", VStr "A")]))
                    Demo.jpeg_env))
  = ["generated-image-2025-01-02T03-04-05-678Z.jpg"]
  /\ written (snd (run (CallTool "batch_generate"
                          (VObj [("prompts", VArr [VStr "A"])]))
                       Demo.jpeg_env))
     = ["batch-1-2025-01-02T03-04-05-678Z.png"]
  /\ written (snd (run (CallTool "generate_variations"
                          (VObj [("imageData", VStr "iVBORw0KGgo=");
                                 ("count", VNum 1)]))
                       Demo.jpeg_env))
     = ["variation-1-2025-01-02T03-04-05-678Z.png"]
  /\ written (snd (run (CallTool "generate_with_template"
                          (VObj [("template", VStr "logo");
                                 ("customization", VStr "for a coffee shop")]))
                       Demo.jpeg_env))
     = ["logo-2025-01-02T03-04-05-678Z.png"].
Proof. repeat split; reflexivity. Qed.

(** The table of [handleEditImage], [handleAnalyzeImage] and
    [handleMultiImageEdit], on the lower-cased extension. *)
Lemma mimeType_of_ext_table (ext : String.string) :
  mimeType_of_ext ".png" = "image/png"
  /\ mimeType_of_ext ".jpg" = "image/jpeg"
  /\ mimeType_of_ext ".jpeg" = "image/jpeg"
  /\ mimeType_of_ext ".gif" = "image/gif"
  /\ mimeType_of_ext ".webp" = "image/webp"
  /\ (~ In ext [".png"; ".jpg"; ".jpeg"; ".gif"; ".webp"] ->
      mimeType_of_ext ext = "image/png").
Proof.
  repeat (split; [reflexivity|]).
  intros Hn. unfold mimeType_of_ext.
  repeat match goal with
         | |- context [String.eqb ext ?s] =>
             destruct (String.eqb_spec ext s) as [->|_];
             [exfalso; apply Hn; cbn; tauto|]
         end.
  reflexivity.
Qed.

(** An image that [edit_image], [analyze_image] or [multi_image_edit]
    reads from a path is declared with the type of the table, looked up
    at the lower-cased extension of the path; inline data is declared
    [image/png]. *)
Lemma resolveImage_mimeType env imageData imagePath neither :
  spec env (resolveImage imageData imagePath neither)
       (fun part n =>
          (truthy imageData = true /\ n = []
           /\ Gemini.mimeType part = "image/png")
          \/ (truthy imageData = false
              /\ exists path,
                   imagePath = Some path /\ n = [EReadFile path]
                   /\ Gemini.mimeType part
                      = mimeType_of_ext (toLowerCase (NodePath.extname path))))
       (fun _ _ => True).
Proof.
  unfold resolveImage.
  destruct (truthy imageData); [apply spec_ret; left; auto|].
  destruct imagePath as [path|]; cbn [truthy]; [|apply spec_throw; exact I].
  destruct (negb (String.eqb path "")); [|apply spec_throw; exact I].
  eapply spec_bind; [apply spec_readFile | auto |].
  intros data n ->. apply spec_ret. right. split; [reflexivity|].
  exists path. auto.
Qed.

Example extension_case_insensitive :
  mimeType_of_ext (toLowerCase (NodePath.extname "shots/Photo.JPG")) = "image/jpeg"
  /\ mimeType_of_ext (toLowerCase (NodePath.extname "scan.Jpeg")) = "image/jpeg"
  /\ mimeType_of_ext (toLowerCase (NodePath.extname "anim.GIF")) = "image/gif"
  /\ mimeType_of_ext (toLowerCase (NodePath.extname "notes.txt")) = "image/png"
  /\ mimeType_of_ext (toLowerCase (NodePath.extname "README")) = "image/png".
Proof. repeat split; reflexivity. Qed.

(** C3, where the code departs from it: [edit_image] declares a [.GIF]
    file as [image/gif] and a [.webp] file as [image/webp];
    [generate_variations] declares both as [image/png], its test knowing
    [.jpg] and [.jpeg] only; [compare_images] declares [image/png]
    whatever the extension, here for a [.jpg] file. *)
Theorem C3_gif_webp_jpg_declared_png :
  declared_mimeType
    (snd (run (CallTool "edit_image"
                 (VObj [("prompt", VStr "brighter");
                        ("imagePath", VStr "shots/photo.GIF")]))
              Demo.png_env))
  = Some "image/gif"
  /\ declared_mimeType
       (snd (run (CallTool "generate_variations"
                    (VObj [("imagePath", VStr "shots/photo.GIF")]))
                 Demo.png_env))
     = Some "image/png"
  /\ declared_mimeType
       (snd (run (CallTool "edit_image"
                    (VObj [("prompt", VStr "brighter");
                           ("imagePath", VStr "shots/photo.webp")]))
                 Demo.png_env))
     = Some "image/webp"
  /\ declared_mimeType
       (snd (run (CallTool "generate_variations"
                    (VObj [("imagePath", VStr "shots/photo.webp")]))
                 Demo.png_env))
     = Some "image/png"
  /\ declared_mimeType
       (snd (run (CallTool "compare_images"
                    (VObj [("image1Path", VStr "before.jpg");
                           ("image2Path", VStr "after.jpg")]))
                 Demo.png_env))
     = Some "image/png".
Proof. repeat split; reflexivity. Qed.

End Divergences.


(** ** Classes of events *)

Module Classes.
Import Js Zod Props Observations.

Section Rules.
Variable P : Event -> Prop.

Lemma emits_ret {A} (a : A) : emits P (ret a).
Proof. intros env tr. exists []. cbn. rewrite app_nil_r. auto. Qed.

Lemma emits_throw {A} (e : thrown) : emits P (@throw A e).
Proof. intros env tr. exists []. cbn. rewrite app_nil_r. auto. Qed.

Lemma emits_lift {A} (r : result A) : emits P (lift r).
Proof. intros env tr. exists []. cbn. rewrite app_nil_r. auto. Qed.

Lemma emits_bind {A B} (m : M A) (k : A -> M B) :
  emits P m -> (forall a, emits P (k a)) -> emits P (bind m k).
Proof.
  intros Hm Hk env tr. unfold bind.
  destruct (Hm env tr) as (n1 & Htr & H1).
  destruct (m env tr) as [[a|e] tr1]; cbn in *; subst tr1.
  - destruct (Hk a env (tr ++ n1)%list) as (n2 & Htr2 & H2).
    exists (n1 ++ n2)%list. rewrite app_assoc. split; [exact Htr2|].
    apply Forall_app. auto.
  - exists n1. auto.
Qed.

Lemma emits_bind_lift {A B} (r : result A) (k : A -> M B) :
  (forall a, r = Ok a -> emits P (k a)) -> emits P (bind (lift r) k).
Proof.
  intros Hk env tr. unfold bind, lift. destruct r as [a|e].
  - exact (Hk a eq_refl env tr).
  - exists []. cbn. rewrite app_nil_r. auto.
Qed.

Lemma emits_try_catch {A} (m : M A) (handler : thrown -> M A) :
  emits P m -> (forall e, emits P (handler e)) -> emits P (try_catch m handler).
Proof.
  intros Hm Hh env tr. unfold try_catch.
  destruct (Hm env tr) as (n1 & Htr & H1).
  destruct (m env tr) as [[a|e] tr1]; cbn in *; subst tr1.
  - exists n1. auto.
  - destruct (Hh e env (tr ++ n1)%list) as (n2 & Htr2 & H2).
    exists (n1 ++ n2)%list. rewrite app_assoc. split; [exact Htr2|].
    apply Forall_app. auto.
Qed.

Lemma emits_with_env {A} (f : Env -> M A) :
  (forall env, emits P (f env)) -> emits P (with_env f).
Proof. intros H env tr. exact (H env env tr). Qed.

Lemma emits_attempt {A} (m : M A) : emits P m -> emits P (attempt m).
Proof.
  intros Hm env tr. unfold attempt. destruct (Hm env tr) as (n & Htr & H).
  destruct (m env tr) as [r tr']. cbn in *. eauto.
Qed.

Lemma emits_one {A} (m : M A) (e : Event) :
  (forall env tr, snd (m env tr) = (tr ++ [e])%list) -> P e -> emits P m.
Proof. intros Hm He env tr. exists [e]. split; [apply Hm | auto]. Qed.

Lemma emits_readFile path : P (EReadFile path) -> emits P (readFile path).
Proof. apply emits_one. reflexivity. Qed.

Lemma emits_mkdir dir : P (EMkdir dir) -> emits P (mkdir dir).
Proof. apply emits_one. reflexivity. Qed.

Lemma emits_writeFile path data :
  (forall w, P (EWriteFile path data w)) -> emits P (writeFile path data).
Proof. intros H env tr. eexists [_]. split; [reflexivity | auto]. Qed.

Lemma emits_generateContent model request :
  P (EGenerateContent model request) -> emits P (generateContent model request).
Proof. apply emits_one. reflexivity. Qed.

Lemma emits_timestamp_now : P EDate -> emits P timestamp_now.
Proof. apply emits_one. reflexivity. Qed.

Lemma emits_console_error message error :
  P (EConsoleError message error) -> emits P (console_error message error).
Proof. apply emits_one. reflexivity. Qed.

Lemma emits_settles_next n : emits P (settles_next n).
Proof. intros env tr. exists []. cbn. rewrite app_nil_r. auto. Qed.

Lemma emits_for_lt {S} (count : Q) (body : nat -> S -> M S) :
  (forall i s, emits P (body i s)) ->
  forall fuel i s, emits P (for_lt fuel i count body s).
Proof.
  intros Hb. induction fuel as [|fuel IH]; intros i s; cbn [for_lt].
  - apply emits_ret.
  - destruct (Qlt_bool (inject_Z (Z.of_nat i)) count); [|apply emits_ret].
    apply emits_bind; [apply Hb | intros s'; apply IH].
Qed.

End Rules.

(** From a class of events to a run from the empty trace. *)
Lemma emits_run P {A} (m : M A) env :
  emits P m -> Forall P (snd (run m env)).
Proof.
  intros H. unfold run. destruct (H env []) as (n & Htr & Hn).
  rewrite Htr. exact Hn.
Qed.

(** The dispatcher adds nothing to what the handler does. *)
Lemma emits_CallTool P name args :
  emits P (dispatch name args) -> emits P (CallTool name args).
Proof.
  intros H. unfold CallTool. apply emits_try_catch; [exact H|].
  intros e. apply emits_with_env. intros env. apply emits_ret.
Qed.

(** One step of a proof that a handler stays within a class of events:
    [side] closes the conditions on the events themselves. *)
Ltac emits_step side :=
  cbv beta zeta;
  lazymatch goal with
  | |- emits _ (ret _) => apply emits_ret
  | |- emits _ (throw _) => apply emits_throw
  | |- emits _ (lift _) => apply emits_lift
  | |- emits _ (settles_next _) => apply emits_settles_next
  | |- emits _ (bind (lift _) _) => apply emits_bind_lift; intros ? ?
  | |- emits _ (bind _ _) => apply emits_bind; [|intros ?]
  | |- emits _ (try_catch _ _) => apply emits_try_catch; [|intros ?]
  | |- emits _ (with_env _) => apply emits_with_env; intros ?
  | |- emits _ (attempt _) => apply emits_attempt
  | |- emits _ (readFile _) => apply emits_readFile; side
  | |- emits _ (mkdir _) => apply emits_mkdir; side
  | |- emits _ (writeFile _ _) => apply emits_writeFile; intros ?; side
  | |- emits _ (generateContent _ _) => apply emits_generateContent; side
  | |- emits _ timestamp_now => apply emits_timestamp_now; side
  | |- emits _ (console_error _ _) => apply emits_console_error; side
  | |- emits _ (if ?b then _ else _) => destruct b
  | |- emits _ (match ?x with _ => _ end) => destruct x
  end.

Ltac emits_all side := repeat emits_step side.

End Classes.


(** ** What each tool touches and sends *)

Module Footprint.
Import Js Zod Props Observations Classes.

Section Units.
Variable P : Event -> Prop.

Lemma resolveImages_emits images :
  (forall path, P (EReadFile path)) ->
  forall i, emits P (resolveImages i images).
Proof.
  intros Hr. induction images as [|image rest IH]; intros i; cbn [resolveImages].
  - apply emits_ret.
  - unfold resolveImage.
    emits_all ltac:(auto). apply IH.
Qed.

Lemma saveImage_emits outputDir filename data :
  P EDate -> (forall dir, P (EMkdir dir)) ->
  (forall path d w, P (EWriteFile path d w)) ->
  emits P (saveImage outputDir filename data).
Proof. intros Hd Hm Hw. unfold saveImage. emits_all ltac:(auto). Qed.

Lemma batch_sequential_emits outputDir config prompts :
  P EDate -> (forall dir, P (EMkdir dir)) ->
  (forall path d w, P (EWriteFile path d w)) ->
  (forall prompt, P (EGenerateContent image_model (batch_request config prompt))) ->
  forall i results, emits P (batch_sequential outputDir config i prompts results).
Proof.
  intros Hd Hm Hw Hg.
  induction prompts as [|prompt rest IH]; intros i results; cbn [batch_sequential].
  - apply emits_ret.
  - apply emits_bind; [|intros results'; apply IH].
    unfold batch_sequential_step, saveImage. emits_all ltac:(auto).
Qed.

Lemma batch_start_emits config prompts :
  (forall prompt, P (EGenerateContent image_model (batch_request config prompt))) ->
  forall index, emits P (batch_start config index prompts).
Proof.
  intros Hg. induction prompts as [|prompt rest IH]; intros index; cbn [batch_start].
  - apply emits_ret.
  - apply emits_bind; [emits_all ltac:(auto)|]. intros r.
    apply emits_bind; [apply IH|]. intros tasks. apply emits_ret.
Qed.

Lemma batch_settle_emits outputDir :
  P EDate -> (forall dir, P (EMkdir dir)) ->
  (forall path d w, P (EWriteFile path d w)) ->
  forall n pending settled, emits P (batch_settle outputDir n pending settled).
Proof.
  intros Hd Hm Hw. induction n as [|n IH]; intros pending settled; cbn [batch_settle].
  - apply emits_ret.
  - destruct pending as [|first rest]; [apply emits_ret|].
    apply emits_bind; [apply emits_settles_next|]. intros k.
    apply emits_bind; [|intros outcome; apply IH].
    unfold batch_resume, saveImage. emits_all ltac:(auto).
Qed.

Lemma batch_results_emits a :
  P EDate -> (forall dir, P (EMkdir dir)) ->
  (forall path d w, P (EWriteFile path d w)) ->
  (forall prompt,
     P (EGenerateContent image_model
          (batch_request (BatchGenerateArgs.config a) prompt))) ->
  emits P (batch_results a).
Proof.
  intros Hd Hm Hw Hg. unfold batch_results, batch_parallel.
  destruct (match BatchGenerateArgs.parallel a with Some b => b | None => false end).
  - apply emits_bind; [apply batch_start_emits; exact Hg|]. intros pending.
    apply emits_bind; [apply batch_settle_emits; assumption|]. intros settled.
    apply emits_ret.
  - apply batch_sequential_emits; assumption.
Qed.

Lemma variations_results_emits a :
  P EDate -> (forall dir, P (EMkdir dir)) ->
  (forall path d w, P (EWriteFile path d w)) ->
  (forall path, P (EReadFile path)) ->
  (forall message error, P (EConsoleError message error)) ->
  (forall env imagePart i,
     P (EGenerateContent (fst (variation_request_of env a imagePart i))
                         (snd (variation_request_of env a imagePart i)))) ->
  emits P (variations_results a).
Proof.
  intros Hd Hm Hw Hr Hc Hg. unfold variations_results.
  apply emits_bind; [unfold variations_baseImage; emits_all ltac:(auto)|].
  intros imagePart. apply emits_for_lt. intros i results.
  unfold variation_step, saveImage.
  emits_all ltac:(first [apply (Hg _ imagePart i) | auto]).
Qed.

End Units.

Lemma modalities_imageGenerationConfig config :
  Gemini.responseModalities (imageGenerationConfig config) = Some ["TEXT"; "IMAGE"].
Proof. destruct config; reflexivity. Qed.

Lemma modalities_variationsGenerationConfig config s :
  Gemini.responseModalities (variationsGenerationConfig config s)
  = Some ["TEXT"; "IMAGE"].
Proof. destruct config; reflexivity. Qed.

Ltac event_side :=
  cbn; try exact I; try tauto;
  try (split;
       [reflexivity
       | first [ apply modalities_imageGenerationConfig
               | apply modalities_variationsGenerationConfig
               | reflexivity ]]).

(** The handlers of the tools that answer with text touch the disk only
    to read. *)
Lemma text_handlers_emit P args :
  (forall path, P (EReadFile path)) ->
  (forall request, sent_modalities request = None ->
                   P (EGenerateContent text_model request)) ->
  emits P (handleAnalyzeImage args) /\ emits P (handleCompareImages args).
Proof.
  intros Hr Hg. split.
  - unfold handleAnalyzeImage, resolveImage.
    emits_all ltac:(first [apply Hr
                          | apply Hg; cbn;
                            match goal with
                            | |- context [AnalyzeImageArgs.config ?a] =>
                                destruct (AnalyzeImageArgs.config a)
                            end; reflexivity]).
  - unfold handleCompareImages.
    emits_all ltac:(first [apply Hr | apply Hg; reflexivity]).
Qed.

(** [analyze_image] and [compare_images] never make a directory and never
    write a file, whatever their arguments and whatever the model
    answers. *)
Theorem text_tools_never_write (env : Env) (name : String.string) (args : value) :
  text_tool name = true ->
  Forall (fun e => ~ changes_disk e) (snd (run (CallTool name args) env)).
Proof.
  intros Ht. apply emits_run, emits_CallTool. unfold dispatch.
  unfold text_tool in Ht. apply orb_true_iff in Ht.
  destruct Ht as [Ht|Ht]; apply String.eqb_eq in Ht; subst name;
    cbn [String.eqb Ascii.eqb Bool.eqb];
    apply (text_handlers_emit (fun e => ~ changes_disk e) args); cbn; tauto.
Qed.

Lemma text_tools_never_write_witness :
  text_tool "compare_images" = true
  /\ Forall (fun e => ~ changes_disk e)
            (snd (run (CallTool "compare_images"
                         (VObj [("image1Path", VStr "before.jpg");
                                ("image2Path", VStr "after.jpg")]))
                      Demo.png_env)).
Proof.
  assert (H : text_tool "compare_images" = true) by reflexivity.
  split; [exact H|].
  exact (@text_tools_never_write Demo.png_env "compare_images"
           (VObj [("image1Path", VStr "before.jpg");
                  ("image2Path", VStr "after.jpg")]) H).
Defined.

(** [generate_image], [batch_generate] and [generate_with_template] never
    read a file. *)
Theorem prompt_tools_never_read (env : Env) (name : String.string) (args : value) :
  In name ["generate_image"; "batch_generate"; "generate_with_template"] ->
  Forall (fun e => ~ reads_disk e) (snd (run (CallTool name args) env)).
Proof.
  intros Hn. apply emits_run, emits_CallTool. unfold dispatch.
  destruct Hn as [<-|[<-|[<-|[]]]]; cbn [String.eqb Ascii.eqb Bool.eqb].
  - unfold handleGenerateImage, saveImage. emits_all event_side.
  - unfold handleBatchGenerate. emits_step event_side.
    apply emits_bind; [|intros results; apply emits_ret].
    apply batch_results_emits; cbn; tauto.
  - unfold handleGenerateWithTemplate, saveImage. emits_all event_side.
Qed.

Lemma prompt_tools_never_read_witness :
  In "batch_generate" ["generate_image"; "batch_generate"; "generate_with_template"]
  /\ Forall (fun e => ~ reads_disk e)
            (snd (run (CallTool "batch_generate" prompts_ABC_parallel)
                      Demo.blocked_B_env)).
Proof.
  assert (H : In "batch_generate"
                 ["generate_image"; "batch_generate"; "generate_with_template"])
    by (right; left; reflexivity).
  split; [exact H|].
  exact (@prompt_tools_never_read Demo.blocked_B_env "batch_generate"
           prompts_ABC_parallel H).
Defined.

(** Every request a call sends goes to the model of its tool and asks
    for what that tool expects: [analyze_image] and [compare_images] send
    to [gemini-2.5-flash] without response modalities, the six other
    tools to [gemini-2.5-flash-image-preview] asking for text and
    image, and a call whose name is none of the eight tools sends no
    request at all. *)
Theorem requests_by_kind_of_tool (env : Env) (name : String.string) (args : value) :
  Forall (request_for name) (snd (run (CallTool name args) env)).
Proof.
  apply emits_run, emits_CallTool. unfold dispatch.
  repeat match goal with
         | |- context [String.eqb name ?s] =>
             destruct (String.eqb_spec name s) as [->|_]
         end.
  - unfold handleGenerateImage, saveImage. emits_all event_side.
  - unfold handleEditImage, resolveImage, saveImage. emits_all event_side.
  - apply (text_handlers_emit (request_for "analyze_image") args).
    + intros path. exact I.
    + intros request Hm. cbn. auto.
  - unfold handleMultiImageEdit, saveImage. emits_step event_side.
    apply emits_bind; [apply resolveImages_emits; intros; exact I|].
    intros parts. emits_all event_side.
  - unfold handleBatchGenerate. emits_step event_side.
    apply emits_bind; [|intros results; apply emits_ret].
    apply batch_results_emits; try (intros; exact I).
    intros prompt. cbn. split; [reflexivity|].
    apply modalities_imageGenerationConfig.
  - unfold handleGenerateVariations. emits_step event_side.
    apply emits_bind; [|intros results; apply emits_ret].
    apply variations_results_emits; try (intros; exact I).
    intros env0 imagePart i. cbn. split; [reflexivity|].
    apply modalities_variationsGenerationConfig.
  - unfold handleGenerateWithTemplate, saveImage. emits_all event_side.
  - apply (text_handlers_emit (request_for "compare_images") args).
    + intros path. exact I.
    + intros request Hm. cbn. auto.
  - apply emits_throw.
Qed.

End Footprint.


(** ** Calls that do not pass validation *)

Module Rejections.
Import Js Zod Props Observations ZodFacts Validation.
Local Unset Implicit Arguments.

(** The handler of each tool starts with [parse]: when that throws,
    nothing has happened yet. *)
Lemma invalid_untouched env name args :
  In name tool_names -> ~ validated name args -> rejected_untouched env name args.
Proof.
  unfold rejected_untouched.
  intros Hin Hv.
  repeat destruct Hin as [<-|Hin]; try destruct Hin;
    cbn [validated String.eqb Ascii.eqb Bool.eqb] in Hv;
    match type of Hv with
    | ~ accepts ?schema _ =>
        destruct (parse_cases schema args) as [H|[issues H]];
        [ contradiction
        | exists issues;
          unfold run, CallTool, try_catch, dispatch;
          cbn [String.eqb Ascii.eqb Bool.eqb];
          match goal with |- context [?h _ _ []] => unfold h end;
          unfold bind, lift; rewrite H; reflexivity ]
    end.
Qed.

(** Whatever arguments fail the schema of a tool, the call is answered
    with the error result of the [ZodError], and the trace is empty:
    nothing was read, written or requested. *)
Theorem validation_precedes_effects (env : Env) (name : String.string)
        (args : value) :
  In name tool_names -> ~ validated name args ->
  exists issues,
    run (CallTool name args) env = (Ok (error_result env (ZodError issues)), []).
Proof. apply invalid_untouched. Qed.

Lemma validation_precedes_effects_witness :
  In "generate_with_template" tool_names
  /\ ~ validated "generate_with_template"
                 (VObj [("template", VStr "watercolor");
                        ("customization", VStr "a harbour")])
  /\ exists issues,
       run (CallTool "generate_with_template"
              (VObj [("template", VStr "watercolor");
                     ("customization", VStr "a harbour")]))
           Demo.png_env
       = (Ok (error_result Demo.png_env (ZodError issues)), []).
Proof.
  assert (H1 : In "generate_with_template" tool_names) by (cbn; tauto).
  assert (H2 : ~ validated "generate_with_template"
                   (VObj [("template", VStr "watercolor");
                          ("customization", VStr "a harbour")]))
    by (intros [a H]; discriminate H).
  split; [exact H1|]. split; [exact H2|].
  exact (@validation_precedes_effects Demo.png_env "generate_with_template"
           (VObj [("template", VStr "watercolor");
                  ("customization", VStr "a harbour")]) H1 H2).
Defined.

(** Only an object passes the schema of a tool. *)
Lemma validated_object name args : validated name args -> is_object args.
Proof.
  unfold validated.
  repeat match goal with
         | |- context [String.eqb name ?s] => destruct (String.eqb name s)
         end;
    try solve [intros []];
    intros [a H];
    try (apply parse_refine in H as [_ H]);
    apply parse_ok_value in H as [H _];
    apply object_value in H as (fs & -> & _);
    eexists; reflexivity.
Qed.

(** A call of one of the eight tools whose arguments are missing, or are
    anything but an object, is rejected before any effect. *)
Theorem arguments_must_be_object (env : Env) (name : String.string) (args : value) :
  In name tool_names -> ~ is_object args ->
  exists issues,
    run (CallTool name args) env = (Ok (error_result env (ZodError issues)), []).
Proof.
  intros Hin Hn. apply invalid_untouched; [exact Hin|].
  intros Hv. apply Hn. exact (validated_object _ _ Hv).
Qed.

Lemma arguments_must_be_object_witness :
  In "generate_image" tool_names
  /\ ~ is_object VUndefined
  /\ exists issues,
       run (CallTool "generate_image" VUndefined) Demo.png_env
       = (Ok (error_result Demo.png_env (ZodError issues)), []).
Proof.
  assert (H1 : In "generate_image" tool_names) by (cbn; tauto).
  assert (H2 : ~ is_object VUndefined) by (intros [fs H]; discriminate H).
  split; [exact H1|]. split; [exact H2|].
  exact (@arguments_must_be_object Demo.png_env "generate_image" VUndefined H1 H2).
Defined.

(** A key that a schema needs, not supplied. *)
Ltac missing_key Hk :=
  let a := fresh "a" in
  let H := fresh "H" in
  intros [a H];
  try (apply parse_refine in H as [_ H]);
  apply parse_ok_value in H as [H _];
  apply object_value in H as (? & -> & H);
  open_shape H; cbn [field] in Hk;
  match goal with
  | V : parsed_value (_ _ (lookup ?k _)) = Some _ |- _ =>
      rewrite Hk in V; discriminate V
  end.

Lemma required_key_needed name k args :
  In k (inputSchema_required name) -> field k args = VUndefined ->
  ~ validated name args.
Proof.
  unfold inputSchema_required, validated.
  repeat match goal with
         | |- context [String.eqb name ?s] => destruct (String.eqb name s)
         end;
    intros Hin Hk;
    repeat destruct Hin as [<-|Hin]; try destruct Hin;
    try solve [missing_key Hk]; auto.
Qed.

Lemma advertised_required t :
  In t ListTools.tools ->
  In (ListTools.name_of t) tool_names
  /\ ListTools.required_of t = inputSchema_required (ListTools.name_of t).
Proof.
  intros Hin. repeat destruct Hin as [<-|Hin]; try destruct Hin;
    (split; [cbn; tauto | reflexivity]).
Qed.

(** Every field that the advertised schema of a tool lists as required
    is required by the validator: a call that does not supply it is
    rejected before any effect. *)
Theorem advertised_required_is_enforced (env : Env) (t : value)
        (k : String.string) (args : value) :
  In t ListTools.tools -> In k (ListTools.required_of t) ->
  field k args = VUndefined ->
  exists issues,
    run (CallTool (ListTools.name_of t) args) env
    = (Ok (error_result env (ZodError issues)), []).
Proof.
  intros Ht Hk Hu. destruct (advertised_required t Ht) as [Hn Hr].
  apply invalid_untouched; [exact Hn|].
  rewrite Hr in Hk. exact (required_key_needed _ _ _ Hk Hu).
Qed.

Lemma advertised_required_is_enforced_witness :
  In (nth 4 ListTools.tools VNull) ListTools.tools
  /\ In "prompts" (ListTools.required_of (nth 4 ListTools.tools VNull))
  /\ field "prompts" (VObj [("outputDir", VStr "out")]) = VUndefined
  /\ exists issues,
       run (CallTool (ListTools.name_of (nth 4 ListTools.tools VNull))
              (VObj [("outputDir", VStr "out")]))
           Demo.png_env
       = (Ok (error_result Demo.png_env (ZodError issues)), []).
Proof.
  assert (H1 : In (nth 4 ListTools.tools VNull) ListTools.tools)
    by (do 4 right; left; reflexivity).
  assert (H2 : In "prompts" (ListTools.required_of (nth 4 ListTools.tools VNull)))
    by (left; reflexivity).
  assert (H3 : field "prompts" (VObj [("outputDir", VStr "out")]) = VUndefined)
    by reflexivity.
  split; [exact H1|]. split; [exact H2|]. split; [exact H3|].
  exact (advertised_required_is_enforced Demo.png_env
           (nth 4 ListTools.tools VNull) "prompts"
           (VObj [("outputDir", VStr "out")]) H1 H2 H3).
Defined.

Lemma clean_check {A} (ok : A -> bool) c (s : schema A) p v :
  clean (check ok c s p v) -> clean (s p v).
Proof.
  unfold check, clean. destruct (parsed_value (s p v)) as [a|]; [|auto].
  destruct (ok a); [auto|]. cbn. intros H.
  apply app_eq_nil in H as [_ H]. discriminate H.
Qed.

Lemma accepts_is_clean {A} (s : schema A) v : accepts s v -> clean (s [] v).
Proof. intros [a H]. apply parse_ok_value in H as [_ H]. exact H. Qed.

Lemma empty_prompts_invalid args :
  field "prompts" args = VArr [] -> ~ accepts BatchGenerateArgsSchema args.
Proof.
  intros Hl Ha. apply accepts_is_clean in Ha.
  unfold BatchGenerateArgsSchema, object in Ha.
  destruct args; try discriminate Ha. cbn [field] in Hl.
  rewrite !clean_ap in Ha. destruct Ha as [[[[_ Ha] _] _] _].
  rewrite Hl in Ha. discriminate Ha.
Qed.

Lemma empty_images_invalid args :
  field "images" args = VArr [] -> ~ accepts MultiImageEditArgsSchema args.
Proof.
  intros Hl Ha. apply accepts_is_clean in Ha.
  unfold MultiImageEditArgsSchema, refine in Ha. apply clean_check in Ha.
  unfold object in Ha.
  destruct args; try discriminate Ha. cbn [field] in Hl.
  rewrite !clean_ap in Ha. destruct Ha as [[[[_ _] Ha] _] _].
  rewrite Hl in Ha. discriminate Ha.
Qed.

(** [batch_generate] with an empty list of prompts, and [multi_image_edit]
    with an empty list of images, are rejected before any effect: no
    request is sent for nothing. *)
Theorem empty_lists_rejected (env : Env) (name : String.string) (args : value) :
  (name = "batch_generate" /\ field "prompts" args = VArr [])
  \/ (name = "multi_image_edit" /\ field "images" args = VArr []) ->
  exists issues,
    run (CallTool name args) env = (Ok (error_result env (ZodError issues)), []).
Proof.
  intros [[-> Hl]|[-> Hl]]; (apply invalid_untouched; [cbn; tauto|]).
  - exact (empty_prompts_invalid args Hl).
  - exact (empty_images_invalid args Hl).
Qed.

Lemma empty_lists_rejected_witness :
  (("batch_generate" = "batch_generate"
    /\ field "prompts" (VObj [("prompts", VArr []); ("parallel", VBool true)])
       = VArr [])
   \/ ("batch_generate" = "multi_image_edit"
       /\ field "images" (VObj [("prompts", VArr []); ("parallel", VBool true)])
          = VArr []))
  /\ exists issues,
       run (CallTool "batch_generate"
              (VObj [("prompts", VArr []); ("parallel", VBool true)]))
           Demo.png_env
       = (Ok (error_result Demo.png_env (ZodError issues)), []).
Proof.
  assert (H : ("batch_generate" = "batch_generate"
               /\ field "prompts"
                        (VObj [("prompts", VArr []); ("parallel", VBool true)])
                  = VArr [])
              \/ ("batch_generate" = "multi_image_edit"
                  /\ field "images"
                           (VObj [("prompts", VArr []); ("parallel", VBool true)])
                     = VArr []))
    by (left; split; reflexivity).
  split; [exact H|].
  exact (empty_lists_rejected Demo.png_env "batch_generate"
           (VObj [("prompts", VArr []); ("parallel", VBool true)]) H).
Defined.

End Rejections.


(** ** Numbers that pass validation *)

Module Sampling.
Import Js Zod Props Observations ZodFacts Validation Classes Footprint.
Local Unset Implicit Arguments.

Lemma number_value p v q : parsed_value (number p v) = Some q -> v = VNum q.
Proof. destruct v; cbn; try discriminate. congruence. Qed.

Lemma check_value {A} (ok : A -> bool) c (s : schema A) p v a :
  parsed_value (check ok c s p v) = Some a -> parsed_value (s p v) = Some a.
Proof.
  unfold check. destruct (parsed_value (s p v)) as [x|] eqn:E; [|congruence].
  destruct (ok x); [congruence | cbn; congruence].
Qed.

Lemma optional_value {A} (s : schema A) p v o :
  parsed_value (optional s p v) = Some o ->
  (v = VUndefined /\ o = None)
  \/ (exists a, o = Some a /\ parsed_value (s p v) = Some a).
Proof.
  unfold optional.
  destruct v; cbn [parsed_value valid];
    try (intros H; left; split; [reflexivity | congruence]);
    (destruct (parsed_value (s p _)) as [a|]; cbn; [|discriminate];
     intros H; inversion H; right; eauto).
Qed.

(** An optional number, with or without bounds, comes out of validation
    as it went in. *)
Lemma optional_number_value (s : schema Q) k fs p o :
  (forall p v q, parsed_value (s p v) = Some q -> v = VNum q) ->
  parsed_value (optional s p (lookup k fs)) = Some o ->
  o = number_at k (VObj fs).
Proof.
  intros Hs H. unfold number_at. cbn [field].
  apply optional_value in H as [[-> ->]|(q & -> & H)]; [reflexivity|].
  apply Hs in H. rewrite H. reflexivity.
Qed.

Lemma bounded_number_value lo hi p v q :
  parsed_value (max hi (min lo number) p v) = Some q -> v = VNum q.
Proof.
  intros H. unfold max, min in H.
  apply check_value, check_value in H. exact (number_value _ _ _ H).
Qed.

(** Validation neither changes nor fills in the sampling fields of a
    config. *)
Lemma config_sampling_value p v config :
  parsed_value (optional GenerationConfigSchema p v) = Some config ->
  config_sampling config
  = sampling (number_at "temperature" v) (number_at "topP" v)
             (number_at "topK" v) (number_at "maxOutputTokens" v).
Proof.
  intros H. apply optional_value in H as [[-> ->]|(c & -> & H)]; [reflexivity|].
  unfold GenerationConfigSchema in H.
  apply object_value in H as (fs & -> & H).
  open_shape H. cbn [config_sampling GenerationConfig.temperature
                     GenerationConfig.topP GenerationConfig.topK
                     GenerationConfig.maxOutputTokens].
  repeat match goal with
         | E : parsed_value (optional (max ?hi (min ?lo number)) _ (lookup ?k fs))
               = Some _ |- _ =>
             apply (optional_number_value _ k fs _ _ (bounded_number_value lo hi)) in E;
             subst
         | E : parsed_value (optional number _ (lookup ?k fs)) = Some _ |- _ =>
             apply (optional_number_value _ k fs _ _ number_value) in E; subst
         end.
  reflexivity.
Qed.

Ltac config_of_args H :=
  try (apply parse_refine in H as [_ H]);
  apply parse_ok_value in H as [H _];
  apply object_value in H as (? & -> & H);
  open_shape H;
  match goal with
  | E : parsed_value (optional GenerationConfigSchema _ _) = Some _ |- _ =>
      apply config_sampling_value in E; exact E
  end.

Lemma GenerateImageArgs_sampling args a :
  parse GenerateImageArgsSchema args = Ok a ->
  config_sampling (GenerateImageArgs.config a) = caller_sampling args.
Proof. intros H. config_of_args H. Qed.

Lemma EditImageArgs_sampling args a :
  parse EditImageArgsSchema args = Ok a ->
  config_sampling (EditImageArgs.config a) = caller_sampling args.
Proof. intros H. config_of_args H. Qed.

Lemma AnalyzeImageArgs_sampling args a :
  parse AnalyzeImageArgsSchema args = Ok a ->
  config_sampling (AnalyzeImageArgs.config a) = caller_sampling args.
Proof. intros H. config_of_args H. Qed.

Lemma MultiImageEditArgs_sampling args a :
  parse MultiImageEditArgsSchema args = Ok a ->
  config_sampling (MultiImageEditArgs.config a) = caller_sampling args.
Proof. intros H. config_of_args H. Qed.

Lemma BatchGenerateArgs_sampling args a :
  parse BatchGenerateArgsSchema args = Ok a ->
  config_sampling (BatchGenerateArgs.config a) = caller_sampling args.
Proof. intros H. config_of_args H. Qed.

Lemma PromptTemplateArgs_sampling args a :
  parse PromptTemplateArgsSchema args = Ok a ->
  config_sampling (PromptTemplateArgs.config a) = caller_sampling args.
Proof. intros H. config_of_args H. Qed.

Lemma sent_sampling_image parts config :
  sent_sampling (user_request parts (Some (imageGenerationConfig config)))
  = config_sampling config.
Proof. destruct config; reflexivity. Qed.

Ltac sampling_side lemma :=
  cbn [request_sampling]; try exact I;
  match goal with
  | H : parse _ _ = Ok _ |- _ =>
      rewrite <- (lemma _ _ H); first [apply sent_sampling_image | idtac]
  end.

(** Every request sent by [generate_image], [edit_image], [analyze_image],
    [multi_image_edit], [batch_generate] and [generate_with_template]
    carries the four sampling fields exactly as the caller's [config]
    has them: a number given is sent unchanged, and a field not given, or
    no [config] at all, leaves the field out of the request. *)
Theorem sampling_forwarded_verbatim (env : Env) (name : String.string)
        (args : value) :
  In name ["generate_image"; "edit_image"; "analyze_image"; "multi_image_edit";
           "batch_generate"; "generate_with_template"] ->
  Forall (request_sampling (caller_sampling args))
         (snd (run (CallTool name args) env)).
Proof.
  intros Hn. apply emits_run, emits_CallTool. unfold dispatch.
  repeat destruct Hn as [<-|Hn]; try destruct Hn;
    cbn [String.eqb Ascii.eqb Bool.eqb].
  - unfold handleGenerateImage, saveImage.
    emits_all ltac:(sampling_side GenerateImageArgs_sampling).
  - unfold handleEditImage, resolveImage, saveImage.
    emits_all ltac:(sampling_side EditImageArgs_sampling).
  - unfold handleAnalyzeImage, resolveImage.
    emits_all ltac:(sampling_side AnalyzeImageArgs_sampling;
                    match goal with
                    | |- context [AnalyzeImageArgs.config ?a] =>
                        destruct (AnalyzeImageArgs.config a)
                    end; reflexivity).
  - unfold handleMultiImageEdit, saveImage. emits_step idtac.
    apply emits_bind; [apply resolveImages_emits; intros; exact I|].
    intros parts. emits_all ltac:(sampling_side MultiImageEditArgs_sampling).
  - unfold handleBatchGenerate. emits_step idtac.
    apply emits_bind; [|intros results; apply emits_ret].
    apply batch_results_emits; try (intros; exact I).
    intros prompt. unfold batch_request.
    sampling_side BatchGenerateArgs_sampling.
  - unfold handleGenerateWithTemplate, saveImage.
    emits_all ltac:(sampling_side PromptTemplateArgs_sampling).
Qed.

Lemma sampling_forwarded_verbatim_witness :
  In "edit_image"
     ["generate_image"; "edit_image"; "analyze_image"; "multi_image_edit";
      "batch_generate"; "generate_with_template"]
  /\ Forall (request_sampling
               (sampling (Some (1 # 2)) None (Some 20) None))
            (snd (run (CallTool "edit_image"
                         (VObj [("prompt", VStr "brighter");
                                ("imagePath", VStr "a.png");
                                ("config", VObj [("temperature", VNum (1 # 2));
                                                 ("topK", VNum 20)])]))
                      Demo.png_env)).
Proof.
  assert (H : In "edit_image"
                 ["generate_image"; "edit_image"; "analyze_image";
                  "multi_image_edit"; "batch_generate"; "generate_with_template"])
    by (right; left; reflexivity).
  split; [exact H|].
  exact (sampling_forwarded_verbatim Demo.png_env "edit_image"
           (VObj [("prompt", VStr "brighter");
                  ("imagePath", VStr "a.png");
                  ("config", VObj [("temperature", VNum (1 # 2));
                                   ("topK", VNum 20)])]) H).
Defined.

(** *** The count of variations *)

Lemma turns_bounds (count : Q) :
  (1 <= count)%Q -> (count <= 5)%Q -> (1 <= turns count <= 5)%nat.
Proof.
  intros Hlo Hhi. unfold turns.
  apply Qceiling_resp_le in Hlo. apply Qceiling_resp_le in Hhi.
  change 1%Q with (inject_Z 1) in Hlo. change 5%Q with (inject_Z 5) in Hhi.
  rewrite Qceiling_Z in Hlo, Hhi. lia.
Qed.

Lemma count_validated p v count :
  parsed_value (default (VNum 3) (max 5 (min 1 number)) p v) = Some count ->
  clean (default (VNum 3) (max 5 (min 1 number)) p v) ->
  (1 <= count)%Q /\ (count <= 5)%Q /\ (v = VUndefined -> count = 3%Q).
Proof.
  unfold default, max, min, check, number, clean.
  destruct v; cbn; try discriminate.
  - intros H _. inversion H. repeat split; discriminate.
  - destruct (Qle_bool 1 q) eqn:E1; cbn; destruct (Qle_bool q 5) eqn:E2; cbn;
      intros H Hc; try discriminate Hc.
    inversion H; subst. apply Qle_bool_iff in E1. apply Qle_bool_iff in E2.
    repeat split; auto. discriminate.
Qed.

Lemma strength_validated p v s :
  parsed_value (default (VStr "moderate")
                  (enum VariationStrength_name [subtle; moderate; strong]) p v)
  = Some s ->
  v = VUndefined -> s = moderate.
Proof. intros H ->. cbn in H. congruence. Qed.

Lemma GenerateVariationsArgs_bounds (args : value) (a : GenerateVariationsArgs.t) :
  parse GenerateVariationsArgsSchema args = Ok a ->
  (1 <= GenerateVariationsArgs.count a)%Q
  /\ (GenerateVariationsArgs.count a <= 5)%Q
  /\ (field "count" args = VUndefined -> GenerateVariationsArgs.count a = 3%Q)
  /\ (field "variationStrength" args = VUndefined ->
      GenerateVariationsArgs.variationStrength a = moderate)
  /\ (1 <= turns (GenerateVariationsArgs.count a) <= 5)%nat.
Proof.
  intros H. unfold GenerateVariationsArgsSchema in H.
  apply parse_refine in H as [_ H].
  apply parse_ok_value in H as [H Hc].
  apply object_value in H as (fs & -> & H).
  change (clean (object
                   (pure GenerateVariationsArgs.Build
                    <*> "imagePath" ::: optional Zod.string
                    <*> "imageData" ::: optional Zod.string
                    <*> "count" ::: default (VNum 3) (max 5 (min 1 number))
                    <*> "variationStrength" ::: default (VStr "moderate")
                          (enum VariationStrength_name [subtle; moderate; strong])
                    <*> "outputDir" ::: optional Zod.string
                    <*> "config" ::: optional GenerationConfigSchema)
                   [] (VObj fs))) in Hc.
  unfold object in Hc. rewrite !clean_ap in Hc.
  destruct Hc as [[[[_ Hcount] _] _] _].
  open_shape H.
  cbn [GenerateVariationsArgs.count GenerateVariationsArgs.variationStrength field].
  match goal with
  | E : parsed_value (default (VNum 3) _ _ _) = Some ?c |- _ =>
      destruct (count_validated _ _ _ E Hcount) as (Hlo & Hhi & Hdef)
  end.
  match goal with
  | E : parsed_value (default (VStr "moderate") _ _ _) = Some ?s |- _ =>
      pose proof (strength_validated _ _ _ E) as Hs
  end.
  repeat split; auto; apply turns_bounds; assumption.
Qed.

(** What [GenerateVariationsArgsSchema] lets through has a [count] between
    1 and 5, which is 3 when the caller gave none, and the strength
    moderate when the caller gave none; the loop then has between one
    and five turns. *)
Theorem variations_count_in_bounds (args : value) (a : GenerateVariationsArgs.t) :
  parse GenerateVariationsArgsSchema args = Ok a ->
  (1 <= GenerateVariationsArgs.count a)%Q
  /\ (GenerateVariationsArgs.count a <= 5)%Q
  /\ (field "count" args = VUndefined -> GenerateVariationsArgs.count a = 3%Q)
  /\ (field "variationStrength" args = VUndefined ->
      GenerateVariationsArgs.variationStrength a = moderate)
  /\ (1 <= turns (GenerateVariationsArgs.count a) <= 5)%nat.
Proof. apply GenerateVariationsArgs_bounds. Qed.

Lemma variations_count_in_bounds_witness :
  parse GenerateVariationsArgsSchema
        (VObj [("imagePath", VStr "a.png"); ("count", VNum (5 # 2))])
  = Ok (GenerateVariationsArgs.Build (Some "a.png") None (5 # 2) moderate None None)
  /\ (1 <= 5 # 2)%Q /\ (5 # 2 <= 5)%Q /\ (1 <= turns (5 # 2) <= 5)%nat.
Proof.
  assert (H : parse GenerateVariationsArgsSchema
                    (VObj [("imagePath", VStr "a.png"); ("count", VNum (5 # 2))])
              = Ok (GenerateVariationsArgs.Build
                      (Some "a.png") None (5 # 2) moderate None None))
    by reflexivity.
  split; [exact H|].
  destruct (variations_count_in_bounds _ _ H) as (H1 & H2 & _ & _ & H3).
  exact (conj H1 (conj H2 H3)).
Defined.

(** A call of [generate_variations] never sends more than five requests,
    whatever its arguments and whatever the model answers. *)
Theorem variations_at_most_five_requests (env : Env) (args : value) :
  (List.length
     (requests (snd (run (CallTool "generate_variations" args) env))) <= 5)%nat.
Proof.
  unfold run, CallTool, try_catch, dispatch. cbn [String.eqb Ascii.eqb Bool.eqb].
  unfold handleGenerateVariations, bind, lift.
  destruct (parse GenerateVariationsArgsSchema args) as [a|e] eqn:Hp;
    [|cbn; lia].
  destruct (Handlers.spec_variations_results env a []) as (new & Htr & Hpost).
  destruct (variations_results a env []) as [[results|e] tr']; cbn in *; subst tr'.
  - destruct Hpost as [_ (imagePart & ->)].
    rewrite length_map, length_seq.
    apply (GenerateVariationsArgs_bounds _ _ Hp).
  - destruct Hpost as [_ ->]. cbn. lia.
Qed.

End Sampling.


(** ** The outcomes of a batch *)

Module BatchFacts.
Import Js Zod Props Observations Logic Handlers Batch.
Local Unset Implicit Arguments.

Lemma successes_app a b : successes (a ++ b) = (successes a + successes b)%nat.
Proof. unfold successes. rewrite filter_app, length_app. reflexivity. Qed.

Lemma successes_permutation a b : Permutation a b -> successes a = successes b.
Proof.
  unfold successes. induction 1; cbn; try congruence.
  - destruct (outcome_success x); cbn; congruence.
  - destruct (outcome_success x), (outcome_success y); reflexivity.
Qed.

Lemma succeeded_well_formed prompt filepath :
  outcome_well_formed (succeeded prompt filepath).
Proof. left. cbn. eauto. Qed.

Lemma failed_well_formed prompt error : outcome_well_formed (failed prompt error).
Proof. right. cbn. eauto. Qed.

Lemma accounted_app a1 n1 a2 n2 :
  accounted a1 n1 -> accounted a2 n2 -> accounted (a1 ++ a2) (n1 ++ n2).
Proof.
  intros [F1 S1] [F2 S2]. split; [apply Forall_app; auto|].
  rewrite successes_app, written_app, length_app. lia.
Qed.

Lemma spec_batch_sequential_step_accounted env outputDir config i prompt results :
  spec env (batch_sequential_step outputDir config i prompt results)
       (fun results' n =>
          requests n = [(image_model, batch_request config prompt)]
          /\ exists added, results' = (results ++ added)%list /\ accounted added n)
       (fun _ _ => False).
Proof.
  unfold batch_sequential_step.
  eapply spec_try_catch
    with (E1 := fun _ n => written n = []
                           /\ requests n = [(image_model, batch_request config prompt)]).
  - eapply spec_bind; [apply spec_generateContent | intros e n ->; split; reflexivity |].
    intros r ? ->.
    eapply spec_bind; [apply spec_lift_quiet | intros e n ->; split; reflexivity |].
    intros parts ? ->.
    destruct parts as [ps|].
    + destruct (find_image (Some ps)) as [imagePart|].
      * eapply spec_bind; [apply spec_saveImage | |].
        { intros e n [Hw Hr]. cbn [app written requests]. rewrite Hw, Hr. auto. }
        intros filepath n (Hw & Hr & _). apply spec_ret.
        split; [repeat rewrite requests_app; rewrite Hr; reflexivity|].
        eexists. split; [reflexivity|].
        split; [constructor; [apply succeeded_well_formed | constructor]|].
        written_of.
      * apply spec_ret. split; [reflexivity|]. eexists. split; [reflexivity|].
        split; [constructor; [apply failed_well_formed | constructor] | reflexivity].
    + apply spec_ret. split; [reflexivity|]. exists [].
      rewrite app_nil_r. split; [reflexivity|]. split; [constructor | reflexivity].
  - intros e n1 [Hw Hr]. apply spec_with_env. apply spec_ret.
    split; [rewrite app_nil_r; exact Hr|]. eexists. split; [reflexivity|].
    split; [constructor; [apply failed_well_formed | constructor]|].
    written_of.
Qed.

Lemma spec_batch_sequential_accounted env outputDir config prompts :
  forall i results,
    spec env (batch_sequential outputDir config i prompts results)
         (fun results' n =>
            requests n = map (fun prompt => (image_model, batch_request config prompt))
                             prompts
            /\ exists added, results' = (results ++ added)%list /\ accounted added n)
         (fun _ _ => False).
Proof.
  induction prompts as [|prompt rest IH]; intros i results; cbn [batch_sequential].
  - apply spec_ret. split; [reflexivity|]. exists []. rewrite app_nil_r.
    split; [reflexivity|]. split; [constructor | reflexivity].
  - eapply spec_bind; [apply spec_batch_sequential_step_accounted | auto |].
    intros results1 n1 (Hr1 & added1 & -> & Ha1).
    eapply spec_weaken; [apply IH | | auto].
    intros results2 n2 (Hr2 & added2 & -> & Ha2). cbn beta.
    rewrite requests_app, Hr1, Hr2. split; [reflexivity|].
    exists (added1 ++ added2)%list. rewrite app_assoc.
    split; [reflexivity | apply accounted_app; assumption].
Qed.

Lemma spec_batch_start_requests env config prompts :
  forall index,
    spec env (batch_start config index prompts)
         (fun _ n =>
            written n = []
            /\ requests n = map (fun prompt => (image_model, batch_request config prompt))
                                prompts)
         (fun _ _ => False).
Proof.
  induction prompts as [|prompt rest IH]; intros index; cbn [batch_start].
  - apply spec_ret. auto.
  - eapply spec_bind;
      [apply spec_attempt, spec_generateContent | intros ? ? [] |].
    intros r n1 Hn1.
    assert (Hn : n1 = [EGenerateContent image_model (batch_request config prompt)])
      by (destruct r; exact Hn1).
    subst n1.
    eapply spec_bind; [apply IH | intros ? ? [] |].
    intros tasks n2 (Hw2 & Hr2). apply spec_ret.
    rewrite app_nil_r. cbn [app written requests map]. rewrite Hw2, Hr2. auto.
Qed.

Lemma spec_batch_resume_accounted env outputDir task :
  spec env (batch_resume outputDir task)
       (fun outcome n => requests n = [] /\ accounted [outcome] n)
       (fun _ _ => False).
Proof.
  unfold batch_resume.
  eapply spec_try_catch with (E1 := fun _ n => quiet n).
  - eapply spec_bind; [apply spec_lift_quiet | intros e n ->; split; reflexivity |].
    intros r ? ->.
    eapply spec_bind; [apply spec_lift_quiet | intros e n ->; split; reflexivity |].
    intros parts ? ->.
    destruct (find_image parts) as [imagePart|].
    + eapply spec_bind; [apply spec_saveImage | intros e n H; exact H |].
      intros filepath n (Hw & Hr & _). apply spec_ret.
      split; [repeat rewrite requests_app; rewrite Hr; reflexivity|].
      split; [constructor; [apply succeeded_well_formed | constructor]|].
      written_of.
    + apply spec_ret. split; [reflexivity|].
      split; [constructor; [apply failed_well_formed | constructor] | reflexivity].
  - intros e n1 [Hw Hr]. apply spec_with_env. apply spec_ret.
    split; [rewrite app_nil_r; exact Hr|].
    split; [constructor; [apply failed_well_formed | constructor]|].
    written_of.
Qed.

Lemma place_permutation_all {A} (x : nat * A) l : Permutation (place x l) (x :: l).
Proof.
  induction l as [|y l IH]; cbn [place]; [reflexivity|].
  destruct (fst x <? fst y)%nat; [reflexivity|].
  rewrite IH. apply perm_swap.
Qed.

Lemma spec_batch_settle_accounted env outputDir :
  forall n pending settled,
    spec env (batch_settle outputDir n pending settled)
         (fun settled' new =>
            requests new = []
            /\ exists added,
                 Permutation (map snd settled') (added ++ map snd settled)
                 /\ accounted added new)
         (fun _ _ => False).
Proof.
  induction n as [|n IH]; intros pending settled; cbn [batch_settle].
  - apply spec_ret. split; [reflexivity|]. exists [].
    split; [reflexivity|]. split; [constructor | reflexivity].
  - destruct pending as [|first rest].
    + apply spec_ret. split; [reflexivity|]. exists [].
      split; [reflexivity|]. split; [constructor | reflexivity].
    + eapply spec_bind; [apply spec_settles_next; cbn; lia | intros ? ? [] |].
      intros k ? [_ ->].
      eapply spec_bind; [apply spec_batch_resume_accounted | intros ? ? [] |].
      intros outcome n1 [Hr1 Ha1].
      eapply spec_weaken; [apply IH | | auto].
      intros settled' n2 (Hr2 & added & Hp & Ha2). cbn beta. cbn [app].
      rewrite requests_app, Hr1, Hr2. split; [reflexivity|].
      exists (outcome :: added). split.
      * rewrite Hp.
        rewrite (Permutation_map snd (place_permutation_all _ settled)).
        cbn [map snd app]. apply Permutation_sym, Permutation_middle.
      * change (outcome :: added) with ([outcome] ++ added)%list.
        apply accounted_app; assumption.
Qed.

(** Both modes: one request per prompt in the order of the prompts, and
    outcomes that account for the files written. *)
Lemma spec_batch_results_accounted env a :
  spec env (batch_results a)
       (fun results n =>
          requests n
          = map (fun prompt =>
                   (image_model, batch_request (BatchGenerateArgs.config a) prompt))
                (BatchGenerateArgs.prompts a)
          /\ accounted results n)
       (fun _ _ => False).
Proof.
  unfold batch_results.
  destruct (match BatchGenerateArgs.parallel a with Some b => b | None => false end).
  - unfold batch_parallel.
    eapply spec_bind; [apply spec_batch_start_requests | intros ? ? [] |].
    intros pending n1 (Hw1 & Hr1).
    eapply spec_bind; [apply spec_batch_settle_accounted | intros ? ? [] |].
    intros settled n2 (Hr2 & added & Hp & [Hf Hs]). apply spec_ret.
    rewrite app_nil_r, requests_app, Hr1, Hr2, app_nil_r.
    split; [reflexivity|].
    cbn [map app] in Hp. rewrite app_nil_r in Hp. split.
    + eapply Permutation_Forall; [apply Permutation_sym, Hp | exact Hf].
    + rewrite (successes_permutation _ _ Hp), written_app, Hw1. exact Hs.
  - eapply spec_weaken; [apply spec_batch_sequential_accounted | | auto].
    intros results n (Hr & added & -> & Ha). cbn beta. split; [exact Hr|].
    exact Ha.
Qed.

Lemma batch_run env args a :
  parse BatchGenerateArgsSchema args = Ok a ->
  exists results,
    run (handleBatchGenerate args) env
    = (Ok (success (batch_text results)), snd (run (batch_results a) env))
    /\ fst (run (batch_results a) env) = Ok results.
Proof.
  intros Hp.
  pose proof (spec_run (spec_batch_results_accounted env a)) as H.
  unfold run in *. unfold handleBatchGenerate, bind, lift. rewrite Hp.
  destruct (batch_results a env []) as [[results|e] tr]; [|destruct H].
  exists results. split; reflexivity.
Qed.

(** A valid call of [batch_generate] sends exactly one request per
    prompt, in the order of the prompts and in both modes, each with the
    prompt as its only part: no prompt is skipped and none is tried
    twice. *)
Theorem batch_one_request_per_prompt (env : Env) (args : value)
        (a : BatchGenerateArgs.t) :
  parse BatchGenerateArgsSchema args = Ok a ->
  requests (snd (run (handleBatchGenerate args) env))
  = map (fun prompt =>
           (image_model,
            user_request [Gemini.TextPart prompt]
              (Some (imageGenerationConfig (BatchGenerateArgs.config a)))))
        (BatchGenerateArgs.prompts a).
Proof.
  intros Hp. destruct (batch_run env args a Hp) as (results & -> & _).
  pose proof (spec_run (spec_batch_results_accounted env a)) as H.
  cbn [snd]. destruct (run (batch_results a) env) as [[r|e] tr]; [|destruct H].
  exact (proj1 H).
Qed.

Lemma batch_one_request_per_prompt_witness :
  parse BatchGenerateArgsSchema prompts_ABC_parallel
  = Ok (BatchGenerateArgs.Build ["A"; "B"; "C"] None None (Some true))
  /\ requests (snd (run (handleBatchGenerate prompts_ABC_parallel)
                        Demo.blocked_B_last_first_env))
     = map (fun prompt =>
              (image_model,
               user_request [Gemini.TextPart prompt]
                 (Some (imageGenerationConfig None))))
           ["A"; "B"; "C"].
Proof.
  assert (H : parse BatchGenerateArgsSchema prompts_ABC_parallel
              = Ok (BatchGenerateArgs.Build ["A"; "B"; "C"] None None (Some true)))
    by reflexivity.
  split; [exact H|].
  exact (batch_one_request_per_prompt Demo.blocked_B_last_first_env
           prompts_ABC_parallel _ H).
Defined.

(** The outcomes of a valid call are those of [batch_results], and the
    text of the answer is made of them. *)
Lemma batch_outcomes_run env args a :
  parse BatchGenerateArgsSchema args = Ok a ->
  exists results,
    batch_outcomes args env = Ok results
    /\ fst (run (batch_results a) env) = Ok results
    /\ run (CallTool "batch_generate" args) env
       = (Ok (success (batch_text results)), snd (run (batch_results a) env)).
Proof.
  intros Hp.
  pose proof (spec_run (spec_batch_results_accounted env a)) as H.
  unfold batch_outcomes, run, CallTool, try_catch in *.
  cbn [dispatch String.eqb Ascii.eqb Bool.eqb].
  unfold handleBatchGenerate, bind, lift. rewrite Hp.
  destruct (batch_results a env []) as [[results|e] tr]; [|destruct H].
  exists results. repeat split; reflexivity.
Qed.

(** The outcomes of a valid call of [batch_generate], the list the
    handler builds and then puts into the text of its answer, are well
    formed, each a success with its file path or a failure with its
    error, and the number of successes is the number of files the call
    wrote. *)
Theorem batch_outcomes_account_for_files (env : Env) (args : value)
        (a : BatchGenerateArgs.t) :
  parse BatchGenerateArgsSchema args = Ok a ->
  exists results,
    batch_outcomes args env = Ok results
    /\ fst (run (CallTool "batch_generate" args) env)
       = Ok (success (batch_text results))
    /\ Forall outcome_well_formed results
    /\ successes results
       = List.length (written (snd (run (CallTool "batch_generate" args) env))).
Proof.
  intros Hp. destruct (batch_outcomes_run env args a Hp) as (results & Ho & Hr & ->).
  pose proof (spec_run (spec_batch_results_accounted env a)) as H.
  exists results. cbn [fst snd]. split; [exact Ho|]. split; [reflexivity|].
  destruct (run (batch_results a) env) as [[r|e] tr]; [|destruct H].
  cbn in Hr. inversion Hr; subst r. destruct H as [_ [Hf Hs]]. auto.
Qed.

Lemma batch_outcomes_account_for_files_witness :
  parse BatchGenerateArgsSchema prompts_ABC
  = Ok (BatchGenerateArgs.Build ["A"; "B"; "C"] None None None)
  /\ exists results,
       batch_outcomes prompts_ABC Demo.blocked_B_env = Ok results
       /\ fst (run (CallTool "batch_generate" prompts_ABC) Demo.blocked_B_env)
          = Ok (success (batch_text results))
       /\ Forall outcome_well_formed results
       /\ successes results
          = List.length
              (written (snd (run (CallTool "batch_generate" prompts_ABC)
                                 Demo.blocked_B_env))).
Proof.
  assert (H : parse BatchGenerateArgsSchema prompts_ABC
              = Ok (BatchGenerateArgs.Build ["A"; "B"; "C"] None None None))
    by reflexivity.
  split; [exact H|].
  exact (batch_outcomes_account_for_files Demo.blocked_B_env prompts_ABC _ H).
Defined.

(** In parallel mode the outcomes of a valid call, the list the handler
    builds and then puts into the text of its answer, are exactly one
    per prompt, outcome number [i] being the one of prompt number [i], in
    whatever order the answers of the model arrive and whichever of them
    fail. *)
Theorem parallel_batch_outcomes_in_order (env : Env) (args : value)
        (a : BatchGenerateArgs.t) :
  parse BatchGenerateArgsSchema args = Ok a ->
  BatchGenerateArgs.parallel a = Some true ->
  exists results,
    batch_outcomes args env = Ok results
    /\ map outcome_prompt results = BatchGenerateArgs.prompts a
    /\ fst (run (CallTool "batch_generate" args) env)
       = Ok (success (batch_text results)).
Proof.
  intros Hp Hpar.
  destruct (batch_outcomes_run env args a Hp) as (results & Ho & Hr & ->).
  exists results. split; [exact Ho|]. split; [|reflexivity].
  pose proof (spec_run (batch_parallel_outcomes env
                          (or_default (BatchGenerateArgs.outputDir a) ".")
                          (BatchGenerateArgs.config a)
                          (BatchGenerateArgs.prompts a))) as H.
  unfold batch_results in Hr. rewrite Hpar in Hr.
  destruct (run (batch_parallel _ _ _) env) as [[r|e] tr]; [|destruct H].
  cbn in Hr. inversion Hr; subst r. exact H.
Qed.

Lemma parallel_batch_outcomes_in_order_witness :
  parse BatchGenerateArgsSchema prompts_ABC_parallel
  = Ok (BatchGenerateArgs.Build ["A"; "B"; "C"] None None (Some true))
  /\ exists results,
       batch_outcomes prompts_ABC_parallel Demo.blocked_B_last_first_env
       = Ok results
       /\ map outcome_prompt results = ["A"; "B"; "C"]
       /\ fst (run (CallTool "batch_generate" prompts_ABC_parallel)
                   Demo.blocked_B_last_first_env)
          = Ok (success (batch_text results)).
Proof.
  assert (H : parse BatchGenerateArgsSchema prompts_ABC_parallel
              = Ok (BatchGenerateArgs.Build ["A"; "B"; "C"] None None (Some true)))
    by reflexivity.
  split; [exact H|].
  exact (parallel_batch_outcomes_in_order Demo.blocked_B_last_first_env
           prompts_ABC_parallel _ H eq_refl).
Defined.

(** In sequential mode the outcomes of a valid call, the list the
    handler builds and then puts into the text of its answer, are
    exactly one per prompt, in the order of the prompts, provided the
    model never answers without a first candidate that has parts; a
    request that throws, an answer without an image and a file that
    cannot be written each leave their outcome. *)
Theorem sequential_batch_outcomes_in_order (env : Env) (args : value)
        (a : BatchGenerateArgs.t) :
  parse BatchGenerateArgsSchema args = Ok a ->
  BatchGenerateArgs.parallel a <> Some true ->
  ~ answers_without_parts env ->
  exists results,
    batch_outcomes args env = Ok results
    /\ map outcome_prompt results = BatchGenerateArgs.prompts a
    /\ fst (run (CallTool "batch_generate" args) env)
       = Ok (success (batch_text results)).
Proof.
  intros Hp Hpar Hn.
  destruct (batch_outcomes_run env args a Hp) as (results & Ho & Hr & ->).
  exists results. split; [exact Ho|]. split; [|reflexivity].
  pose proof (spec_run (@batch_sequential_outcomes env
                          (or_default (BatchGenerateArgs.outputDir a) ".")
                          (BatchGenerateArgs.config a)
                          (BatchGenerateArgs.prompts a) Hn 0 [])) as H.
  unfold batch_results in Hr.
  destruct (BatchGenerateArgs.parallel a) as [[|]|]; try congruence;
    (destruct (run (batch_sequential _ _ _ _ _) env) as [[r|e] tr]; [|destruct H];
     cbn in Hr; inversion Hr; subst r; exact H).
Qed.

Lemma png_env_answers_with_parts : ~ answers_without_parts Demo.png_env.
Proof.
  intros (t & model & request & response & H1 & H2).
  cbn in H1. inversion H1; subst response. discriminate H2.
Qed.

Lemma sequential_batch_outcomes_in_order_witness :
  parse BatchGenerateArgsSchema prompts_ABC
  = Ok (BatchGenerateArgs.Build ["A"; "B"; "C"] None None None)
  /\ ~ answers_without_parts Demo.png_env
  /\ exists results,
       batch_outcomes prompts_ABC Demo.png_env = Ok results
       /\ map outcome_prompt results = ["A"; "B"; "C"]
       /\ fst (run (CallTool "batch_generate" prompts_ABC) Demo.png_env)
          = Ok (success (batch_text results)).
Proof.
  assert (H : parse BatchGenerateArgsSchema prompts_ABC
              = Ok (BatchGenerateArgs.Build ["A"; "B"; "C"] None None None))
    by reflexivity.
  assert (Hpar : BatchGenerateArgs.parallel
                   (BatchGenerateArgs.Build ["A"; "B"; "C"] None None None)
                 <> Some true) by discriminate.
  split; [exact H|]. split; [exact png_env_answers_with_parts|].
  exact (sequential_batch_outcomes_in_order Demo.png_env prompts_ABC _ H Hpar
           png_env_answers_with_parts).
Defined.

End BatchFacts.


(** ** The order of the events of a call, and where its image comes from *)

Module Inputs.
Import Js Zod Props Observations ZodFacts Validation Logic Classes Footprint.
Local Unset Implicit Arguments.

Lemma only_reads_lift {A} (r : result A) : only_reads (lift r).
Proof. intros env tr. exists []. cbn. rewrite app_nil_r. reflexivity. Qed.

Lemma only_reads_ret {A} (a : A) : only_reads (ret a).
Proof. intros env tr. exists []. cbn. rewrite app_nil_r. reflexivity. Qed.

Lemma only_reads_throw {A} e : only_reads (@throw A e).
Proof. intros env tr. exists []. cbn. rewrite app_nil_r. reflexivity. Qed.

Lemma only_reads_readFile path : only_reads (readFile path).
Proof. intros env tr. exists [path]. reflexivity. Qed.

Lemma only_reads_bind {A B} (m : M A) (k : A -> M B) :
  only_reads m -> (forall a, only_reads (k a)) -> only_reads (bind m k).
Proof.
  intros Hm Hk env tr. unfold bind.
  destruct (Hm env tr) as (p1 & H1).
  destruct (m env tr) as [[a|e] tr1]; cbn in *; subst tr1.
  - destruct (Hk a env (tr ++ map EReadFile p1)%list) as (p2 & H2).
    exists (p1 ++ p2)%list. rewrite map_app, app_assoc. exact H2.
  - exists p1. reflexivity.
Qed.

Ltac only_reads_all :=
  repeat (cbv beta zeta;
          lazymatch goal with
          | |- only_reads (ret _) => apply only_reads_ret
          | |- only_reads (throw _) => apply only_reads_throw
          | |- only_reads (lift _) => apply only_reads_lift
          | |- only_reads (readFile _) => apply only_reads_readFile
          | |- only_reads (bind _ _) => apply only_reads_bind; [|intros ?]
          | |- only_reads (if ?b then _ else _) => destruct b
          end).

Lemma only_reads_resolveImage imageData imagePath neither :
  only_reads (resolveImage imageData imagePath neither).
Proof. unfold resolveImage. only_reads_all. Qed.

Lemma only_reads_variations_baseImage imageData imagePath :
  only_reads (variations_baseImage imageData imagePath).
Proof. unfold variations_baseImage. only_reads_all. Qed.

Lemma only_reads_resolveImages images :
  forall i, only_reads (resolveImages i images).
Proof.
  induction images as [|image rest IH]; intros i; cbn [resolveImages].
  - apply only_reads_ret.
  - apply only_reads_bind; [apply only_reads_resolveImage|]. intros part.
    apply only_reads_bind; [apply IH|]. intros parts. apply only_reads_ret.
Qed.

Section Phases.
Variable R : list Event -> Prop.
Hypothesis R_nil : R [].

Lemma reads_then_adds {A} (m : M A) : adds R m -> reads_then R m.
Proof.
  intros H env tr. destruct (H env tr) as (rest & Htr & Hr).
  exists [], rest. auto.
Qed.

Lemma reads_then_bind {A B} (m : M A) (k : A -> M B) :
  only_reads m -> (forall a, reads_then R (k a)) -> reads_then R (bind m k).
Proof.
  intros Hm Hk env tr. unfold bind.
  destruct (Hm env tr) as (p1 & H1).
  destruct (m env tr) as [[a|e] tr1]; cbn in *; subst tr1.
  - destruct (Hk a env (tr ++ map EReadFile p1)%list) as (p2 & rest & H2 & Hr).
    exists (p1 ++ p2)%list, rest. split; [|exact Hr].
    rewrite H2, map_app. repeat rewrite <- app_assoc. reflexivity.
  - exists p1, []. rewrite app_nil_r. auto.
Qed.

Lemma reads_then_CallTool name args :
  reads_then R (dispatch name args) -> reads_then R (CallTool name args).
Proof.
  intros H env tr. unfold CallTool, try_catch.
  destruct (H env tr) as (paths & rest & Htr & Hr).
  destruct (dispatch name args env tr) as [[a|e] tr1]; cbn in *; eauto.
Qed.

Lemma reads_then_run {A} (m : M A) env :
  reads_then R m ->
  exists paths rest,
    snd (run m env) = (map EReadFile paths ++ rest)%list /\ R rest.
Proof. intros H. exact (H env []). Qed.

End Phases.

Lemma adds_emits P {A} (m : M A) : emits P m -> adds (Forall P) m.
Proof. intros H. exact H. Qed.

(** Reads, and then a part that reads nothing. *)
Lemma reads_then_quiet {A B} (m : M A) (k : A -> M B) :
  reads_then unread m ->
  (forall a, emits (fun e => ~ reads_disk e) (k a)) ->
  reads_then unread (bind m k).
Proof.
  intros Hm Hk env tr. unfold bind.
  destruct (Hm env tr) as (paths & r1 & H1 & Hr1).
  destruct (m env tr) as [[a|e] tr1]; cbn in *; subst tr1; [|eauto].
  destruct (Hk a env (tr ++ map EReadFile paths ++ r1)%list) as (r2 & H2 & Hr2).
  exists paths, (r1 ++ r2)%list. split.
  - rewrite H2. repeat rewrite <- app_assoc. reflexivity.
  - apply Forall_app. auto.
Qed.

Ltac unread_tail :=
  apply reads_then_adds, adds_emits; unfold saveImage; emits_all event_side.

Lemma reads_ahead name args : reads_then unread (dispatch name args).
Proof.
  assert (Hnil : unread []) by constructor.
  unfold dispatch.
  repeat match goal with
         | |- context [String.eqb name ?s] =>
             destruct (String.eqb_spec name s) as [->|_]
         end.
  - unfold handleGenerateImage. unread_tail.
  - unfold handleEditImage.
    apply reads_then_bind; [exact Hnil | apply only_reads_lift | intros a].
    apply reads_then_bind;
      [exact Hnil | apply only_reads_resolveImage | intros part].
    unread_tail.
  - unfold handleAnalyzeImage.
    apply reads_then_bind; [exact Hnil | apply only_reads_lift | intros a].
    apply reads_then_bind;
      [exact Hnil | apply only_reads_resolveImage | intros part].
    unread_tail.
  - unfold handleMultiImageEdit.
    apply reads_then_bind; [exact Hnil | apply only_reads_lift | intros a].
    apply reads_then_bind;
      [exact Hnil | apply only_reads_resolveImages | intros parts].
    unread_tail.
  - apply reads_then_adds, adds_emits.
    unfold handleBatchGenerate. emits_step event_side.
    apply emits_bind; [|intros results; apply emits_ret].
    apply batch_results_emits; cbn; tauto.
  - unfold handleGenerateVariations.
    apply reads_then_bind; [exact Hnil | apply only_reads_lift | intros a].
    apply reads_then_quiet; [|intros results; apply emits_ret].
    unfold variations_results.
    apply reads_then_bind;
      [exact Hnil | apply only_reads_variations_baseImage | intros imagePart].
    apply reads_then_adds, adds_emits. apply emits_for_lt. intros i results.
    unfold variation_step, saveImage. emits_all event_side.
  - unfold handleGenerateWithTemplate. unread_tail.
  - unfold handleCompareImages.
    apply reads_then_bind; [exact Hnil | apply only_reads_lift | intros a].
    apply reads_then_bind;
      [exact Hnil | apply only_reads_readFile | intros image1].
    apply reads_then_bind;
      [exact Hnil | apply only_reads_readFile | intros image2].
    unread_tail.
  - apply reads_then_adds, adds_emits, emits_throw.
Qed.

(** Whatever the tool and its arguments, a call reads its files before
    anything else: the trace is reads of files followed by events none
    of which is a read, so no file is read once a request has been
    sent. *)
Theorem reads_come_first (env : Env) (name : String.string) (args : value) :
  exists paths rest,
    snd (run (CallTool name args) env) = (map EReadFile paths ++ rest)%list
    /\ Forall (fun e => ~ reads_disk e) rest.
Proof.
  apply (reads_then_run unread), reads_then_CallTool, reads_ahead.
Qed.

(** *** The tools that ask the model once *)

Lemma adds_ret R {A} (a : A) : R [] -> adds R (ret a).
Proof. intros H env tr. exists []. cbn. rewrite app_nil_r. auto. Qed.

Lemma adds_bind_lift R {A B} (r : result A) (k : A -> M B) :
  R [] -> (forall a, adds R (k a)) -> adds R (bind (lift r) k).
Proof.
  intros Hnil Hk env tr. unfold bind, lift. destruct r as [a|e].
  - exact (Hk a env tr).
  - exists []. cbn. rewrite app_nil_r. auto.
Qed.

Lemma adds_bind_ret R {A B} (m : M A) (f : A -> B) :
  adds R m -> adds R (bind m (fun a => ret (f a))).
Proof.
  intros Hm env tr. unfold bind, ret. destruct (Hm env tr) as (rest & Htr & Hr).
  destruct (m env tr) as [[a|e] tr1]; cbn in *; eauto.
Qed.

Lemma adds_saveImage outputDir filename data :
  adds saved (saveImage outputDir filename data).
Proof.
  intros env tr. unfold saveImage, bind, timestamp_now, mkdir, writeFile, ret.
  cbv zeta.
  destruct (env_mkdir env _ outputDir);
    [destruct (env_writeFile env _ _ data)|];
    cbn [snd is_ok]; repeat rewrite <- app_assoc; cbn [app];
    eexists; (split; [reflexivity | exact I]).
Qed.

Lemma adds_request {A} model request (k : Gemini.Response -> M A) :
  (forall response, adds saved (k response)) ->
  adds one_shot (bind (generateContent model request) k).
Proof.
  intros Hk env tr. unfold bind, generateContent.
  destruct (env_generateContent env _ model request) as [response|e].
  - destruct (Hk response env (tr ++ [EGenerateContent model request])%list)
      as (rest & Htr & Hr).
    exists (EGenerateContent model request :: rest). split; [|exact Hr].
    rewrite Htr, <- app_assoc. reflexivity.
  - exists [EGenerateContent model request]. split; [reflexivity | exact I].
Qed.

(** The request of a tool that saves an image, and what follows it. *)
Ltac image_shot :=
  cbv beta zeta; apply reads_then_adds, adds_request; intros ?;
  apply adds_bind_lift; [exact I | intros ?];
  cbv beta zeta; apply adds_bind_ret, adds_saveImage.

(** The request of a tool that answers with text, and what follows it. *)
Ltac text_shot :=
  cbv beta zeta; apply reads_then_adds, adds_request; intros ?;
  apply adds_bind_lift; [exact I | intros ?];
  apply adds_ret; exact I.

Ltac after_reads only :=
  apply reads_then_bind; [exact I | apply only | intros ?].

(** A call of one of the six tools that ask the model once goes through
    the same steps: it reads its files, sends one request, takes the
    timestamp, makes the directory and writes one file, in this order
    and each step once at most; it stops at the first step that fails.
    No request is sent twice and no second file is written. *)
Theorem single_shot_protocol (env : Env) (name : String.string) (args : value) :
  In name ["generate_image"; "edit_image"; "analyze_image"; "multi_image_edit";
           "generate_with_template"; "compare_images"] ->
  exists paths rest,
    snd (run (CallTool name args) env) = (map EReadFile paths ++ rest)%list
    /\ one_shot rest.
Proof.
  intros Hn. apply (reads_then_run one_shot), reads_then_CallTool.
  unfold dispatch.
  repeat destruct Hn as [<-|Hn]; try destruct Hn;
    cbn [String.eqb Ascii.eqb Bool.eqb].
  - unfold handleGenerateImage. after_reads @only_reads_lift. image_shot.
  - unfold handleEditImage. after_reads @only_reads_lift.
    after_reads only_reads_resolveImage. image_shot.
  - unfold handleAnalyzeImage. after_reads @only_reads_lift.
    after_reads only_reads_resolveImage. text_shot.
  - unfold handleMultiImageEdit. after_reads @only_reads_lift.
    after_reads only_reads_resolveImages. image_shot.
  - unfold handleGenerateWithTemplate. after_reads @only_reads_lift. image_shot.
  - unfold handleCompareImages. after_reads @only_reads_lift.
    after_reads only_reads_readFile. after_reads only_reads_readFile. text_shot.
Qed.

Lemma single_shot_protocol_witness :
  In "edit_image"
     ["generate_image"; "edit_image"; "analyze_image"; "multi_image_edit";
      "generate_with_template"; "compare_images"]
  /\ exists paths rest,
       snd (run (CallTool "edit_image"
                   (VObj [("prompt", VStr "brighter"); ("imagePath", VStr "a.png")]))
                Demo.png_env)
       = (map EReadFile paths ++ rest)%list
       /\ one_shot rest.
Proof.
  assert (H : In "edit_image"
                 ["generate_image"; "edit_image"; "analyze_image";
                  "multi_image_edit"; "generate_with_template"; "compare_images"])
    by (right; left; reflexivity).
  split; [exact H|].
  exact (single_shot_protocol Demo.png_env "edit_image"
           (VObj [("prompt", VStr "brighter"); ("imagePath", VStr "a.png")]) H).
Defined.

(** *** Inline data comes before the path *)

Lemma string_value p v s : parsed_value (Zod.string p v) = Some s -> v = VStr s.
Proof. destruct v; cbn; try discriminate. congruence. Qed.

Lemma optional_string_value k fs p o d :
  field k (VObj fs) = VStr d ->
  parsed_value (optional Zod.string p (lookup k fs)) = Some o ->
  o = Some d.
Proof.
  cbn [field]. intros Hf H. rewrite Hf in H. cbn in H. congruence.
Qed.

Ltac imageData_of_args H Hd :=
  apply parse_refine in H as [_ H];
  apply parse_ok_value in H as [H _];
  apply object_value in H as (? & -> & H);
  open_shape H;
  match goal with
  | E : parsed_value (optional Zod.string _ (lookup "imageData" _)) = Some _ |- _ =>
      apply (optional_string_value _ _ _ _ _ Hd) in E; exact E
  end.

Lemma EditImageArgs_imageData args a d :
  parse EditImageArgsSchema args = Ok a ->
  field "imageData" args = VStr d -> EditImageArgs.imageData a = Some d.
Proof. intros H Hd. imageData_of_args H Hd. Qed.

Lemma AnalyzeImageArgs_imageData args a d :
  parse AnalyzeImageArgsSchema args = Ok a ->
  field "imageData" args = VStr d -> AnalyzeImageArgs.imageData a = Some d.
Proof. intros H Hd. imageData_of_args H Hd. Qed.

Lemma GenerateVariationsArgs_imageData args a d :
  parse GenerateVariationsArgsSchema args = Ok a ->
  field "imageData" args = VStr d -> GenerateVariationsArgs.imageData a = Some d.
Proof. intros H Hd. imageData_of_args H Hd. Qed.

Lemma truthy_Some d : d <> "" -> truthy (Some d) = true.
Proof.
  intros H. cbn. destruct (String.eqb_spec d ""); [contradiction | reflexivity].
Qed.

Lemma emits_bind_ret P {A B} (a : A) (k : A -> M B) :
  emits P (k a) -> emits P (bind (ret a) k).
Proof. intros H env tr. exact (H env tr). Qed.

Ltac inline_side :=
  cbn; first [tauto | split; [tauto | auto]].

(** When [edit_image], [analyze_image] or [generate_variations] is given
    inline [imageData] that is not empty, that data is the image: no file
    is read, whatever [imagePath] says, and every request of the call
    carries the data, declared as [image/png]. *)
Theorem inline_data_is_used_unread (env : Env) (name : String.string)
        (args : value) (d : String.string) :
  In name ["edit_image"; "analyze_image"; "generate_variations"] ->
  field "imageData" args = VStr d ->
  d <> "" ->
  Forall (fun e => ~ reads_disk e /\ carries (inline_png d) e)
         (snd (run (CallTool name args) env)).
Proof.
  intros Hn Hd Hne. apply emits_run, emits_CallTool. unfold dispatch.
  repeat destruct Hn as [<-|Hn]; try destruct Hn;
    cbn [String.eqb Ascii.eqb Bool.eqb].
  - unfold handleEditImage. apply emits_bind_lift. intros a Hp. cbv beta zeta.
    unfold resolveImage.
    rewrite (EditImageArgs_imageData _ _ _ Hp Hd), (truthy_Some _ Hne).
    apply emits_bind_ret. unfold saveImage. emits_all inline_side.
  - unfold handleAnalyzeImage. apply emits_bind_lift. intros a Hp. cbv beta zeta.
    unfold resolveImage.
    rewrite (AnalyzeImageArgs_imageData _ _ _ Hp Hd), (truthy_Some _ Hne).
    apply emits_bind_ret. emits_all inline_side.
  - unfold handleGenerateVariations. apply emits_bind_lift. intros a Hp.
    apply emits_bind; [|intros results; apply emits_ret].
    unfold variations_results. cbv beta zeta. unfold variations_baseImage.
    rewrite (GenerateVariationsArgs_imageData _ _ _ Hp Hd), (truthy_Some _ Hne).
    apply emits_bind_ret. apply emits_for_lt. intros i results.
    unfold variation_step, saveImage. emits_all inline_side.
Qed.

Lemma inline_data_is_used_unread_witness :
  In "edit_image" ["edit_image"; "analyze_image"; "generate_variations"]
  /\ field "imageData"
           (VObj [("prompt", VStr "brighter"); ("imageData", VStr "iVBORw0KGgo=");
                  ("imagePath", VStr "a.jpg")])
     = VStr "iVBORw0KGgo="
  /\ "iVBORw0KGgo=" <> ""
  /\ Forall (fun e => ~ reads_disk e /\ carries (inline_png "iVBORw0KGgo=") e)
            (snd (run (CallTool "edit_image"
                         (VObj [("prompt", VStr "brighter");
                                ("imageData", VStr "iVBORw0KGgo=");
                                ("imagePath", VStr "a.jpg")]))
                      Demo.png_env)).
Proof.
  assert (H : In "edit_image" ["edit_image"; "analyze_image"; "generate_variations"])
    by (left; reflexivity).
  assert (Hd : field "imageData"
                 (VObj [("prompt", VStr "brighter");
                        ("imageData", VStr "iVBORw0KGgo=");
                        ("imagePath", VStr "a.jpg")])
               = VStr "iVBORw0KGgo=") by reflexivity.
  assert (Hne : "iVBORw0KGgo=" <> "") by discriminate.
  split; [exact H|]. split; [exact Hd|]. split; [exact Hne|].
  exact (inline_data_is_used_unread Demo.png_env "edit_image" _ "iVBORw0KGgo="
           H Hd Hne).
Defined.

(** *** The images of [multi_image_edit] *)

Lemma CallTool_trace name args env :
  snd (run (CallTool name args) env) = snd (run (dispatch name args) env).
Proof.
  unfold run, CallTool, try_catch, with_env, ret.
  destruct (dispatch name args env []) as [[a|e] tr]; reflexivity.
Qed.

Lemma reads_of_reads paths rest :
  reads (map EReadFile paths ++ rest) = (paths ++ reads rest)%list.
Proof. induction paths as [|p ps IH]; cbn; [reflexivity | rewrite IH; reflexivity]. Qed.

Lemma requests_of_reads paths rest :
  requests (map EReadFile paths ++ rest) = requests rest.
Proof. induction paths as [|p ps IH]; cbn; [reflexivity | exact IH]. Qed.

Lemma saved_projections rest : saved rest -> reads rest = [] /\ requests rest = [].
Proof.
  unfold saved. intros H.
  repeat match goal with
         | H : match ?x with _ => _ end |- _ => destruct x; try contradiction
         end; split; reflexivity.
Qed.

Lemma spec_adds R {A} env (m : M A) :
  adds R m -> spec env m (fun _ n => R n) (fun _ n => R n).
Proof.
  intros H tr. destruct (H env tr) as (rest & Htr & Hr).
  exists rest. split; [exact Htr|]. destruct (fst (m env tr)); exact Hr.
Qed.

Lemma adds_asked {A} model request (k : Gemini.Response -> M A) :
  (forall response, adds saved (k response)) ->
  adds (asked model request) (bind (generateContent model request) k).
Proof.
  intros Hk env tr. unfold bind, generateContent.
  destruct (env_generateContent env _ model request) as [response|e].
  - destruct (Hk response env (tr ++ [EGenerateContent model request])%list)
      as (rest & Htr & Hr).
    exists (EGenerateContent model request :: rest). split.
    + rewrite Htr, <- app_assoc. reflexivity.
    + exists rest. auto.
  - exists [EGenerateContent model request]. split; [reflexivity|].
    exists []. split; [reflexivity | exact I].
Qed.

Lemma truthy_or_default o : truthy o = true -> o = Some (or_default o "").
Proof. destruct o; [reflexivity | discriminate]. Qed.

(** One image: its path is read when it has no inline data, and the
    part made of it stands for it. *)
Lemma spec_resolveImage_attached env image neither :
  spec env (resolveImage (ImageInput.imageData image) (ImageInput.imagePath image)
                         neither)
       (fun d n => n = map EReadFile (path_to_read image)
                   /\ attached image (Gemini.InlineDataPart d))
       (fun _ n => exists paths later,
                     n = map EReadFile paths
                     /\ path_to_read image = (paths ++ later)%list).
Proof.
  unfold resolveImage, path_to_read, attached, declared_type.
  destruct (truthy (ImageInput.imageData image)) eqn:Ed.
  - apply spec_ret. split; [reflexivity|].
    eexists. split; [reflexivity|]. split; [reflexivity|].
    intros _. cbn [Gemini.data]. destruct (ImageInput.imageData image);
      [reflexivity | discriminate].
  - destruct (truthy (ImageInput.imagePath image)) eqn:Ep.
    + assert (Hpath : match ImageInput.imagePath image with
                      | Some p => p
                      | None => ""
                      end = or_default (ImageInput.imagePath image) "")
        by reflexivity.
      rewrite Hpath.
      eapply spec_bind; [apply spec_readFile | |].
      * intros e n ->. exists [or_default (ImageInput.imagePath image) ""], [].
        split; reflexivity.
      * intros data n ->. apply spec_ret. split; [reflexivity|].
        eexists. split; [reflexivity|]. split; [reflexivity|]. discriminate.
    + apply spec_throw. exists [], []. split; reflexivity.
Qed.

Lemma spec_resolveImages_attached env images :
  forall i,
    spec env (resolveImages i images)
         (fun parts n => n = map EReadFile (paths_to_read images)
                         /\ Forall2 attached images parts)
         (fun _ n => exists paths later,
                       n = map EReadFile paths
                       /\ paths_to_read images = (paths ++ later)%list).
Proof.
  induction images as [|image rest IH]; intros i; cbn [resolveImages].
  - apply spec_ret. split; [reflexivity | constructor].
  - eapply spec_bind; [apply spec_resolveImage_attached | |].
    + intros e n (paths & later & -> & Hl).
      exists paths, (later ++ paths_to_read rest)%list. split; [reflexivity|].
      unfold paths_to_read. cbn [flat_map]. rewrite Hl, <- app_assoc. reflexivity.
    + intros d n1 [-> Hd].
      eapply spec_bind; [apply IH | |].
      * intros e n (paths & later & -> & Hl).
        exists (path_to_read image ++ paths)%list, later. split.
        -- rewrite map_app. reflexivity.
        -- unfold paths_to_read in *. cbn [flat_map].
           rewrite Hl, app_assoc. reflexivity.
      * intros parts n2 [-> Hparts]. apply spec_ret. rewrite app_nil_r. split.
        -- unfold paths_to_read. cbn [flat_map]. rewrite map_app. reflexivity.
        -- constructor; assumption.
Qed.

(** The trace of [multi_image_edit] on valid arguments: reads that are a
    prefix of the paths to read, and, only after all of them, the
    request with one part per image. *)
Lemma multi_image_trace env args a :
  parse MultiImageEditArgsSchema args = Ok a ->
  exists paths later tail,
    snd (run (CallTool "multi_image_edit" args) env)
    = (map EReadFile paths ++ tail)%list
    /\ paths_to_read (MultiImageEditArgs.images a) = (paths ++ later)%list
    /\ (tail = []
        \/ (later = []
            /\ exists parts,
                 asked image_model
                       (user_request
                          (Gemini.TextPart (MultiImageEditArgs.prompt a) :: parts)
                          (Some (imageGenerationConfig
                                   (MultiImageEditArgs.config a))))
                       tail
                 /\ Forall2 attached (MultiImageEditArgs.images a) parts)).
Proof.
  intros Hp. rewrite CallTool_trace. cbn [dispatch String.eqb Ascii.eqb Bool.eqb].
  assert (H : spec env (handleMultiImageEdit args)
                (fun _ n =>
                   exists paths later tail,
                     n = (map EReadFile paths ++ tail)%list
                     /\ paths_to_read (MultiImageEditArgs.images a)
                        = (paths ++ later)%list
                     /\ (tail = []
                         \/ (later = []
                             /\ exists parts,
                                  asked image_model
                                        (user_request
                                           (Gemini.TextPart
                                              (MultiImageEditArgs.prompt a) :: parts)
                                           (Some (imageGenerationConfig
                                                    (MultiImageEditArgs.config a))))
                                        tail
                                  /\ Forall2 attached
                                       (MultiImageEditArgs.images a) parts)))
                (fun _ n =>
                   exists paths later tail,
                     n = (map EReadFile paths ++ tail)%list
                     /\ paths_to_read (MultiImageEditArgs.images a)
                        = (paths ++ later)%list
                     /\ (tail = []
                         \/ (later = []
                             /\ exists parts,
                                  asked image_model
                                        (user_request
                                           (Gemini.TextPart
                                              (MultiImageEditArgs.prompt a) :: parts)
                                           (Some (imageGenerationConfig
                                                    (MultiImageEditArgs.config a))))
                                        tail
                                  /\ Forall2 attached
                                       (MultiImageEditArgs.images a) parts)))).
  { unfold handleMultiImageEdit. apply spec_bind_lift. rewrite Hp. cbv beta zeta.
    eapply spec_bind; [apply spec_resolveImages_attached | |].
    - intros e n (paths & later & -> & Hl).
      exists paths, later, []. rewrite app_nil_r. auto.
    - intros parts n1 [-> Hparts].
      eapply spec_weaken.
      + apply spec_adds, adds_asked. intros response.
        apply adds_bind_lift; [exact I | intros part].
        cbv beta zeta. apply adds_bind_ret, adds_saveImage.
      + intros r tail Hasked.
        exists (paths_to_read (MultiImageEditArgs.images a)), [], tail.
        split; [reflexivity|]. split; [rewrite app_nil_r; reflexivity|].
        right. split; [reflexivity|]. exists parts. split; [exact Hasked | exact Hparts].
      + intros e tail Hasked.
        exists (paths_to_read (MultiImageEditArgs.images a)), [], tail.
        split; [reflexivity|]. split; [rewrite app_nil_r; reflexivity|].
        right. split; [reflexivity|]. exists parts. split; [exact Hasked | exact Hparts]. }
  pose proof (spec_run H) as Hrun.
  destruct (run (handleMultiImageEdit args) env) as [[r|e] tr]; exact Hrun.
Qed.

(** On valid arguments [multi_image_edit] reads the paths of the images
    that have no inline data, in the order of the images and up to the
    first read that fails.  A request is sent only when all of them have
    been read, and its parts are the prompt followed by one image per
    image of the arguments, in their order, each with the type declared
    for it and with its inline data when it has some. *)
Theorem multi_image_parts_in_order (env : Env) (args : value)
        (a : MultiImageEditArgs.t) :
  parse MultiImageEditArgsSchema args = Ok a ->
  (exists later,
     paths_to_read (MultiImageEditArgs.images a)
     = (reads (snd (run (CallTool "multi_image_edit" args) env)) ++ later)%list)
  /\ forall model request,
       In (model, request)
          (requests (snd (run (CallTool "multi_image_edit" args) env))) ->
       reads (snd (run (CallTool "multi_image_edit" args) env))
       = paths_to_read (MultiImageEditArgs.images a)
       /\ exists parts,
            Gemini.request_parts request
            = Gemini.TextPart (MultiImageEditArgs.prompt a) :: parts
            /\ Forall2 attached (MultiImageEditArgs.images a) parts.
Proof.
  intros Hp.
  destruct (multi_image_trace env args a Hp) as (paths & later & tail & -> & Hl & Ht).
  rewrite reads_of_reads, requests_of_reads.
  destruct Ht as [->|(-> & parts & (rest & -> & Hs) & Hparts)].
  - cbn [reads requests]. rewrite app_nil_r. split; [eauto|]. intros ? ? [].
  - apply saved_projections in Hs as [Hr Hq]. cbn [reads requests].
    rewrite Hr, Hq, app_nil_r. rewrite app_nil_r in Hl.
    split; [exists []; rewrite app_nil_r; exact Hl|].
    intros model request [Heq|[]]. inversion Heq; subst.
    split; [auto|]. exists parts. auto.
Qed.

Lemma multi_image_parts_in_order_witness :
  let args :=
    VObj [("prompt", VStr "combine");
          ("images", VArr [VObj [("imagePath", VStr "pose.JPG")];
                           VObj [("imageData", VStr "iVBORw0KGgo=")]])] in
  let a :=
    MultiImageEditArgs.Build "combine"
      [ImageInput.Build None (Some "pose.JPG") None;
       ImageInput.Build (Some "iVBORw0KGgo=") None None]
      None None in
  parse MultiImageEditArgsSchema args = Ok a
  /\ (exists later,
        paths_to_read (MultiImageEditArgs.images a)
        = (reads (snd (run (CallTool "multi_image_edit" args) Demo.png_env))
           ++ later)%list)
  /\ forall model request,
       In (model, request)
          (requests (snd (run (CallTool "multi_image_edit" args) Demo.png_env))) ->
       reads (snd (run (CallTool "multi_image_edit" args) Demo.png_env))
       = paths_to_read (MultiImageEditArgs.images a)
       /\ exists parts,
            Gemini.request_parts request
            = Gemini.TextPart (MultiImageEditArgs.prompt a) :: parts
            /\ Forall2 attached (MultiImageEditArgs.images a) parts.
Proof.
  intros args a.
  assert (H : parse MultiImageEditArgsSchema args = Ok a) by reflexivity.
  split; [exact H|].
  exact (multi_image_parts_in_order Demo.png_env args a H).
Defined.

End Inputs.


(** ** The order of the events of a batch *)

Module Rounds.
Import Js Zod Props Observations Logic Handlers Batch Classes Footprint BatchFacts
       Inputs.
Local Unset Implicit Arguments.

Lemma adds_try_catch_ret R {A} (m : M A) (f : Env -> thrown -> A) :
  adds R m ->
  adds R (try_catch m (fun error => with_env (fun env => ret (f env error)))).
Proof.
  intros Hm env tr. unfold try_catch, with_env, ret.
  destruct (Hm env tr) as (rest & Htr & Hr).
  destruct (m env tr) as [[a|e] tr1]; cbn in *; eauto.
Qed.

Lemma adds_batch_sequential_step outputDir config i prompt results :
  adds (asked image_model (batch_request config prompt))
       (batch_sequential_step outputDir config i prompt results).
Proof.
  unfold batch_sequential_step. apply adds_try_catch_ret.
  apply adds_asked. intros response.
  apply adds_bind_lift; [exact I | intros parts].
  destruct parts as [ps|]; [|apply adds_ret; exact I].
  destruct (find_image (Some ps)); [|apply adds_ret; exact I].
  apply adds_bind_ret, adds_saveImage.
Qed.

Lemma spec_batch_sequential_rounds env outputDir config prompts :
  forall i results,
    spec env (batch_sequential outputDir config i prompts results)
         (fun _ n => rounds config prompts n) (fun _ _ => False).
Proof.
  induction prompts as [|prompt rest IH]; intros i results; cbn [batch_sequential].
  - apply spec_ret. exists []. split; [reflexivity | constructor].
  - eapply spec_bind.
    + apply spec_conj;
        [apply spec_batch_sequential_step_accounted
        | apply spec_adds, adds_batch_sequential_step].
    + intros e n [[] _].
    + intros results1 n1 [_ H1].
      eapply spec_weaken; [apply IH | | auto].
      intros results2 n2 (groups & -> & Hg). exists (n1 :: groups).
      split; [reflexivity | constructor; assumption].
Qed.

Lemma spec_batch_start_events env config prompts :
  forall index,
    spec env (batch_start config index prompts)
         (fun pending n =>
            n = map (batch_request_event config) prompts
            /\ List.length pending = List.length prompts)
         (fun _ _ => False).
Proof.
  induction prompts as [|prompt rest IH]; intros index; cbn [batch_start].
  - apply spec_ret. auto.
  - eapply spec_bind;
      [apply spec_attempt, spec_generateContent | intros ? ? [] |].
    intros r n1 Hn1.
    assert (Hn : n1 = [batch_request_event config prompt])
      by (destruct r; exact Hn1).
    subst n1.
    eapply spec_bind; [apply IH | intros ? ? [] |].
    intros tasks n2 [-> Hlen]. apply spec_ret.
    rewrite app_nil_r. cbn [app map List.length]. auto.
Qed.

Lemma spec_batch_results_order env a :
  spec env (batch_results a)
       (fun _ n =>
          if in_parallel a
          then requests_then_saves (BatchGenerateArgs.config a)
                                   (BatchGenerateArgs.prompts a) n
          else rounds (BatchGenerateArgs.config a) (BatchGenerateArgs.prompts a) n)
       (fun _ _ => False).
Proof.
  unfold batch_results, in_parallel. cbv zeta.
  destruct (match BatchGenerateArgs.parallel a with Some b => b | None => false end).
  - unfold batch_parallel.
    eapply spec_bind; [apply spec_batch_start_events | intros ? ? [] |].
    intros pending n1 [-> Hlen].
    eapply spec_bind.
    + apply spec_conj;
        [apply spec_batch_settle_accounted
        | apply (spec_adds (Forall saving)), adds_emits, batch_settle_emits;
          cbn; tauto].
    + intros e n2 [[] _].
    + intros settled n2 [_ Hn2]. apply spec_ret.
      rewrite app_nil_r. exists n2. split; [reflexivity | exact Hn2].
  - apply spec_batch_sequential_rounds.
Qed.

(** The order of the events of a valid [batch_generate] call.  Without
    [parallel] the prompts are handled one after the other: the request
    for a prompt, then the timestamp, the directory and the file for its
    image, and only then the request for the next prompt.  With
    [parallel] the requests for all the prompts are sent first, in the
    order of the prompts, and what follows them is timestamps,
    directories and files only. *)
Theorem batch_order_of_events (env : Env) (args : value) (a : BatchGenerateArgs.t) :
  parse BatchGenerateArgsSchema args = Ok a ->
  if in_parallel a
  then requests_then_saves (BatchGenerateArgs.config a) (BatchGenerateArgs.prompts a)
                           (snd (run (CallTool "batch_generate" args) env))
  else rounds (BatchGenerateArgs.config a) (BatchGenerateArgs.prompts a)
              (snd (run (CallTool "batch_generate" args) env)).
Proof.
  intros Hp. rewrite CallTool_trace. cbn [dispatch String.eqb Ascii.eqb Bool.eqb].
  destruct (batch_run env args a Hp) as (results & -> & _). cbn [snd].
  pose proof (spec_run (spec_batch_results_order env a)) as H.
  destruct (run (batch_results a) env) as [[r|e] tr]; [exact H | destruct H].
Qed.

Lemma batch_order_of_events_witness :
  parse BatchGenerateArgsSchema prompts_ABC_parallel
  = Ok (BatchGenerateArgs.Build ["A"; "B"; "C"] None None (Some true))
  /\ requests_then_saves None ["A"; "B"; "C"]
       (snd (run (CallTool "batch_generate" prompts_ABC_parallel)
                 Demo.blocked_B_last_first_env)).
Proof.
  assert (H : parse BatchGenerateArgsSchema prompts_ABC_parallel
              = Ok (BatchGenerateArgs.Build ["A"; "B"; "C"] None None (Some true)))
    by reflexivity.
  split; [exact H|].
  exact (batch_order_of_events Demo.blocked_B_last_first_env
           prompts_ABC_parallel _ H).
Defined.

End Rounds.


(** ** Where the data of the files comes from *)

Module Relay.
Import Js Zod Props Observations Logic Handlers Classes Footprint Inputs.
Local Unset Implicit Arguments.

Lemma extractImage_first_image noCandidates response part :
  extractImage noCandidates response = Ok part -> first_image response = Some part.
Proof.
  unfold extractImage, first_image, first_candidate_parts, find_image.
  destruct (Gemini.candidates response) as [[|candidate rest]|]; try discriminate.
  destruct (Gemini.content candidate) as [c|]; try discriminate.
  destruct (Gemini.parts c) as [[|p ps]|]; try discriminate.
  destruct (find Gemini.has_inlineData (p :: ps)) as [[| |]|]; try discriminate.
  congruence.
Qed.

Section Rules.
Variable env : Env.

Lemma relays_ret {A} (R : A -> Prop) a : R a -> relays env (ret a) R.
Proof. intros H. apply spec_ret. auto. Qed.

Lemma relays_lift {A} (r : result A) : relays env (lift r) (fun a => r = Ok a).
Proof. apply spec_lift. destruct r; auto. Qed.

Lemma relays_weaken {A} (m : M A) (R R' : A -> Prop) :
  relays env m R -> (forall a, R a -> R' a) -> relays env m R'.
Proof.
  intros Hm HR. eapply spec_weaken; [exact Hm | | auto].
  intros a n [Hn Ha]. auto.
Qed.

Lemma relays_bind {A B} (m : M A) (k : A -> M B) (R : A -> Prop) (R' : B -> Prop) :
  relays env m R -> (forall a, R a -> relays env (k a) R') ->
  relays env (bind m k) R'.
Proof.
  intros Hm Hk. eapply spec_bind; [exact Hm | auto |].
  intros a n1 [Hn1 Ha].
  eapply spec_weaken; [exact (Hk a Ha) | |].
  - intros b n2 [Hn2 Hb]. split; [apply Forall_app; auto | exact Hb].
  - intros e n2 Hn2. apply Forall_app; auto.
Qed.

Lemma relays_try_catch {A} (m : M A) (handler : thrown -> M A) (R : A -> Prop) :
  relays env m R -> (forall e, relays env (handler e) R) ->
  relays env (try_catch m handler) R.
Proof.
  intros Hm Hh. eapply spec_try_catch; [exact Hm|].
  intros e n1 Hn1.
  eapply spec_weaken; [exact (Hh e) | |].
  - intros b n2 [Hn2 Hb]. split; [apply Forall_app; auto | exact Hb].
  - intros e' n2 Hn2. apply Forall_app; auto.
Qed.

Lemma relays_with_env {A} (f : Env -> M A) (R : A -> Prop) :
  relays env (f env) R -> relays env (with_env f) R.
Proof. apply spec_with_env. Qed.

(** What does not change the disk writes nothing at all. *)
Lemma relays_quiet {A} (m : M A) :
  emits (fun e => ~ changes_disk e) m -> relays env m (fun _ => True).
Proof.
  intros H tr. destruct (H env tr) as (new & Htr & Hn).
  assert (Hf : Forall (from_model env) new).
  { eapply Forall_impl; [|exact Hn]. intros [] He; cbn in *; tauto. }
  exists new. split; [exact Htr|]. destruct (fst (m env tr)); auto.
Qed.

Lemma relays_generateContent model request :
  relays env (generateContent model request) (answered env).
Proof.
  eapply spec_weaken; [apply spec_generateContent_answer | |].
  - intros response n [-> [t Ht]]. split; [repeat constructor|].
    exists t, model, request. exact Ht.
  - intros e n ->. repeat constructor.
Qed.

Lemma relays_saveImage outputDir filename data :
  model_image env data ->
  relays env (saveImage outputDir filename data) (fun _ => True).
Proof.
  intros Hd tr. destruct (adds_saveImage outputDir filename data env tr)
    as (rest & Htr & Hs).
  assert (Hw : forall path w, rest = [EDate; EMkdir outputDir; EWriteFile path data w]
                              -> Forall (from_model env) rest).
  { intros path w ->. repeat constructor. exact Hd. }
  exists rest. split; [exact Htr|].
  assert (Hf : Forall (from_model env) rest).
  { revert Htr Hs. unfold saveImage, bind, timestamp_now, mkdir, writeFile, ret.
    cbv zeta.
    destruct (env_mkdir env _ outputDir);
      [destruct (env_writeFile env _ _ data)|];
      cbn [snd is_ok]; repeat rewrite <- app_assoc; cbn [app];
      intros Htr _; apply app_inv_head in Htr; subst rest;
      repeat constructor; exact Hd. }
  destruct (fst (saveImage outputDir filename data env tr)); auto.
Qed.

Lemma relays_for_lt {S} (count : Q) (body : nat -> S -> M S) :
  (forall i s, relays env (body i s) (fun _ => True)) ->
  forall fuel i s, relays env (for_lt fuel i count body s) (fun _ => True).
Proof.
  intros Hb. induction fuel as [|fuel IH]; intros i s; cbn [for_lt].
  - apply relays_ret. exact I.
  - destruct (Qlt_bool (inject_Z (Z.of_nat i)) count); [|apply relays_ret; exact I].
    eapply relays_bind; [apply Hb | intros s' _; apply IH].
Qed.

(** The part of a handler from its request on, when it saves the image
    that [extractImage] finds. *)
Lemma relays_request_and_save {A} model request noCandidates
      (k : Gemini.InlineData -> M A) :
  (forall response part,
     answered env response -> extractImage noCandidates response = Ok part ->
     relays env (k part) (fun _ => True)) ->
  relays env (result <- generateContent model request ;;
              part <- lift (extractImage noCandidates result) ;;
              k part)
         (fun _ => True).
Proof.
  intros Hk.
  eapply relays_bind; [apply relays_generateContent|]. intros response Ha.
  eapply relays_bind; [apply relays_lift|]. intros part Hx.
  exact (Hk response part Ha Hx).
Qed.

Lemma relays_save_and_answer {A} outputDir filename part (f : String.string -> A)
      noCandidates response :
  answered env response -> extractImage noCandidates response = Ok part ->
  relays env (filepath <- saveImage outputDir filename (Gemini.data part) ;;
              ret (f filepath))
         (fun _ => True).
Proof.
  intros Ha Hx.
  eapply relays_bind; [|intros filepath _; apply relays_ret; exact I].
  apply relays_saveImage. exists response, part.
  split; [exact Ha|]. split; [|reflexivity].
  exact (extractImage_first_image _ _ _ Hx).
Qed.

Lemma relays_save_found {A} outputDir filename parts part (f : String.string -> A)
      response :
  answered env response -> first_candidate_parts response = Ok parts ->
  find_image parts = Some part ->
  relays env (filepath <- saveImage outputDir filename (Gemini.data part) ;;
              ret (f filepath))
         (fun _ => True).
Proof.
  intros Ha Hx Hf.
  eapply relays_bind; [|intros filepath _; apply relays_ret; exact I].
  apply relays_saveImage. exists response, part.
  split; [exact Ha|]. split; [|reflexivity].
  unfold first_image. rewrite Hx. exact Hf.
Qed.

Lemma relays_run {A} (m : M A) (R : A -> Prop) :
  relays env m R -> Forall (from_model env) (snd (run m env)).
Proof.
  intros H. pose proof (spec_run H) as Hrun.
  destruct (run m env) as [[a|e] tr]; cbn; tauto.
Qed.

End Rules.

Ltac relay_prefix :=
  eapply relays_bind;
  [apply relays_quiet;
   first [ apply emits_lift
         | apply resolveImages_emits; intros; cbn; tauto
         | solve [unfold resolveImage; emits_all event_side] ]
  | intros ? _; cbv beta zeta].

Ltac relay_shot :=
  apply relays_request_and_save; intros ? ? ? ?;
  cbv beta zeta; eapply relays_save_and_answer; eassumption.

Lemma relays_batch_sequential env outputDir config prompts :
  forall i results,
    relays env (batch_sequential outputDir config i prompts results) (fun _ => True).
Proof.
  induction prompts as [|prompt rest IH]; intros i results; cbn [batch_sequential].
  - apply relays_ret. exact I.
  - eapply relays_bind; [|intros results' _; apply IH].
    unfold batch_sequential_step. apply relays_try_catch.
    + eapply relays_bind; [apply relays_generateContent|]. intros response Ha.
      eapply relays_bind; [apply relays_lift|]. intros parts Hx.
      destruct parts as [ps|]; [|apply relays_ret; exact I].
      destruct (find_image (Some ps)) as [part|] eqn:Hf; [|apply relays_ret; exact I].
      eapply relays_save_found; eassumption.
    + intros e. apply relays_with_env, relays_ret. exact I.
Qed.

(** The answers the tasks of a parallel batch wait for are answers of
    the model. *)
Lemma relays_batch_start env config prompts :
  forall index,
    relays env (batch_start config index prompts)
           (Forall (fun task => forall response,
                        pending_result task = Ok response -> answered env response)).
Proof.
  induction prompts as [|prompt rest IH]; intros index; cbn [batch_start].
  - apply relays_ret. constructor.
  - eapply relays_bind
      with (R := fun r => forall response, r = Ok response -> answered env response).
    + intros tr. exists [EGenerateContent image_model (batch_request config prompt)].
      unfold attempt, generateContent. cbn. split; [reflexivity|].
      split; [repeat constructor|].
      intros response H. exists (List.length tr), image_model,
        (batch_request config prompt). exact H.
    + intros r Hr.
      eapply relays_bind; [apply IH|]. intros tasks Ht.
      apply relays_ret. constructor; [exact Hr | exact Ht].
Qed.

Lemma relays_batch_resume env outputDir task :
  (forall response, pending_result task = Ok response -> answered env response) ->
  relays env (batch_resume outputDir task) (fun _ => True).
Proof.
  intros Ht. unfold batch_resume. cbv zeta. apply relays_try_catch.
  - eapply relays_bind; [apply relays_lift|]. intros response Hr.
    eapply relays_bind; [apply relays_lift|]. intros parts Hx.
    destruct (find_image parts) as [part|] eqn:Hf; [|apply relays_ret; exact I].
    eapply relays_save_found; [exact (Ht _ Hr) | exact Hx | exact Hf].
  - intros e. apply relays_with_env, relays_ret. exact I.
Qed.

Lemma Forall_remove_nth {A} (P : A -> Prop) (l : list A) :
  Forall P l -> forall k, Forall P (remove_nth k l).
Proof.
  induction 1 as [|x l Hx Hl IH]; intros k; [destruct k; constructor|].
  destruct k as [|k]; cbn [remove_nth]; [exact Hl|].
  constructor; [exact Hx | apply IH].
Qed.

Lemma Forall_nth_default {A} (P : A -> Prop) (l : list A) (d : A) :
  Forall P l -> P d -> forall k, P (nth k l d).
Proof.
  induction 1 as [|x l Hx Hl IH]; intros Hd k; [destruct k; exact Hd|].
  destruct k as [|k]; cbn [nth]; [exact Hx | apply IH; exact Hd].
Qed.

Lemma relays_batch_settle env outputDir :
  forall n pending settled,
    Forall (fun task => forall response,
                pending_result task = Ok response -> answered env response)
           pending ->
    relays env (batch_settle outputDir n pending settled) (fun _ => True).
Proof.
  induction n as [|n IH]; intros pending settled Hp; cbn [batch_settle].
  - apply relays_ret. exact I.
  - destruct pending as [|first rest]; [apply relays_ret; exact I|].
    eapply relays_bind; [apply relays_quiet, emits_settles_next|]. intros k _.
    cbv zeta.
    eapply relays_bind.
    + apply relays_batch_resume.
      apply (Forall_nth_default _ _ first Hp). inversion Hp; assumption.
    + intros outcome _. apply IH. apply Forall_remove_nth. exact Hp.
Qed.

Lemma relays_dispatch env name args :
  relays env (dispatch name args) (fun _ => True).
Proof.
  unfold dispatch.
  repeat match goal with
         | |- context [String.eqb name ?s] =>
             destruct (String.eqb_spec name s) as [->|_]
         end.
  - unfold handleGenerateImage. relay_prefix. relay_shot.
  - unfold handleEditImage. relay_prefix. relay_prefix. relay_shot.
  - apply relays_quiet.
    apply (text_handlers_emit (fun e => ~ changes_disk e) args); cbn; tauto.
  - unfold handleMultiImageEdit. relay_prefix. relay_prefix. relay_shot.
  - unfold handleBatchGenerate. relay_prefix.
    eapply relays_bind with (R := fun _ => True);
      [|intros results _; apply relays_ret; exact I].
    unfold batch_results. cbv zeta.
    destruct (match BatchGenerateArgs.parallel _ with Some b => b | None => false end).
    + unfold batch_parallel.
      eapply relays_bind; [apply relays_batch_start|]. intros pending Hp.
      eapply relays_bind; [apply relays_batch_settle; exact Hp|].
      intros settled _. apply relays_ret. exact I.
    + apply relays_batch_sequential.
  - unfold handleGenerateVariations. relay_prefix.
    eapply relays_bind with (R := fun _ => True);
      [|intros results _; apply relays_ret; exact I].
    unfold variations_results. cbv zeta.
    eapply relays_bind;
      [apply relays_quiet; unfold variations_baseImage; emits_all event_side|].
    intros imagePart _. apply relays_for_lt. intros i results.
    unfold variation_step. apply relays_try_catch.
    + eapply relays_bind; [apply relays_with_env, relays_generateContent|].
      intros response Ha.
      eapply relays_bind; [apply relays_lift|]. intros parts Hx.
      destruct (find_image parts) as [part|] eqn:Hf; [|apply relays_ret; exact I].
      cbv beta in Hx.
      eapply relays_save_found; [exact Ha | exact Hx | exact Hf].
    + intros e.
      eapply relays_bind; [apply relays_quiet, emits_console_error; cbn; tauto|].
      intros _ _. apply relays_ret. exact I.
  - unfold handleGenerateWithTemplate. relay_prefix. relay_shot.
  - apply relays_quiet.
    apply (text_handlers_emit (fun e => ~ changes_disk e) args); cbn; tauto.
  - apply relays_quiet, emits_throw.
Qed.

(** Whatever the tool, its arguments and what the model and the disk
    answer, the data of every file a call writes is the data of the
    image of an answer the model gave during the call: the first part
    with inline data of the first candidate.  Nothing else is ever
    written, in particular not an image of the caller. *)
Theorem files_hold_images_of_the_model (env : Env) (name : String.string)
        (args : value) :
  Forall (from_model env) (snd (run (CallTool name args) env)).
Proof.
  apply (relays_run env (CallTool name args) (fun _ => True)).
  unfold CallTool. apply relays_try_catch; [apply relays_dispatch|].
  intros e. apply relays_with_env, relays_ret. exact I.
Qed.

(** *** The text of the tools that answer with text *)

Lemma handleAnalyzeImage_relays env args :
  spec env (handleAnalyzeImage args)
       (fun r _ => relays_text env "analyze_image" r) (fun _ _ => True).
Proof.
  unfold handleAnalyzeImage. apply spec_bind_lift.
  destruct (parse AnalyzeImageArgsSchema args) as [a|e]; [|exact I].
  eapply spec_bind; [apply spec_resolveImage | trivial_throw |]. intros part m0 _.
  eapply spec_bind; [apply spec_generateContent_answer | trivial_throw |].
  intros response m3 [_ [t Ht]].
  apply spec_bind_lift.
  destruct (Gemini.text response) as [answer|e] eqn:Hx; [|exact I].
  apply spec_ret. exists response, answer.
  split; [exists t; eauto|]. split; [exact Hx | reflexivity].
Qed.

Lemma handleCompareImages_relays env args :
  spec env (handleCompareImages args)
       (fun r _ => relays_text env "compare_images" r) (fun _ _ => True).
Proof.
  unfold handleCompareImages. apply spec_bind_lift.
  destruct (parse CompareImagesArgsSchema args) as [a|e]; [|exact I].
  eapply spec_bind; [apply spec_readFile | trivial_throw |]. intros image1 m1 _.
  eapply spec_bind; [apply spec_readFile | trivial_throw |]. intros image2 m2 _.
  eapply spec_bind; [apply spec_generateContent_answer | trivial_throw |].
  intros response m3 [_ [t Ht]].
  apply spec_bind_lift.
  destruct (Gemini.text response) as [answer|e] eqn:Hx; [|exact I].
  apply spec_ret. exists response, answer.
  split; [exists t; eauto|]. split; [exact Hx|].
  eexists. reflexivity.
Qed.

(** When [analyze_image] or [compare_images] answers without [isError],
    the text of the answer is the text of an answer of the model: alone
    for [analyze_image], and under the heading that names the kind of
    comparison for [compare_images]. *)
Theorem text_tools_relay_the_answer (env : Env) (name : String.string)
        (args : value) (result : CallToolResult) :
  text_tool name = true ->
  fst (run (CallTool name args) env) = Ok result ->
  isError result = None ->
  relays_text env name result.
Proof.
  intros Ht Hrun Hok.
  assert (H : spec env (dispatch name args)
                (fun r _ => relays_text env name r) (fun _ _ => True)).
  { unfold dispatch, text_tool in *. apply orb_true_iff in Ht.
    destruct Ht as [Ht|Ht]; apply String.eqb_eq in Ht; subst name;
      cbn [String.eqb Ascii.eqb Bool.eqb];
      [apply handleAnalyzeImage_relays | apply handleCompareImages_relays]. }
  pose proof (spec_run H) as Hd. revert Hrun.
  unfold run, CallTool, try_catch, with_env, ret in *.
  destruct (dispatch name args env []) as [[r|e] tr]; cbn [fst];
    intros Hrun; inversion Hrun; subst result; [exact Hd|].
  discriminate Hok.
Qed.

Lemma text_tools_relay_the_answer_witness :
  text_tool "analyze_image" = true
  /\ (let result :=
        success "a cat" in
      let env := Demo.env_with (fun _ _ _ =>
                   Ok {| Gemini.candidates := None; Gemini.text := Ok "a cat" |}) in
      let args := VObj [("prompt", VStr "what is it?");
                        ("imageData", VStr "iVBORw0KGgo=")] in
      fst (run (CallTool "analyze_image" args) env) = Ok result
      /\ isError result = None
      /\ relays_text env "analyze_image" result).
Proof.
  split; [reflexivity|]. intros result env args.
  assert (Hrun : fst (run (CallTool "analyze_image" args) env) = Ok result)
    by reflexivity.
  assert (Hok : isError result = None) by reflexivity.
  split; [exact Hrun|]. split; [exact Hok|].
  exact (text_tools_relay_the_answer env "analyze_image" args result
           eq_refl Hrun Hok).
Defined.

End Relay.


(** ** Where the files go and how they are named *)

Module Naming.
Import Js Zod Props Observations ZodFacts Validation Logic StringFacts Classes
       Footprint Sampling.
Local Unset Implicit Arguments.

Lemma replace_colon_dot_plain s : plain (replace_colon_dot s).
Proof.
  unfold plain. induction s as [|c r [IH1 IH2]]; cbn [replace_colon_dot holds];
    [tauto|].
  destruct (Ascii.eqb_spec c ":") as [->|Hc]; cbn [orb].
  - split; intros [H|H]; [discriminate H | tauto | discriminate H | tauto].
  - destruct (Ascii.eqb_spec c ".") as [->|Hd].
    + split; intros [H|H]; [discriminate H | tauto | discriminate H | tauto].
    + split; intros [H|H]; tauto.
Qed.

Section Rules.
Variable env : Env.
Variable P : Event -> Prop.

Lemma emits_in_emits {A} (m : M A) : emits P m -> emits_in env P m.
Proof. intros H tr. exact (H env tr). Qed.

Lemma emits_in_bind {A B} (m : M A) (k : A -> M B) :
  emits_in env P m -> (forall a, emits_in env P (k a)) -> emits_in env P (bind m k).
Proof.
  intros Hm Hk tr. unfold bind.
  destruct (Hm tr) as (n1 & Htr & H1).
  destruct (m env tr) as [[a|e] tr1]; cbn in *; subst tr1.
  - destruct (Hk a (tr ++ n1)%list) as (n2 & Htr2 & H2).
    exists (n1 ++ n2)%list. rewrite app_assoc. split; [exact Htr2|].
    apply Forall_app. auto.
  - exists n1. auto.
Qed.

Lemma emits_in_bind_lift {A B} (r : result A) (k : A -> M B) :
  (forall a, r = Ok a -> emits_in env P (k a)) -> emits_in env P (bind (lift r) k).
Proof.
  intros Hk tr. unfold bind, lift. destruct r as [a|e].
  - exact (Hk a eq_refl tr).
  - exists []. cbn. rewrite app_nil_r. auto.
Qed.

Lemma emits_in_try_catch {A} (m : M A) (handler : thrown -> M A) :
  emits_in env P m -> (forall e, emits_in env P (handler e)) ->
  emits_in env P (try_catch m handler).
Proof.
  intros Hm Hh tr. unfold try_catch.
  destruct (Hm tr) as (n1 & Htr & H1).
  destruct (m env tr) as [[a|e] tr1]; cbn in *; subst tr1.
  - exists n1. auto.
  - destruct (Hh e (tr ++ n1)%list) as (n2 & Htr2 & H2).
    exists (n1 ++ n2)%list. rewrite app_assoc. split; [exact Htr2|].
    apply Forall_app. auto.
Qed.

Lemma emits_in_for_lt {S} (count : Q) (body : nat -> S -> M S) :
  (forall i s, emits_in env P (body i s)) ->
  forall fuel i s, emits_in env P (for_lt fuel i count body s).
Proof.
  intros Hb. induction fuel as [|fuel IH]; intros i s; cbn [for_lt].
  - apply emits_in_emits, emits_ret.
  - destruct (Qlt_bool (inject_Z (Z.of_nat i)) count);
      [|apply emits_in_emits, emits_ret].
    apply emits_in_bind; [apply Hb | intros s'; apply IH].
Qed.

(** Saving an image: the file name is made of a timestamp that was read
    from the clock. *)
Lemma saveImage_emits_stamped outputDir filename data :
  P EDate -> P (EMkdir outputDir) ->
  (forall timestamp w,
     stamped env timestamp ->
     P (EWriteFile (NodePath.join outputDir (filename timestamp)) data w)) ->
  emits_in env P (saveImage outputDir filename data).
Proof.
  intros Hd Hm Hw tr.
  unfold saveImage, bind, timestamp_now, mkdir, writeFile, ret. cbv zeta.
  destruct (env_mkdir env _ outputDir);
    [destruct (env_writeFile env _ _ data)|];
    cbn [snd is_ok]; repeat rewrite <- app_assoc; cbn [app];
    eexists; (split; [reflexivity|]);
    repeat constructor; auto; apply Hw; eexists; reflexivity.
Qed.

Lemma emits_in_run {A} (m : M A) :
  emits_in env P m -> Forall P (snd (run m env)).
Proof.
  intros H. unfold run. destruct (H []) as (n & Htr & Hn).
  rewrite Htr. exact Hn.
Qed.

Lemma emits_in_CallTool name args :
  emits_in env P (dispatch name args) -> emits_in env P (CallTool name args).
Proof.
  intros H. unfold CallTool. apply emits_in_try_catch; [exact H|].
  intros e. apply emits_in_emits, emits_with_env. intros env'. apply emits_ret.
Qed.

End Rules.

Lemma optional_outputDir fs p o :
  parsed_value (optional Zod.string p (lookup "outputDir" fs)) = Some o ->
  or_default o "." = caller_outputDir (VObj fs).
Proof.
  unfold caller_outputDir. cbn [field].
  destruct (lookup "outputDir" fs); cbn; try discriminate;
    intros H; inversion H; reflexivity.
Qed.

Ltac outputDir_of_args H :=
  try (apply parse_refine in H as [_ H]);
  apply parse_ok_value in H as [H _];
  apply object_value in H as (? & -> & H);
  open_shape H;
  match goal with
  | E : parsed_value (optional Zod.string _ (lookup "outputDir" _)) = Some _ |- _ =>
      apply optional_outputDir in E; exact E
  end.

Lemma GenerateImageArgs_outputDir args a :
  parse GenerateImageArgsSchema args = Ok a ->
  or_default (GenerateImageArgs.outputDir a) "." = caller_outputDir args.
Proof. intros H. outputDir_of_args H. Qed.

Lemma EditImageArgs_outputDir args a :
  parse EditImageArgsSchema args = Ok a ->
  or_default (EditImageArgs.outputDir a) "." = caller_outputDir args.
Proof. intros H. outputDir_of_args H. Qed.

Lemma MultiImageEditArgs_outputDir args a :
  parse MultiImageEditArgsSchema args = Ok a ->
  or_default (MultiImageEditArgs.outputDir a) "." = caller_outputDir args.
Proof. intros H. outputDir_of_args H. Qed.

Lemma BatchGenerateArgs_outputDir args a :
  parse BatchGenerateArgsSchema args = Ok a ->
  or_default (BatchGenerateArgs.outputDir a) "." = caller_outputDir args.
Proof. intros H. outputDir_of_args H. Qed.

Lemma GenerateVariationsArgs_outputDir args a :
  parse GenerateVariationsArgsSchema args = Ok a ->
  or_default (GenerateVariationsArgs.outputDir a) "." = caller_outputDir args.
Proof. intros H. outputDir_of_args H. Qed.

Lemma PromptTemplateArgs_outputDir args a :
  parse PromptTemplateArgsSchema args = Ok a ->
  or_default (PromptTemplateArgs.outputDir a) "." = caller_outputDir args.
Proof. intros H. outputDir_of_args H. Qed.

Lemma extension_of_mimeType_known mimeType :
  In (extension_of_mimeType mimeType) [".png"; ".jpg"].
Proof.
  unfold extension_of_mimeType.
  destruct (String.eqb mimeType "image/png"); [left; reflexivity|].
  destruct (String.eqb mimeType "image/jpeg"); [right|]; left; reflexivity.
Qed.

(** A file name made of a stem, the timestamp and an extension. *)
Lemma saves_named env name args stem extension data :
  named_for name stem extension ->
  emits_in env (in_outputDir env name args)
           (saveImage (caller_outputDir args)
                      (fun timestamp => stem ++ timestamp ++ extension) data).
Proof.
  intros Hn. apply saveImage_emits_stamped; [exact I | reflexivity|].
  intros timestamp w Ht. exists stem, timestamp, extension.
  split; [reflexivity|]. split; [exact Hn|]. split; [exact Ht|].
  destruct Ht as [t ->]. apply replace_colon_dot_plain.
Qed.

(** A file name with a number and a dash between the stem and the
    timestamp. *)
Lemma saves_numbered env name args stem i data :
  named_for name (stem ++ nat_toString (i + 1) ++ "-") ".png" ->
  emits_in env (in_outputDir env name args)
           (saveImage (caller_outputDir args)
                      (fun timestamp =>
                         stem ++ nat_toString (i + 1) ++ "-" ++ timestamp ++ ".png")
                      data).
Proof.
  intros Hn. apply saveImage_emits_stamped; [exact I | reflexivity|].
  intros timestamp w Ht.
  exists (stem ++ nat_toString (i + 1) ++ "-"), timestamp, ".png".
  split; [rewrite !append_assoc; reflexivity|].
  split; [exact Hn|]. split; [exact Ht|].
  destruct Ht as [t ->]. apply replace_colon_dot_plain.
Qed.

Lemma in_outputDir_other env name args e :
  ~ changes_disk e -> in_outputDir env name args e.
Proof. destruct e; cbn; tauto. Qed.

(** One step of a proof about the files of a handler: [save] is for the
    calls of [saveImage], and what does not touch the disk is left to
    the rules for classes of events. *)
Ltac in_step save :=
  cbv beta zeta;
  lazymatch goal with
  | |- emits_in _ _ (saveImage _ _ _) => save
  | |- emits_in _ _ (bind (lift _) _) => apply emits_in_bind_lift; intros ? ?
  | |- emits_in _ _ (bind _ _) => apply emits_in_bind; [|intros ?]
  | |- emits_in _ _ (try_catch _ _) => apply emits_in_try_catch; [|intros ?]
  | |- emits_in _ _ (if ?b then _ else _) => destruct b
  | |- emits_in _ _ (match ?x with _ => _ end) => destruct x
  | |- emits_in _ _ _ =>
      apply emits_in_emits;
      solve [emits_all ltac:(apply in_outputDir_other; cbn; tauto)]
  end.

Ltac in_all save := repeat in_step save.

Section Loops.
Variable env : Env.
Variable P : Event -> Prop.
Hypothesis P_other : forall e, ~ changes_disk e -> P e.

Ltac loop_step Hsave :=
  cbv beta zeta;
  lazymatch goal with
  | |- emits_in _ _ (saveImage _ _ _) => apply Hsave
  | |- emits_in _ _ (bind (lift _) _) => apply emits_in_bind_lift; intros ? ?
  | |- emits_in _ _ (bind _ _) => apply emits_in_bind; [|intros ?]
  | |- emits_in _ _ (try_catch _ _) => apply emits_in_try_catch; [|intros ?]
  | |- emits_in _ _ (if ?b then _ else _) => destruct b
  | |- emits_in _ _ (match ?x with _ => _ end) => destruct x
  | |- emits_in _ _ _ =>
      apply emits_in_emits;
      solve [emits_all ltac:(apply P_other; cbn; tauto)]
  end.

Lemma batch_sequential_saves outputDir config prompts :
  (forall i data, emits_in env P (saveImage outputDir (batch_filename i) data)) ->
  forall i results,
    emits_in env P (batch_sequential outputDir config i prompts results).
Proof.
  intros Hsave.
  induction prompts as [|prompt rest IH]; intros i results; cbn [batch_sequential].
  - apply emits_in_emits, emits_ret.
  - apply emits_in_bind; [|intros results'; apply IH].
    unfold batch_sequential_step. repeat loop_step Hsave.
Qed.

Lemma batch_start_saves config prompts :
  forall index, emits_in env P (batch_start config index prompts).
Proof.
  intros index. apply emits_in_emits, batch_start_emits.
  intros prompt. apply P_other. cbn. tauto.
Qed.

Lemma batch_settle_saves outputDir :
  (forall i data, emits_in env P (saveImage outputDir (batch_filename i) data)) ->
  forall n pending settled,
    emits_in env P (batch_settle outputDir n pending settled).
Proof.
  intros Hsave. induction n as [|n IH]; intros pending settled; cbn [batch_settle].
  - apply emits_in_emits, emits_ret.
  - destruct pending as [|first rest]; [apply emits_in_emits, emits_ret|].
    apply emits_in_bind; [apply emits_in_emits, emits_settles_next|]. intros k.
    apply emits_in_bind; [|intros outcome; apply IH].
    unfold batch_resume. repeat loop_step Hsave.
Qed.

Lemma variation_step_saves outputDir basePrompt count imagePart generationConfig
      i results :
  (forall i data, emits_in env P (saveImage outputDir (variation_filename i) data)) ->
  emits_in env P (variation_step outputDir basePrompt count imagePart
                                 generationConfig i results).
Proof. intros Hsave. unfold variation_step. repeat loop_step Hsave. Qed.

End Loops.

(** Whatever the tool and its arguments, a call makes no other directory
    than the [outputDir] of its arguments, the current directory when
    there is none, and the path of every file it writes is [path.join]
    of that directory and a name made of the stem of the tool, a
    timestamp and the extension: the stem is [generated-image-],
    [edited-image-], [multi-image-result-], [batch-N-], [variation-N-]
    or the name of the template and a dash; the timestamp is a reading
    of the clock in which [:] and [.] have been replaced, so that it
    holds neither; and the extension is [.png] or [.jpg] for the first
    three stems and [.png] for the others.  [analyze_image],
    [compare_images] and a name that is no tool write no file. *)
Theorem files_go_to_outputDir (env : Env) (name : String.string) (args : value) :
  Forall (in_outputDir env name args) (snd (run (CallTool name args) env)).
Proof.
  apply emits_in_run, emits_in_CallTool. unfold dispatch.
  repeat match goal with
         | |- context [String.eqb name ?s] =>
             destruct (String.eqb_spec name s) as [->|_]
         end.
  - unfold handleGenerateImage. apply emits_in_bind_lift. intros a Hp.
    cbv beta zeta. rewrite (GenerateImageArgs_outputDir _ _ Hp).
    in_all ltac:(apply saves_named; split;
                 [reflexivity | apply extension_of_mimeType_known]).
  - unfold handleEditImage, resolveImage. apply emits_in_bind_lift. intros a Hp.
    cbv beta zeta. rewrite (EditImageArgs_outputDir _ _ Hp).
    in_all ltac:(apply saves_named; split;
                 [reflexivity | apply extension_of_mimeType_known]).
  - apply emits_in_emits.
    apply (text_handlers_emit (in_outputDir env "analyze_image" args) args);
      intros; exact I.
  - unfold handleMultiImageEdit. apply emits_in_bind_lift. intros a Hp.
    cbv beta zeta. rewrite (MultiImageEditArgs_outputDir _ _ Hp).
    apply emits_in_bind;
      [apply emits_in_emits, resolveImages_emits; intros; exact I|].
    intros parts.
    in_all ltac:(apply saves_named; split;
                 [reflexivity | apply extension_of_mimeType_known]).
  - unfold handleBatchGenerate. apply emits_in_bind_lift. intros a Hp.
    apply emits_in_bind; [|intros results; apply emits_in_emits, emits_ret].
    unfold batch_results, batch_parallel. cbv zeta.
    rewrite (BatchGenerateArgs_outputDir _ _ Hp).
    destruct (match BatchGenerateArgs.parallel a with Some b => b | None => false end).
    + apply emits_in_bind;
        [apply batch_start_saves; apply in_outputDir_other|].
      intros pending.
      apply emits_in_bind; [|intros settled; apply emits_in_emits, emits_ret].
      apply batch_settle_saves; try apply in_outputDir_other.
      intros i data. apply (saves_numbered env "batch_generate" args "batch-").
      split; [exists i; reflexivity | reflexivity].
    + apply batch_sequential_saves; try apply in_outputDir_other.
      intros i data. apply (saves_numbered env "batch_generate" args "batch-").
      split; [exists i; reflexivity | reflexivity].
  - unfold handleGenerateVariations. apply emits_in_bind_lift. intros a Hp.
    apply emits_in_bind; [|intros results; apply emits_in_emits, emits_ret].
    unfold variations_results. cbv zeta.
    rewrite (GenerateVariationsArgs_outputDir _ _ Hp).
    apply emits_in_bind;
      [apply emits_in_emits; unfold variations_baseImage;
       emits_all ltac:(apply in_outputDir_other; cbn; tauto)|].
    intros imagePart. apply emits_in_for_lt. intros i results.
    apply variation_step_saves; try apply in_outputDir_other.
    intros j data.
    apply (saves_numbered env "generate_variations" args "variation-").
    split; [exists j; reflexivity | reflexivity].
  - unfold handleGenerateWithTemplate. apply emits_in_bind_lift. intros a Hp.
    cbv beta zeta. rewrite (PromptTemplateArgs_outputDir _ _ Hp).
    apply emits_in_bind;
      [apply emits_in_emits, emits_generateContent; exact I|].
    intros response.
    apply emits_in_bind_lift. intros part Hx.
    apply emits_in_bind; [|intros filepath; apply emits_in_emits, emits_ret].
    apply saveImage_emits_stamped; [exact I | reflexivity|].
    intros timestamp w Ht.
    exists (Template_name (PromptTemplateArgs.template a) ++ "-"), timestamp, ".png".
    split; [rewrite !append_assoc; reflexivity|].
    split; [split; [eexists; reflexivity | reflexivity]|].
    split; [exact Ht|].
    destruct Ht as [t ->]. apply replace_colon_dot_plain.
  - apply emits_in_emits.
    apply (text_handlers_emit (in_outputDir env "compare_images" args) args);
      intros; exact I.
  - apply emits_in_emits, emits_throw.
Qed.

End Naming.


(** ** The advertised values, the templates and the descriptions *)

Module Advertised.
Import Js Zod Props Observations ZodFacts Validation Logic Handlers Rejections
       Sampling Inputs.
Local Unset Implicit Arguments.

Lemma enum_value {A} (name : A -> String.string) options p v o :
  parsed_value (enum name options p v) = Some o ->
  v = VStr (name o) /\ In o options.
Proof.
  unfold enum. destruct v; cbn; try discriminate.
  destruct (find (fun o' => String.eqb (name o') s) options) as [o'|] eqn:Hf;
    cbn; [|discriminate].
  intros H. inversion H; subst o'.
  apply find_some in Hf as [Hin Heq]. apply String.eqb_eq in Heq.
  subst s. auto.
Qed.

Lemma enum_of_key {A} (name : A -> String.string) options k fs p o :
  parsed_value (enum name options p (lookup k fs)) = Some o ->
  field k (VObj fs) <> VUndefined ->
  (forall s, In s (map name options) -> field k (VObj fs) <> VStr s) ->
  False.
Proof.
  cbn [field]. intros H _ Hnot. apply enum_value in H as [Hv Hin].
  apply (Hnot (name o)); [apply in_map; exact Hin | exact Hv].
Qed.

Lemma optional_enum_of_key {A} (name : A -> String.string) options k fs p o :
  parsed_value (optional (enum name options) p (lookup k fs)) = Some o ->
  field k (VObj fs) <> VUndefined ->
  (forall s, In s (map name options) -> field k (VObj fs) <> VStr s) ->
  False.
Proof.
  cbn [field]. intros H Hu Hnot.
  apply optional_value in H as [[Hv _]|(x & _ & H)]; [contradiction|].
  apply enum_value in H as [Hv Hin].
  apply (Hnot (name x)); [apply in_map; exact Hin | exact Hv].
Qed.

Lemma default_enum_of_key {A} (name : A -> String.string) options d k fs p o :
  parsed_value (default d (enum name options) p (lookup k fs)) = Some o ->
  field k (VObj fs) <> VUndefined ->
  (forall s, In s (map name options) -> field k (VObj fs) <> VStr s) ->
  False.
Proof.
  cbn [field]. intros H Hu Hnot. unfold default in H.
  destruct (lookup k fs) eqn:Hl; try contradiction;
    apply enum_value in H as [Hv Hin];
    apply (Hnot (name o)); try (apply in_map; exact Hin); exact Hv.
Qed.

Ltac outside_enum Hu Hnot :=
  let a := fresh "a" in
  let H := fresh "H" in
  intros [a H];
  try (apply parse_refine in H as [_ H]);
  apply parse_ok_value in H as [H _];
  apply object_value in H as (? & -> & H);
  open_shape H;
  match goal with
  | V : parsed_value (enum _ _ _ (lookup ?k _)) = Some _ |- _ =>
      exact (enum_of_key _ _ k _ _ _ V Hu Hnot)
  | V : parsed_value (optional (enum _ _) _ (lookup ?k _)) = Some _ |- _ =>
      exact (optional_enum_of_key _ _ k _ _ _ V Hu Hnot)
  | V : parsed_value (default _ (enum _ _) _ (lookup ?k _)) = Some _ |- _ =>
      exact (default_enum_of_key _ _ _ k _ _ _ V Hu Hnot)
  end.

Lemma outside_enum_invalid t k options args :
  In t ListTools.tools -> In (k, options) (ListTools.enums_of t) ->
  field k args <> VUndefined ->
  (forall s, In s options -> field k args <> VStr s) ->
  ~ validated (ListTools.name_of t) args.
Proof.
  intros Ht Hk Hu Hnot.
  repeat destruct Ht as [<-|Ht]; try destruct Ht;
    cbn in Hk;
    repeat match type of Hk with
           | _ \/ _ => destruct Hk as [Hk|Hk]
           | False => destruct Hk
           end;
    inversion Hk; subst k options; clear Hk;
    cbn [ListTools.name_of ListTools.tool field lookup String.eqb Ascii.eqb Bool.eqb
         validated];
    outside_enum Hu Hnot.
Qed.

(** Every property that the advertised schema of a tool gives with an
    [enum] is held to it by the validator: a call that supplies the
    property with anything but one of the advertised values is rejected
    before any effect. *)
Theorem advertised_enums_are_enforced (env : Env) (t : value) (k : String.string)
        (options : list String.string) (args : value) :
  In t ListTools.tools -> In (k, options) (ListTools.enums_of t) ->
  field k args <> VUndefined ->
  (forall s, In s options -> field k args <> VStr s) ->
  exists issues,
    run (CallTool (ListTools.name_of t) args) env
    = (Ok (error_result env (ZodError issues)), []).
Proof.
  intros Ht Hk Hu Hnot.
  apply invalid_untouched.
  - exact (proj1 (advertised_required t Ht)).
  - exact (outside_enum_invalid t k options args Ht Hk Hu Hnot).
Qed.

Lemma advertised_enums_are_enforced_witness :
  In (nth 7 ListTools.tools VNull) ListTools.tools
  /\ In ("compareType", ["differences"; "similarities"; "both"])
        (ListTools.enums_of (nth 7 ListTools.tools VNull))
  /\ exists issues,
       run (CallTool (ListTools.name_of (nth 7 ListTools.tools VNull))
              (VObj [("image1Path", VStr "a.png"); ("image2Path", VStr "b.png");
                     ("compareType", VStr "all")]))
           Demo.png_env
       = (Ok (error_result Demo.png_env (ZodError issues)), []).
Proof.
  assert (H1 : In (nth 7 ListTools.tools VNull) ListTools.tools)
    by (do 7 right; left; reflexivity).
  assert (H2 : In ("compareType", ["differences"; "similarities"; "both"])
                  (ListTools.enums_of (nth 7 ListTools.tools VNull)))
    by (left; reflexivity).
  assert (H3 : field "compareType"
                 (VObj [("image1Path", VStr "a.png"); ("image2Path", VStr "b.png");
                        ("compareType", VStr "all")])
               <> VUndefined) by discriminate.
  assert (H4 : forall s, In s ["differences"; "similarities"; "both"] ->
                         field "compareType"
                           (VObj [("image1Path", VStr "a.png");
                                  ("image2Path", VStr "b.png");
                                  ("compareType", VStr "all")])
                         <> VStr s).
  { intros s Hs. repeat destruct Hs as [<-|Hs]; try destruct Hs; discriminate. }
  split; [exact H1|]. split; [exact H2|].
  exact (advertised_enums_are_enforced Demo.png_env (nth 7 ListTools.tools VNull)
           "compareType" ["differences"; "similarities"; "both"] _ H1 H2 H3 H4).
Defined.

(** *** The prompt of a template *)

Lemma Template_name_injective t t' : Template_name t = Template_name t' -> t = t'.
Proof. destruct t, t'; intros H; first [reflexivity | discriminate H]. Qed.

Lemma PromptTemplateArgs_fields args a t c :
  parse PromptTemplateArgsSchema args = Ok a ->
  field "template" args = VStr (Template_name t) ->
  field "customization" args = VStr c ->
  PromptTemplateArgs.template a = t /\ PromptTemplateArgs.customization a = c.
Proof.
  intros H Ht Hc.
  apply parse_ok_value in H as [H _].
  apply object_value in H as (fs & -> & H).
  open_shape H. cbn [field] in Ht, Hc.
  cbn [PromptTemplateArgs.template PromptTemplateArgs.customization].
  split.
  - match goal with
    | V : parsed_value (enum _ _ _ (lookup "template" fs)) = Some _ |- _ =>
        apply enum_value in V as [V _]; rewrite Ht in V; inversion V as [Hn];
        symmetry; exact (Template_name_injective _ _ Hn)
    end.
  - match goal with
    | V : parsed_value (Zod.string _ (lookup "customization" fs)) = Some _ |- _ =>
        apply string_value in V; rewrite Hc in V; inversion V; reflexivity
    end.
Qed.

Lemma handleGenerateWithTemplate_prompt env args a :
  parse PromptTemplateArgsSchema args = Ok a ->
  spec env (handleGenerateWithTemplate args)
       (fun r n =>
          requests n
          = [(image_model,
              user_request
                [Gemini.TextPart (template_prompt (PromptTemplateArgs.template a)
                                    (PromptTemplateArgs.customization a))]
                (Some (imageGenerationConfig (PromptTemplateArgs.config a))))]
          /\ exists head,
               r = success (head ++ "Prompt used: "
                            ++ template_prompt (PromptTemplateArgs.template a)
                                 (PromptTemplateArgs.customization a)))
       (fun _ n =>
          requests n
          = [(image_model,
              user_request
                [Gemini.TextPart (template_prompt (PromptTemplateArgs.template a)
                                    (PromptTemplateArgs.customization a))]
                (Some (imageGenerationConfig (PromptTemplateArgs.config a))))]).
Proof.
  intros Hp. unfold handleGenerateWithTemplate. apply spec_bind_lift. rewrite Hp.
  cbv beta zeta.
  eapply spec_bind; [apply spec_generateContent | intros e n ->; reflexivity |].
  intros response n1 ->.
  apply spec_bind_lift.
  destruct (extractImage "No image was generated" response) as [part|e];
    [|reflexivity].
  eapply spec_bind; [apply spec_saveImage | |].
  - intros e n (Hw & Hr). cbn [app requests]. rewrite Hr. reflexivity.
  - intros filepath n2 (Hw & Hr & _). apply spec_ret. split.
    + rewrite app_nil_r. cbn [app requests]. rewrite Hr. reflexivity.
    + exists ("Generated " ++ Template_name (PromptTemplateArgs.template a)
              ++ " style image: " ++ filepath ++ LF).
      f_equal. unfold template_prompt.
      rewrite !StringFacts.append_assoc. reflexivity.
Qed.

(** On valid arguments with template [t] and customization [c],
    [generate_with_template] sends one request, whose only part is the
    text of the template followed by a full stop, a space and the
    customization; and when the call answers without [isError], its text
    ends with [Prompt used: ] and that same prompt. *)
Theorem template_prompt_is_sent_and_reported (env : Env) (args : value)
        (t : Template) (c : String.string) :
  accepts PromptTemplateArgsSchema args ->
  field "template" args = VStr (Template_name t) ->
  field "customization" args = VStr c ->
  (exists config,
     requests (snd (run (CallTool "generate_with_template" args) env))
     = [(image_model, user_request [Gemini.TextPart (template_prompt t c)] config)])
  /\ forall result,
       fst (run (CallTool "generate_with_template" args) env) = Ok result ->
       isError result = None ->
       exists head,
         result = success (head ++ "Prompt used: " ++ template_prompt t c).
Proof.
  intros [a Hp] Ht Hc.
  destruct (PromptTemplateArgs_fields args a t c Hp Ht Hc) as [Ha Hb].
  pose proof (spec_run (handleGenerateWithTemplate_prompt env args a Hp)) as H.
  rewrite Ha, Hb in H.
  unfold run, CallTool, try_catch, with_env, ret in *.
  cbn [dispatch String.eqb Ascii.eqb Bool.eqb].
  destruct (handleGenerateWithTemplate args env []) as [[r|e] tr]; cbn [fst snd].
  - destruct H as [Hr Hhead]. split; [eauto|].
    intros result Hres _. inversion Hres; subst result. exact Hhead.
  - split; [eauto|]. intros result Hres Hok. inversion Hres; subst result.
    discriminate Hok.
Qed.

Lemma template_prompt_is_sent_and_reported_witness :
  accepts PromptTemplateArgsSchema
          (VObj [("template", VStr "logo");
                 ("customization", VStr "for a coffee shop")])
  /\ (exists config,
        requests (snd (run (CallTool "generate_with_template"
                              (VObj [("template", VStr "logo");
                                     ("customization", VStr "for a coffee shop")]))
                           Demo.png_env))
        = [(image_model,
            user_request
              [Gemini.TextPart (template_prompt logo "for a coffee shop")] config)])
  /\ forall result,
       fst (run (CallTool "generate_with_template"
                   (VObj [("template", VStr "logo");
                          ("customization", VStr "for a coffee shop")]))
                Demo.png_env)
       = Ok result ->
       isError result = None ->
       exists head,
         result = success (head ++ "Prompt used: "
                           ++ template_prompt logo "for a coffee shop").
Proof.
  assert (H : accepts PromptTemplateArgsSchema
                (VObj [("template", VStr "logo");
                       ("customization", VStr "for a coffee shop")]))
    by (eexists; reflexivity).
  split; [exact H|].
  exact (template_prompt_is_sent_and_reported Demo.png_env
           (VObj [("template", VStr "logo");
                  ("customization", VStr "for a coffee shop")])
           logo "for a coffee shop" H eq_refl eq_refl).
Defined.

(** *** The descriptions of the images *)

Lemma resolveImages_same images :
  forall images',
    same_images images images' ->
    forall i env tr, resolveImages i images env tr = resolveImages i images' env tr.
Proof.
  unfold same_images.
  induction images as [|image rest IH]; intros [|image' rest'] H i env tr;
    cbn [map] in H; try discriminate H; [reflexivity|].
  inversion H as [[Hd Hp Hr]]. cbn [resolveImages]. unfold bind.
  rewrite Hd, Hp.
  destruct (resolveImage _ _ _ env tr) as [[part|e] tr1]; [|reflexivity].
  rewrite (IH rest' Hr (S i) env tr1). reflexivity.
Qed.

(** The [description] of an image of [multi_image_edit] is validated and
    then dropped: two valid calls that differ in the descriptions of
    their images at most read the same files, send the same request,
    write the same file and answer the same, in the same environment. *)
Theorem descriptions_are_ignored (env : Env) (args args' : value)
        (a a' : MultiImageEditArgs.t) :
  parse MultiImageEditArgsSchema args = Ok a ->
  parse MultiImageEditArgsSchema args' = Ok a' ->
  same_but_descriptions a a' ->
  run (CallTool "multi_image_edit" args) env
  = run (CallTool "multi_image_edit" args') env.
Proof.
  intros Hp Hp' (H1 & H2 & H3 & H4).
  unfold run, CallTool, try_catch. cbn [dispatch String.eqb Ascii.eqb Bool.eqb].
  unfold handleMultiImageEdit, bind, lift. rewrite Hp, Hp'. cbv beta zeta.
  rewrite (resolveImages_same _ _ H4 0%nat env []), H1, H2, H3. reflexivity.
Qed.

Lemma descriptions_are_ignored_witness :
  let args :=
    VObj [("prompt", VStr "combine");
          ("images", VArr [VObj [("imagePath", VStr "pose.jpg");
                                 ("description", VStr "reference pose")]])] in
  let args' :=
    VObj [("prompt", VStr "combine");
          ("images", VArr [VObj [("imagePath", VStr "pose.jpg")]])] in
  let a :=
    MultiImageEditArgs.Build "combine"
      [ImageInput.Build None (Some "pose.jpg") (Some "reference pose")] None None in
  let a' :=
    MultiImageEditArgs.Build "combine"
      [ImageInput.Build None (Some "pose.jpg") None] None None in
  parse MultiImageEditArgsSchema args = Ok a
  /\ parse MultiImageEditArgsSchema args' = Ok a'
  /\ same_but_descriptions a a'
  /\ run (CallTool "multi_image_edit" args) Demo.png_env
     = run (CallTool "multi_image_edit" args') Demo.png_env.
Proof.
  intros args args' a a'.
  assert (H : parse MultiImageEditArgsSchema args = Ok a) by reflexivity.
  assert (H' : parse MultiImageEditArgsSchema args' = Ok a') by reflexivity.
  assert (Hs : same_but_descriptions a a') by (repeat split; reflexivity).
  split; [exact H|]. split; [exact H'|]. split; [exact Hs|].
  exact (descriptions_are_ignored Demo.png_env args args' a a' H H' Hs).
Defined.

End Advertised.
